(** * Field extraction of [append_from_pdf.py]

    A shallow embedding of the seven field parsers of [append_from_pdf.py]
    and of the record assembly [parse_pdf], together with the properties
    of the specification that concern them.

    A Python [str] is a sequence of code points: it is modelled as
    [list N].  Positions in a string are natural numbers.  The regular
    expressions of the source are kept as syntax trees and run by a
    backtracking matcher that follows the order in which Python's [re]
    module explores alternatives. *)

From Stdlib Require Import String Ascii.
From stdpp Require Import base numbers option list sorting gmap.

Local Open Scope nat_scope.
#[local] Set Warnings "-clear-no-such-hyp".

(** ** Characters *)

(** The part of the Unicode character database that the program consults
    for code points outside ASCII.  For ASCII code points the
    classification is fixed below; the tables are never consulted
    there. *)
Record unicode := {
  (* [str.isspace], which is also [\s] *)
  u_space : N → bool;
  (* the value of a decimal digit ([str.isdecimal], which is also [\d]) *)
  u_decimal : N → option N;
  (* [str.isalnum] for the code points that are not decimal digits *)
  u_alnum : N → bool;
  (* the lower-case form used by [re.IGNORECASE], after the matcher's
     table of equivalent lower-case forms: U+0130 and U+0131 give [i],
     U+017F gives [s], U+212A gives [k] *)
  u_fold : N → N;
  (* [str.upper] of one code point *)
  u_upper : N → list N
}.

(** The code points of a string literal of this file (ASCII only). *)
Definition str (s : string) : list N :=
  N_of_ascii <$> list_ascii_of_string s.

Definition chr (a : ascii) : N := N_of_ascii a.

Definition is_ascii (c : N) : bool := (c <? 128)%N.
Definition in_range (lo hi : ascii) (c : N) : bool :=
  (chr lo <=? c)%N && (c <=? chr hi)%N.
Definition is_upper_az : N → bool := in_range "A" "Z".
Definition is_lower_az : N → bool := in_range "a" "z".
Definition is_09 : N → bool := in_range "0" "9".
Definition one_of (s : string) (c : N) : bool :=
  bool_decide (c ∈ str s).

Definition ascii_lower (c : N) : N := if is_upper_az c then (c + 32)%N else c.
Definition ascii_upper (c : N) : N := if is_lower_az c then (c - 32)%N else c.

Definition NL : N := 10.

Section Characters.
Variable U : unicode.

(** [\s]: for ASCII the characters tab, LF, VT, FF, CR, FS, GS, RS, US
    and space. *)
Definition is_space (c : N) : bool :=
  if is_ascii c
  then ((9 <=? c)%N && (c <=? 13)%N) || ((28 <=? c)%N && (c <=? 32)%N)
  else u_space U c.

(** The value of a decimal digit, as [float] reads it. *)
Definition digit_val (c : N) : option N :=
  if is_ascii c then (if is_09 c then Some (c - 48)%N else None)
  else u_decimal U c.

(** [\d] *)
Definition is_digit (c : N) : bool :=
  match digit_val c with Some _ => true | None => false end.

(** [\w]: alphanumeric or underscore. *)
Definition is_word (c : N) : bool :=
  if is_ascii c
  then is_upper_az c || is_lower_az c || is_09 c || (c =? chr "_")%N
  else u_alnum U c || is_digit c.

(** Lower-casing of the subject character under [re.IGNORECASE]. *)
Definition fold (c : N) : N :=
  if is_ascii c then ascii_lower c else u_fold U c.

(** A literal character of a pattern, with or without [re.IGNORECASE].
    Only letters are affected by the flag. *)
Definition lit (ic : bool) (a : ascii) (c : N) : bool :=
  if ic && (is_upper_az (chr a) || is_lower_az (chr a))
  then (fold c =? ascii_lower (chr a))%N
  else (c =? chr a)%N.

(** A character set that contains letters, under [re.IGNORECASE]: the
    lower-cased subject character or its upper-case form is in the
    set. *)
Definition icase (cs : N → bool) (c : N) : bool :=
  cs (fold c) || cs (ascii_upper (fold c)).

(** [str.upper] *)
Definition upper (s : list N) : list N :=
  s ≫= λ c, if is_ascii c then [ascii_upper c] else u_upper U c.
End Characters.

(** ** Regular expressions *)

(** The constructs that occur in the patterns of the source.  [Str ic w]
    is the word [w] written out in a pattern, [ic] telling whether
    [re.IGNORECASE] is set.  Every quantifier of the source applies to a
    single character or character set, which is what [Rep] repeats. *)
Inductive regex : Type :=
  | Eps
  | In (cs : N → bool)
  | Str (ic : bool) (w : string)
  | Seq (r1 r2 : regex)
  | Alt (r1 r2 : regex)
  | Rep (greedy : bool) (lo : nat) (hi : option nat) (cs : N → bool)
  | Bol
  | Wordb
  | NotAhead (r : regex)
  | Group (r : regex).

(** A position of the matcher in the subject and the span of capturing
    group 1, when it has been closed. *)
Record mstate := MState { pos : nat; grp : option (nat * nat) }.

Definition advance (st : mstate) (n : nat) : mstate :=
  MState (pos st + n) (grp st).

Fixpoint first_success {A B} (f : A → option B) (l : list A) : option B :=
  match l with
  | [] => None
  | x :: l' => match f x with Some y => Some y | None => first_success f l' end
  end.

(** The number of leading characters of [l] that are in [cs], at most
    [hi] of them. *)
Fixpoint run (cs : N → bool) (hi : option nat) (l : list N) : nat :=
  match hi, l with
  | Some 0, _ => 0
  | _, [] => 0
  | _, c :: l' => if cs c then S (run cs (pred <$> hi) l') else 0
  end.

(** The repetition counts that a quantifier tries, in order: a greedy one
    from the longest run down to [lo], a lazy one from [lo] up. *)
Definition counts (greedy : bool) (lo n : nat) : list nat :=
  if greedy then reverse (seq lo (S n - lo)) else seq lo (S n - lo).

Section Matcher.
Variable U : unicode.
Variable s : list N.

(** [\b]: exactly one of the characters before and after the position
    is a word character. *)
Definition word_at (i : nat) : bool :=
  match s !! i with Some c => is_word U c | None => false end.
Definition boundary (i : nat) : bool :=
  xorb (match i with 0 => false | S j => word_at j end) (word_at i).

(** The characters of the word [w] are at the head of [l]. *)
Fixpoint str_at (ic : bool) (w : list ascii) (l : list N) : bool :=
  match w, l with
  | [], _ => true
  | a :: w', c :: l' => lit U ic a c && str_at ic w' l'
  | _ :: _, [] => false
  end.

Fixpoint exec (r : regex) (st : mstate) (k : mstate → option mstate)
  : option mstate :=
  match r with
  | Eps => k st
  | In cs =>
      match s !! pos st with
      | Some c => if cs c then k (advance st 1) else None
      | None => None
      end
  | Str ic w =>
      if str_at ic (list_ascii_of_string w) (drop (pos st) s)
      then k (advance st (String.length w)) else None
  | Seq r1 r2 => exec r1 st (λ st', exec r2 st' k)
  | Alt r1 r2 =>
      match exec r1 st k with
      | Some res => Some res
      | None => exec r2 st k
      end
  | Rep greedy lo hi cs =>
      first_success (λ j, k (advance st j))
        (counts greedy lo (run cs hi (drop (pos st) s)))
  | Bol => if pos st =? 0 then k st else None
  | Wordb => if boundary (pos st) then k st else None
  | NotAhead r1 =>
      match exec r1 st Some with
      | Some _ => None
      | None => k st
      end
  | Group r1 =>
      exec r1 st (λ st', k (MState (pos st') (Some (pos st, pos st'))))
  end.

(** A match object: [m.start()], [m.end()] and the span of group 1. *)
Record rmatch := RMatch { m_start : nat; m_end : nat; m_grp : option (nat * nat) }.

Definition match_at (r : regex) (i : nat) : option rmatch :=
  (λ st, RMatch i (pos st) (grp st)) <$> exec r (MState i None) Some.

(** [re.search], from position [i0] on: the leftmost position with a
    match. *)
Definition search_from (r : regex) (i0 : nat) : option rmatch :=
  first_success (match_at r) (seq i0 (S (length s) - i0)).

Definition search (r : regex) : option rmatch := search_from r 0.

(** [re.match]: a match at position 0 only. *)
Definition rematch (r : regex) : option rmatch := match_at r 0.

(** [re.finditer]: the successive matches, each search resuming where
    the previous match ended (one further for an empty match).  The
    start positions increase, so [S (length s)] rounds suffice. *)
Fixpoint finditer_from (fuel : nat) (r : regex) (i0 : nat) : list rmatch :=
  match fuel with
  | 0 => []
  | S fuel' =>
      match search_from r i0 with
      | None => []
      | Some m =>
          m :: finditer_from fuel' r (Nat.max (m_end m) (S (m_start m)))
      end
  end.

Definition finditer (r : regex) : list rmatch :=
  finditer_from (S (length s)) r 0.
End Matcher.

(** ** Strings *)

(** [s[a:b]] for [0 ≤ a]; an end beyond the string is clipped. *)
Definition slice {A} (a b : nat) (l : list A) : list A := take (b - a) (drop a l).

Definition group0 (s : list N) (m : rmatch) : list N :=
  slice (m_start m) (m_end m) s.

(** [m.group(1)].  Group 1 is on every path of each pattern whose group
    the source reads, so the span is always there. *)
Definition group1 (s : list N) (m : rmatch) : list N :=
  match m_grp m with
  | Some (a, b) => slice a b s
  | None => []
  end.

Fixpoint starts_with (c l : list N) : bool :=
  match c, l with
  | [], _ => true
  | x :: c', y :: l' => (x =? y)%N && starts_with c' l'
  | _ :: _, [] => false
  end.

(** [l.find(c)]: the first index at which [c] occurs, [None] for -1. *)
Fixpoint find (c l : list N) : option nat :=
  if starts_with c l then Some 0
  else match l with
       | [] => None
       | _ :: l' => S <$> find c l'
       end.

(** Comparison of two [str]: lexicographic on code points. *)
Fixpoint str_leb (x y : list N) : bool :=
  match x, y with
  | [], _ => true
  | _ :: _, [] => false
  | a :: x', b :: y' => (a <? b)%N || ((a =? b)%N && str_leb x' y')
  end.

Definition str_le (x y : list N) : Prop := str_leb x y = true.
Definition str_lt (x y : list N) : Prop := str_le x y ∧ x ≠ y.

Global Instance str_le_dec x y : Decision (str_le x y).
Proof. unfold str_le. apply _. Defined.

(** [sep.join(l)] *)
Fixpoint join (sep : list N) (l : list (list N)) : list N :=
  match l with
  | [] => []
  | [x] => x
  | x :: l' => x ++ sep ++ join sep l'
  end.

(** [l.sort(key=len, reverse=True)]: a stable sort, longest first;
    strings of equal length keep their order. *)
Fixpoint insert_by_len (x : list N) (l : list (list N)) : list (list N) :=
  match l with
  | [] => [x]
  | y :: l' => if length x <? length y then y :: insert_by_len x l' else x :: l
  end.

Definition sort_by_len_desc (l : list (list N)) : list (list N) :=
  foldr insert_by_len [] l.

Section Strings.
Variable U : unicode.

(** [s.strip()] *)
Fixpoint lstrip (s : list N) : list N :=
  match s with
  | c :: s' => if is_space U c then lstrip s' else s
  | [] => []
  end.
Definition strip (s : list N) : list N := reverse (lstrip (reverse (lstrip s))).

(** [s.split()]: the maximal runs of characters that are not
    whitespace.  [w] is the run being read, reversed. *)
Fixpoint split_ws (w : list N) (s : list N) : list (list N) :=
  match s with
  | [] => if decide (w = []) then [] else [reverse w]
  | c :: s' =>
      if is_space U c
      then (if decide (w = []) then split_ws [] s' else reverse w :: split_ws [] s')
      else split_ws (c :: w) s'
  end.
Definition split (s : list N) : list (list N) := split_ws [] s.

(** [re.findall] for a pattern without groups. *)
Definition find_all (r : regex) (s : list N) : list (list N) :=
  group0 s <$> finditer U s r.
End Strings.

(** [s.replace(c, empty)]: every occurrence of the character [c] is
    removed. *)
Definition remove_char (c : N) (s : list N) : list N :=
  filter (λ x, x ≠ c) s.

(** ** Floating point *)

(** The values of [float] that the program can reach: the non-negative
    binary64 numbers [m * 2^e] and infinity.  No sign, exponent or NaN
    can be written with the characters that the patterns capture. *)
Inductive pyfloat := Finite (m : N) (e : Z) | Infinity.

(** [n / (d * 2^e)] as a fraction of naturals. *)
Definition scaled (n d : N) (e : Z) : N * N :=
  if (0 <=? e)%Z then (n, d * 2 ^ Z.to_N e)%N else (n * 2 ^ Z.to_N (- e), d)%N.

Definition round_half_even (num den : N) : N :=
  let q := (num / den)%N in
  let r := (num mod den)%N in
  if (den <? 2 * r)%N || ((2 * r =? den)%N && N.odd q) then (q + 1)%N else q.

(** The binary64 number nearest to [n / d], ties to even. *)
Definition round64 (n d : N) : pyfloat :=
  if (n =? 0)%N then Finite 0 0 else
  let lb := (Z.of_N (N.log2 n) - Z.of_N (N.log2 d))%Z in
  let fl := let '(num, den) := scaled n d lb in
            if (den <=? num)%N then lb else (lb - 1)%Z in
  let e := Z.max (fl - 52) (-1074) in
  let '(num, den) := scaled n d e in
  let m := round_half_even num den in
  if (971 <? e)%Z || ((e =? 971)%Z && (m =? 2 ^ 53)%N) then Infinity
  else Finite m e.

Definition fzero : pyfloat := Finite 0 0.

Definition fadd (a b : pyfloat) : pyfloat :=
  match a, b with
  | Finite m1 e1, Finite m2 e2 =>
      let e := Z.min e1 e2 in
      let n := (m1 * 2 ^ Z.to_N (e1 - e) + m2 * 2 ^ Z.to_N (e2 - e))%N in
      if (0 <=? e)%Z then round64 (n * 2 ^ Z.to_N e) 1
      else round64 n (2 ^ Z.to_N (- e))
  | _, _ => Infinity
  end.

(** [x > 0] *)
Definition fpos (x : pyfloat) : bool :=
  match x with Finite m _ => (0 <? m)%N | Infinity => true end.

Fixpoint uint_digits (d : Decimal.uint) : list N :=
  match d with
  | Decimal.Nil => []
  | Decimal.D0 d' => 48%N :: uint_digits d'
  | Decimal.D1 d' => 49%N :: uint_digits d'
  | Decimal.D2 d' => 50%N :: uint_digits d'
  | Decimal.D3 d' => 51%N :: uint_digits d'
  | Decimal.D4 d' => 52%N :: uint_digits d'
  | Decimal.D5 d' => 53%N :: uint_digits d'
  | Decimal.D6 d' => 54%N :: uint_digits d'
  | Decimal.D7 d' => 55%N :: uint_digits d'
  | Decimal.D8 d' => 56%N :: uint_digits d'
  | Decimal.D9 d' => 57%N :: uint_digits d'
  end.

(** [f"{x:.pf}"] for [p > 0]: the exact value rounded to [p] decimals,
    ties to even. *)
Definition format_f (p : nat) (x : pyfloat) : list N :=
  match x with
  | Infinity => str "inf"
  | Finite m e =>
      let '(num, den) := scaled (m * 10 ^ N.of_nat p) 1 (- e) in
      let ds := uint_digits (N.to_uint (round_half_even num den)) in
      let ds := replicate (S p - length ds) 48%N ++ ds in
      take (length ds - p) ds ++ str "." ++ drop (length ds - p) ds
  end.

(** The part of [val] before its first full stop. *)
Fixpoint before_dot (val : list N) : list N :=
  match val with
  | [] => []
  | c :: val' => if (c =? chr ".")%N then [] else c :: before_dot val'
  end.

Section Float.
Variable U : unicode.

Fixpoint digits_val (acc : N) (ds : list N) : option N :=
  match ds with
  | [] => Some acc
  | c :: ds' =>
      match digit_val U c with
      | Some v => digits_val (10 * acc + v) ds'
      | None => None
      end
  end.

(** [float(val)] for a [val] made of decimal digits and full stops, which
    is all that the patterns capture once the commas are removed: at
    most one full stop and at least one digit, otherwise [ValueError]
    ([None]). *)
Definition float_of (val : list N) : option pyfloat :=
  let ip := before_dot val in
  let fp := drop (S (length ip)) val in
  if decide (ip ++ fp = []) then None
  else (λ n, round64 n (10 ^ N.of_nat (length fp))) <$> digits_val 0 (ip ++ fp).
End Float.

(** ** The program *)

Definition COLUMNS : list string := [
  "Customer Order Number";
  "Número de B/L";
  "Contenedores (uno por línea)";
  "Producto";
  "Toneladas Netas (kg)";
  "Precio Final (USD)";
  "Número de Factura"
]%string.

(** The result of a function that can end in an [AttributeError]. *)
Inductive outcome (A : Type) : Type :=
  | Returns (a : A)
  | AttributeError.
Arguments Returns {A} a.
Arguments AttributeError {A}.

Definition seqs (l : list regex) : regex := foldr Seq Eps l.
Definition star (cs : N → bool) : regex := Rep true 0 None cs.
Definition plus (cs : N → bool) : regex := Rep true 1 None cs.
Definition opt (cs : N → bool) : regex := Rep true 0 (Some 1) cs.
Definition is_some {A} (o : option A) : bool :=
  match o with Some _ => true | None => false end.

Section Parsers.
Variable U : unicode.

#[local] Abbreviation sp := (is_space U).
#[local] Abbreviation dg := (is_digit U).

(** [(?:^|\n)] *)
Definition bol_or_nl : regex := Alt Bol (In (λ c, c =? NL)%N).
(** [[^\n]] *)
Definition not_nl (c : N) : bool := negb (c =? NL)%N.
(** [[\d\.,]] *)
Definition num_char (c : N) : bool := dg c || one_of ".," c.
(** [[A-Z0-9]] *)
Definition upper_or_digit (c : N) : bool := is_upper_az c || is_09 c.
(** [[A-Za-z0-9\-\/]] *)
Definition order_char (c : N) : bool :=
  is_upper_az c || is_lower_az c || is_09 c || one_of "-/" c.

(** *** parse_invoice_number *)

(** [(?:^|\n)\s*Invoice\s+(\d{6,})\b], IGNORECASE *)
Definition re_invoice_line : regex :=
  seqs [bol_or_nl; star sp; Str true "Invoice"; plus sp;
        Group (Rep true 6 None dg); Wordb].

(** [Invoice\s*[:#]?\s*(\d{6,})\b], IGNORECASE *)
Definition re_invoice_any : regex :=
  seqs [Str true "Invoice"; star sp; opt (one_of ":#"); star sp;
        Group (Rep true 6 None dg); Wordb].

Definition parse_invoice_number (text : list N) : list N :=
  match search U text re_invoice_line with
  | Some m => group1 text m
  | None =>
      match search U text re_invoice_any with
      | Some m => group1 text m
      | None => []
      end
  end.

(** *** parse_customer_order *)

(** [\bCE-\d{4}-\d{2}\b] *)
Definition re_ce : regex :=
  seqs [Wordb; Str false "CE-"; Rep true 4 (Some 4) dg; Str false "-";
        Rep true 2 (Some 2) dg; Wordb].

(** [Customer\s+Order\s+Number\s*[:#]?\s*([A-Za-z0-9\-\/]+)],
    IGNORECASE *)
Definition re_order_label : regex :=
  seqs [Str true "Customer"; plus sp; Str true "Order"; plus sp;
        Str true "Number"; star sp; opt (one_of ":#"); star sp;
        Group (plus (icase U order_char))].

(** [[A-Za-z0-9\-\/]+], without flags *)
Definition re_order_run : regex := plus order_char.

Definition parse_customer_order (text : list N) : outcome (list N) :=
  match search U text re_ce with
  | Some m => Returns (group0 text m)
  | None =>
      match search U text re_order_label with
      | Some m =>
          let val := group1 text m in
          match search U val re_ce with
          | Some m2 => Returns (group0 val m2)
          | None =>
              (* re.match(...).group(0): no match is None, which has no
                 attribute group *)
              match rematch U val re_order_run with
              | Some m3 => Returns (group0 val m3)
              | None => AttributeError
              end
          end
      | None => Returns []
      end
  end.

(** *** parse_bl_number *)

(** [(?:^|\n)\s*(?:BILL\s+OF\s+LADING\s+No\.?|B\/?L\s*No\.?)\s*[:#]?\s*([A-Z0-9]{8,20})],
    IGNORECASE *)
Definition re_bl_label : regex :=
  seqs [bol_or_nl; star sp;
        Alt (seqs [Str true "BILL"; plus sp; Str true "OF"; plus sp;
                   Str true "LADING"; plus sp; Str true "No";
                   opt (one_of ".")])
            (seqs [Str true "B"; opt (one_of "/"); Str true "L"; star sp;
                   Str true "No"; opt (one_of ".")]);
        star sp; opt (one_of ":#"); star sp;
        Group (Rep true 8 (Some 20) (icase U upper_or_digit))].

(** [\d] *)
Definition re_digit : regex := In dg.

(** [\b(?!EBKG)[A-Z]{3,6}[A-Z0-9]{6,12}\b] *)
Definition re_token : regex :=
  seqs [Wordb; NotAhead (Str false "EBKG"); Rep true 3 (Some 6) is_upper_az;
        Rep true 6 (Some 12) upper_or_digit; Wordb].

(** [BOOKING\s+REF], IGNORECASE *)
Definition re_booking : regex :=
  seqs [Str true "BOOKING"; plus sp; Str true "REF"].

(** [re.search(r"\d", c)] as a condition *)
Definition has_digit (c : list N) : bool := is_some (search U c re_digit).

(** [re.search(r"BOOKING\s+REF", near, flags=re.IGNORECASE)] as a
    condition *)
Definition near_booking (near : list N) : bool :=
  is_some (search U near re_booking).

(** Tier 1: the explicit label. *)
Definition bl_label (text : list N) : option (list N) :=
  match search U text re_bl_label with
  | Some m => if has_digit (group1 text m) then Some (group1 text m) else None
  | None => None
  end.

(** The neighbourhood of candidate [c] that tier 2 inspects: 40
    characters on each side of the first place where the string [c]
    occurs in the window.  ([find] cannot fail here; for -1 the slice
    would be [window[0 : len(c) + 39]].) *)
Definition bl_near (window c : list N) : list N :=
  match find c window with
  | Some pos => slice (Nat.max 0 (pos - 40)) (pos + length c + 40) window
  | None => slice 0 (length c + 39) window
  end.

(** The list [filtered] of tier 2 for one window. *)
Definition bl_filtered (window : list N) : list (list N) :=
  let candidates := find_all U re_token window in
  let candidates := filter (λ c, has_digit c) candidates in
  filter (λ c, ¬ near_booking (bl_near window c)) candidates.

Definition bl_window (text : list N) (km : rmatch) : list N :=
  let start := Nat.max 0 (m_start km - 300) in
  let end_ := Nat.min (length text) (m_end km + 300) in
  slice start end_ text.

Definition bl_keywords : list string :=
  ["BILL OF LADING"; "RIDER PAGE"; "BILL OF LADING No"; "RIDER"]%string.

(** Tier 2: the first anchor occurrence, keyword by keyword, whose
    window leaves a candidate; the longest candidate of that window. *)
Definition bl_proximity (text : list N) : option (list N) :=
  first_success (λ kw,
    first_success (λ km,
      head (sort_by_len_desc (bl_filtered (bl_window text km))))
      (finditer U text (Str true kw)))
    bl_keywords.

(** Tier 3: the first token of the text that passes both tests. *)
Definition bl_global (text : list N) : option (list N) :=
  first_success (λ m,
    let token := group0 text m in
    if negb (has_digit token) then None
    else
      let near := slice (Nat.max 0 (m_start m - 40)) (m_end m + 40) text in
      if near_booking near then None else Some token)
    (finditer U text re_token).

Definition parse_bl_number (text : list N) : list N :=
  match bl_label text with
  | Some bl => bl
  | None =>
      match bl_proximity text with
      | Some bl => bl
      | None =>
          match bl_global text with
          | Some bl => bl
          | None => []
          end
      end
  end.

(** *** parse_containers *)

(** [\b[A-Z]{4}\d{7}\b] *)
Definition re_container : regex :=
  seqs [Wordb; Rep true 4 (Some 4) is_upper_az; Rep true 7 (Some 7) dg; Wordb].

(** [sorted(conts)] of a set of strings. *)
Definition sorted (conts : gset (list N)) : list (list N) :=
  merge_sort str_le (elements conts).

Definition parse_containers (text : list N) : list (list N) :=
  let conts : gset (list N) := list_to_set (find_all U re_container text) in
  sorted conts.

(** *** parse_product *)

(** [(AGILITY[^\n]{0,120}?LDPE)], IGNORECASE *)
Definition re_product : regex :=
  Group (seqs [Str true "AGILITY"; Rep false 0 (Some 120) not_nl;
               Str true "LDPE"]).

(** The trade mark sign, U+2122. *)
Definition TM : N := 8482.

(** What [parse_product] does to the matched span. *)
Definition clean_product (product : list N) : list N :=
  let product := strip U (remove_char TM product) in
  let product := join (str " ") (split U product) in
  upper U product.

Definition parse_product (text : list N) : list N :=
  match search U text re_product with
  | Some m => clean_product (group1 text m)
  | None => []
  end.

(** *** parse_total_net_weight *)

(** [TOTAL\s+NET\s+WEIGHT\s*[:#]?\s*([\d\.,]+)\s*KG], IGNORECASE *)
Definition re_total_net : regex :=
  seqs [Str true "TOTAL"; plus sp; Str true "NET"; plus sp;
        Str true "WEIGHT"; star sp; opt (one_of ":#"); star sp;
        Group (plus num_char); star sp; Str true "KG"].

(** [\b([A-Z]{4}\d{7})\b] *)
Definition re_container_g : regex :=
  seqs [Wordb;
        Group (seqs [Rep true 4 (Some 4) is_upper_az; Rep true 7 (Some 7) dg]);
        Wordb].

(** [Item\s+Net\s+Weight\s*:\s*([\d\.,]+)\s*KG], IGNORECASE *)
Definition re_item_net : regex :=
  seqs [Str true "Item"; plus sp; Str true "Net"; plus sp;
        Str true "Weight"; star sp; Str false ":"; star sp;
        Group (plus num_char); star sp; Str true "KG"].

(** The number that a match captured, with the commas removed, as a
    float; [None] when [float] raises. *)
Definition captured_float (s : list N) (m : rmatch) : option pyfloat :=
  let val := remove_char (chr ",") (group1 s m) in
  float_of U val.

(** The preferred strategy; [None] when control reaches the
    fallback. *)
Definition net_weight_label (text : list N) : option (list N) :=
  match search U text re_total_net with
  | Some m => format_f 3 <$> captured_float text m
  | None => None
  end.

(** The weight found around one occurrence [cm] of a container code:
    [None] when nothing is added for it. *)
Definition item_weight (text : list N) (cm : rmatch) : option pyfloat :=
  let start := Nat.max 0 (m_start cm - 400) in
  let end_ := Nat.min (length text) (m_end cm + 400) in
  let window := slice start end_ text in
  match search U window re_item_net with
  | Some m2 => captured_float window m2
  | None => None
  end.

(** One round of the loop over the container codes, on the variables
    [total] and [seen]. *)
Definition weight_step (text : list N) (st : pyfloat * gset (list N))
    (cm : rmatch) : pyfloat * gset (list N) :=
  let '(total, seen) := st in
  let code := group1 text cm in
  if decide (code ∈ seen) then st
  else
    match item_weight text cm with
    | Some x => (fadd total x, {[code]} ∪ seen)
    | None => st
    end.

Definition weight_loop (text : list N) : pyfloat * gset (list N) :=
  foldl (weight_step text) (fzero, ∅) (finditer U text re_container_g).

Definition parse_total_net_weight (text : list N) : list N :=
  match net_weight_label text with
  | Some r => r
  | None =>
      let total := (weight_loop text).1 in
      if fpos total then format_f 3 total else []
  end.

(** *** parse_total_amount *)

(** [(?:^|\n)\s*Total\s+([\d\.,]{2,})\b(?![^\n]{0,40}\b(KG|CD3|WEIGHT|VOLUME)\b)],
    IGNORECASE.  The second group is inside the lookahead and is never
    read. *)
Definition re_total_line : regex :=
  seqs [bol_or_nl; star sp; Str true "Total"; plus sp;
        Group (Rep true 2 None num_char); Wordb;
        NotAhead (seqs [Rep true 0 (Some 40) not_nl; Wordb;
                        Alt (Str true "KG")
                          (Alt (Str true "CD3")
                             (Alt (Str true "WEIGHT") (Str true "VOLUME")));
                        Wordb])].

(** [Total\s+([\d\.,]{2,})], IGNORECASE *)
Definition re_total_any : regex :=
  seqs [Str true "Total"; plus sp; Group (Rep true 2 None num_char)].

(** One of the two attempts: [None] when control goes on. *)
Definition total_by (r : regex) (text : list N) : option (list N) :=
  match search U text r with
  | Some m => format_f 2 <$> captured_float text m
  | None => None
  end.

Definition parse_total_amount (text : list N) : list N :=
  match total_by re_total_line text with
  | Some r => r
  | None =>
      match total_by re_total_any text with
      | Some r => r
      | None => []
      end
  end.

(** *** parse_pdf *)

Definition parse_pdf (text : list N) : outcome (list (string * list N)) :=
  match parse_customer_order text with
  | AttributeError => AttributeError
  | Returns customer_order =>
      let bl := parse_bl_number text in
      let containers := parse_containers text in
      let product := parse_product text in
      let net_kg := parse_total_net_weight text in
      let total_amount := parse_total_amount text in
      let invoice := parse_invoice_number text in
      Returns [
        ("Customer Order Number", customer_order);
        ("Número de B/L", bl);
        ("Contenedores (uno por línea)", join [NL] containers);
        ("Producto", product);
        ("Toneladas Netas (kg)", net_kg);
        ("Precio Final (USD)", total_amount);
        ("Número de Factura", invoice)
      ]%string
  end.
End Parsers.

(** The tables of a database without any character outside ASCII. *)
Definition ascii_only : unicode :=
  {| u_space := λ _, false; u_decimal := λ _, None; u_alnum := λ _, false;
     u_fold := λ c, c; u_upper := λ c, [c] |}.


(** ** What a pattern matches *)

(** The matcher reads the string [v] between two states. *)
Definition reads (s : list N) (st : mstate) (v : list N) (st' : mstate) : Prop :=
  (∃ rest, drop (pos st) s = v ++ rest) ∧ st' = advance st (length v).

(** [n] is within the upper bound of a quantifier. *)
Definition within (n : nat) (hi : option nat) : Prop :=
  match hi with Some h => n ≤ h | None => True end.

(** The string [v] is the word [w], up to case when [ic] is set. *)
Definition same_word (U : unicode) (ic : bool) (w : string) (v : list N) : Prop :=
  Forall2 (λ a c, lit U ic a c = true) (list_ascii_of_string w) v.

(** All characters of [v] are in the set [cs]. *)
Definition all_in (cs : N → bool) (v : list N) : Prop :=
  Forall (λ c, cs c = true) v.

(** A description of the matcher that does not depend on the order of
    exploration: [matches U s r st st'] when pattern [r] can take the
    matcher from state [st] to state [st'] on subject [s]. *)
Fixpoint matches (U : unicode) (s : list N) (r : regex) (st st' : mstate) : Prop :=
  match r with
  | Eps => st' = st
  | In cs => ∃ c, cs c = true ∧ reads s st [c] st'
  | Str ic w => ∃ v, same_word U ic w v ∧ reads s st v st'
  | Seq r1 r2 => ∃ m, matches U s r1 st m ∧ matches U s r2 m st'
  | Alt r1 r2 => matches U s r1 st st' ∨ matches U s r2 st st'
  | Rep _ lo hi cs =>
      ∃ v, all_in cs v ∧ lo ≤ length v ∧ within (length v) hi ∧ reads s st v st'
  | Bol => pos st = 0 ∧ st' = st
  | Wordb => boundary U s (pos st) = true ∧ st' = st
  | NotAhead r1 => (∀ m, ¬ matches U s r1 st m) ∧ st' = st
  | Group r1 =>
      ∃ m, matches U s r1 st m ∧ st' = MState (pos m) (Some (pos st, pos m))
  end.


(** ** The notions of the specification *)

(** The string [w] is in [text] at position [i]. *)
Definition occurs_at (text w : list N) (i : nat) : Prop :=
  ∃ pre post, text = pre ++ w ++ post ∧ length pre = i.

(** The pieces of a string between the occurrences of [sep], as
    [s.split(sep)] gives them; [cur] is the piece being read,
    reversed. *)
Fixpoint split_on (sep : N) (cur : list N) (s : list N) : list (list N) :=
  match s with
  | [] => [reverse cur]
  | c :: s' =>
      if (c =? sep)%N then reverse cur :: split_on sep [] s'
      else split_on sep (c :: cur) s'
  end.

(** The lines of a string; the empty string has none. *)
Definition lines (s : list N) : list (list N) :=
  if decide (s = []) then [] else split_on NL [] s.

(** Four upper-case letters followed by seven digits. *)
Definition is_container_code (U : unicode) (w : list N) : Prop :=
  ∃ ls ds, w = ls ++ ds ∧ length ls = 4 ∧ length ds = 7 ∧
           all_in is_upper_az ls ∧ all_in (is_digit U) ds.

(** The string ends, or begins, with a word character. *)
Definition ends_word (U : unicode) (l : list N) : bool :=
  match last l with Some c => is_word U c | None => false end.
Definition starts_word (U : unicode) (l : list N) : bool :=
  match head l with Some c => is_word U c | None => false end.

(** The string [w] is in [text] at position [i], with no word character
    right before it and none right after it. *)
Definition delimited (U : unicode) (text w : list N) (i : nat) : Prop :=
  ∃ pre post, text = pre ++ w ++ post ∧ length pre = i ∧
              ends_word U pre = false ∧ starts_word U post = false.

(** The canonical shape of an order number: CE, a hyphen, four digits, a
    hyphen, two digits. *)
Definition is_order_number (U : unicode) (w : list N) : Prop :=
  ∃ d4 d2, w = str "CE-" ++ d4 ++ str "-" ++ d2 ∧
           length d4 = 4 ∧ length d2 = 2 ∧
           all_in (is_digit U) d4 ∧ all_in (is_digit U) d2.

(** A line of the text that starts at position [i] and reads, after
    optional white space, the word Invoice in any case, white space, and
    the digits [ds], at least six of them, with no word character right
    after them. *)
Definition invoice_line (U : unicode) (text : list N) (i : nat) (ds : list N) : Prop :=
  ∃ pre ws0 kw ws1 post,
    text = pre ++ ws0 ++ kw ++ ws1 ++ ds ++ post ∧ length pre = i ∧
    (pre = [] ∨ last pre = Some NL) ∧
    all_in (is_space U) ws0 ∧ same_word U true "Invoice" kw ∧
    all_in (is_space U) ws1 ∧ ws1 ≠ [] ∧
    all_in (is_digit U) ds ∧ 6 ≤ length ds ∧ starts_word U post = false.

(** A span that starts with AGILITY and ends with LDPE, in any case, with
    at most 120 characters in between, none of them a line break. *)
Definition is_product_span (U : unicode) (w : list N) : Prop :=
  ∃ a mid l, w = a ++ mid ++ l ∧
             same_word U true "AGILITY" a ∧ same_word U true "LDPE" l ∧
             length mid ≤ 120 ∧ all_in not_nl mid.

(** The phrase BOOKING REF is somewhere in [near]: the two words in any
    case, with white space between them. *)
Definition has_booking_ref (U : unicode) (near : list N) : Prop :=
  ∃ i kw ws r, occurs_at near (kw ++ ws ++ r) i ∧
               same_word U true "BOOKING" kw ∧
               all_in (is_space U) ws ∧ ws ≠ [] ∧
               same_word U true "REF" r.

(** Position [i] is the first one at which [c] occurs in [l]. *)
Definition first_occurrence (l c : list N) (i : nat) : Prop :=
  occurs_at l c i ∧ ∀ j, j < i → ¬ occurs_at l c j.

(** The shape of the tokens that tiers 2 and 3 of [parse_bl_number]
    consider: three to six upper-case letters followed by six to twelve
    upper-case letters or digits. *)
Definition is_bl_token (w : list N) : Prop :=
  ∃ ls rs, w = ls ++ rs ∧ 3 ≤ length ls ≤ 6 ∧ 6 ≤ length rs ≤ 12 ∧
           all_in is_upper_az ls ∧ all_in upper_or_digit rs.


(** A database whose only character outside ASCII is the Kelvin sign,
    U+212A: a letter, which [re.IGNORECASE] takes for a [k]. *)
Definition KELVIN : N := 8490.
Definition kelvin_sign : unicode :=
  {| u_space := λ _, false; u_decimal := λ _, None;
     u_alnum := λ c, (c =? KELVIN)%N;
     u_fold := λ c, if (c =? KELVIN)%N then chr "k" else c;
     u_upper := λ c, [c] |}.

(** The cleaning of the product in the words of the specification:
    white space at either end is dropped and every other run of white
    space becomes a single space.  The state tells whether a word has
    been met, and whether white space has been met since. *)
Inductive collapse_state := AtStart | InWord | InGap.

Fixpoint collapse (U : unicode) (st : collapse_state) (s : list N) : list N :=
  match s with
  | [] => []
  | c :: s' =>
      if is_space U c
      then collapse U (match st with AtStart => AtStart | _ => InGap end) s'
      else match st with
           | InGap => chr " " :: c :: collapse U InWord s'
           | _ => c :: collapse U InWord s'
           end
  end.

Definition collapse_spaces (U : unicode) (s : list N) : list N :=
  collapse U AtStart s.
(** * The rest of the program

    The helper [find_first], the text of the pages, the ledger and the
    run of [main], with the notions that their properties need. *)

(** The decimal numerals of the Standard Library and their values. *)
From Stdlib Require DecimalN.


(** ** The helper [find_first] *)

(** The pattern has a capturing group; [m.group(1)] raises [IndexError]
    on a match of a pattern that has none.  [Group] is group 1 of a
    pattern, as in all the patterns of the program. *)
Fixpoint has_group (r : regex) : bool :=
  match r with
  | Group _ => true
  | Seq r1 r2 | Alt r1 r2 => has_group r1 || has_group r2
  | NotAhead r1 => has_group r1
  | _ => false
  end.

(** What [find_first] does: it returns a string, or [m.group(1)] raises
    [IndexError], or the group is [None] and [.strip()] raises
    [AttributeError]. *)
Inductive found :=
  | Found (s : list N)
  | NoSuchGroup
  | GroupIsNone.

Definition find_first (U : unicode) (r : regex) (text : list N) : found :=
  match search U text r with
  | Some m =>
      if has_group r
      then match m_grp m with
           | Some (a, b) => Found (strip U (slice a b text))
           | None => GroupIsNone
           end
      else NoSuchGroup
  | None => Found []
  end.

(** ** extract_text *)

(** What a page of the reader gives to [page.extract_text()]: a text,
    [None], or an exception.  The reader and its pages are outside the
    program. *)
Inductive page :=
  | PageText (t : list N)
  | PageNone
  | PageRaises.

(** One round of the loop over the pages. *)
Definition add_page (text : list N) (p : page) : list N :=
  match p with
  | PageText page_text => text ++ (page_text ++ [NL])
  | PageNone => text ++ ([] ++ [NL])
  | PageRaises => text
  end.

Definition extract_text (pages : list page) : list N :=
  foldl add_page [] pages.

(** ** append_to_excel *)

(** A column label of a data frame: a string, or a number when the
    header cell of the sheet holds one. *)
Inductive label :=
  | Name (s : string)
  | Number (z : Z).

Global Instance label_eq_dec : EqDecision label.
Proof. intros x y. unfold Decision. repeat decide equality. Defined.

(** A cell of a data frame: a string, the missing value, or a number
    (a value of another kind is carried along in the same way: the
    program never looks into the cells that it reads). *)
Inductive cell :=
  | Text (s : list N)
  | NaN
  | Value (z : Z).

(** A data frame: the labels of its columns, which are distinct, and its
    rows, each with one cell per column. *)
Record frame := Frame { columns : list label; rows : list (list cell) }.

Definition well_formed (df : frame) : Prop :=
  NoDup (columns df) ∧ Forall (λ r, length r = length (columns df)) (rows df).

(** The position of a label among the columns. *)
Fixpoint col_index (c : label) (cols : list label) : option nat :=
  match cols with
  | [] => None
  | x :: cols' => if decide (x = c) then Some 0 else S <$> col_index c cols'
  end.

(** The cell of row [r] in column [c]; a frame has one for each of its
    columns. *)
Definition cell_at (cols : list label) (r : list cell) (c : label) : cell :=
  match col_index c cols with
  | Some i => default NaN (r !! i)
  | None => NaN
  end.

(** [df[c] = v] for a label that is not a column yet: a new last column
    with [v] in every row. *)
Definition add_column (c : label) (v : cell) (df : frame) : frame :=
  Frame (columns df ++ [c]) ((λ r, r ++ [v]) <$> rows df).

(** The loop over [COLUMNS]: each missing column is added, with the
    empty string. *)
Definition add_missing (df : frame) : frame :=
  foldl (λ df c, if decide (Name c ∈ columns df) then df
                 else add_column (Name c) (Text []) df)
        df COLUMNS.

(** [df[cs]]: the columns [cs] in that order; [KeyError] ([None]) when
    one of them is missing. *)
Definition select (cs : list label) (df : frame) : option frame :=
  if decide (Forall (λ c, c ∈ columns df) cs)
  then Some (Frame cs ((λ r, cell_at (columns df) r <$> cs) <$> rows df))
  else None.

(** [d.get(k)] on a dict given as its items. *)
Fixpoint dict_get {A} (k : string) (d : list (string * A)) : option A :=
  match d with
  | [] => None
  | (k', v) :: d' => if String.eqb k' k then Some v else dict_get k d'
  end.

(** The row that [pd.DataFrame([row_dict])] holds, seen through the
    columns [cols]: the missing value where the dict has no such key. *)
Definition dict_row (row_dict : list (string * list N)) (cols : list label)
  : list cell :=
  (λ c, match c with
        | Name k => match dict_get k row_dict with
                    | Some v => Text v
                    | None => NaN
                    end
        | Number _ => NaN
        end) <$> cols.

(** [pd.concat([df, pd.DataFrame([row_dict])], ignore_index=True)]: the
    columns of [df] followed by the keys that are not among them; the
    old rows get the missing value in the new columns. *)
Definition concat_row (df : frame) (row_dict : list (string * list N)) : frame :=
  let new := filter (λ k, k ∉ columns df) (Name <$> row_dict.*1) in
  let cols := columns df ++ new in
  Frame cols (((λ r, r ++ replicate (length new) NaN) <$> rows df)
              ++ [dict_row row_dict cols]).

Section Ledger.
(** The sheet of a workbook as the file holds it, and the two functions
    of pandas that read and write it. *)
Variable sheet : Type.
Variable read_excel : sheet → frame.
Variable to_excel : frame → sheet.

(** The frame that is written when there is no file yet. *)
Definition new_master : frame := Frame (Name <$> COLUMNS) [].

(** [master] is the file, [None] when it does not exist.  The result is
    the file after the call, [None] for a [KeyError]. *)
Definition append_to_excel (row_dict : list (string * list N))
    (master : option sheet) : option sheet :=
  let master :=
    match master with
    | Some sh => sh
    | None => to_excel new_master
    end in
  let df := read_excel master in
  let df := add_missing df in
  match select (Name <$> COLUMNS) df with
  | Some df => Some (to_excel (concat_row df row_dict))
  | None => None
  end.

(** ** main *)

(** How a run ends: [sys.exit(1)] after one of the two messages, an
    exception that nothing catches, or the message of success, with the
    file as it is then. *)
Inductive ending :=
  | ExitUsage
  | ExitNoFile (pdf_path : string)
  | Uncaught
  | Done (master : sheet).

(** [argv] is [sys.argv]; [path_exists] is [os.path.exists];
    [pages_of path] are the pages that the reader gives for the file,
    [None] when opening or reading it raises; [master] is the file of
    the ledger. *)
Definition main (U : unicode) (argv : list string)
    (path_exists : string → bool) (pages_of : string → option (list page))
    (master : option sheet) : ending :=
  match argv !! 1 with
  | None => ExitUsage
  | Some pdf_path =>
      if negb (path_exists pdf_path) then ExitNoFile pdf_path
      else
        match pages_of pdf_path with
        | None => Uncaught
        | Some pages =>
            let text := extract_text pages in
            match parse_pdf U text with
            | AttributeError => Uncaught
            | Returns row =>
                match append_to_excel row master with
                | Some master' => Done master'
                | None => Uncaught
                end
            end
        end
  end.
End Ledger.

(** ** The shape of a formatted number *)

(** A number written with [p] decimals: ASCII digits, at least one,
    a full stop, and [p] ASCII digits. *)
Definition fixed_point (p : nat) (r : list N) : Prop :=
  ∃ w f, r = w ++ str "." ++ f ∧ w ≠ [] ∧ length f = p ∧
         all_in is_09 (w ++ f).
(** ** Facts about the matcher *)

(** Goals about the characters of a given string. *)
Ltac by_chars := unfold all_in, same_word; simpl; repeat constructor.

Lemma first_success_Some {A B} (f : A → option B) l y :
  first_success f l = Some y →
  ∃ l1 x l2, l = l1 ++ x :: l2 ∧ f x = Some y ∧ ∀ z, z ∈ l1 → f z = None.
Proof.
  induction l as [|a l IH]; simpl; [done|].
  destruct (f a) eqn:Ha.
  - intros [= ->]. exists [], a, l. split_and!; [done..|]. intros z Hz. inversion Hz.
  - intros (l1 & x & l2 & -> & Hx & Hl1)%IH.
    exists (a :: l1), x, l2. split_and!; [done..|].
    intros z [->|Hz]%elem_of_cons; auto.
Qed.

Lemma first_success_None {A B} (f : A → option B) l :
  first_success f l = None ↔ ∀ x, x ∈ l → f x = None.
Proof.
  induction l as [|a l IH]; simpl.
  - split; [|done]. intros _ x Hx. inversion Hx.
  - destruct (f a) eqn:Ha.
    + split; [done|]. intros H. rewrite <-Ha. apply H. left.
    + rewrite IH. split.
      * intros H x [->|Hx]%elem_of_cons; auto.
      * intros H x Hx. apply H. by right.
Qed.

Lemma first_success_is_Some {A B} (f : A → option B) l :
  is_Some (first_success f l) ↔ ∃ x, x ∈ l ∧ is_Some (f x).
Proof.
  split.
  - intros [y (l1 & x & l2 & -> & Hx & _)%first_success_Some].
    exists x. split; [set_solver|by eexists].
  - intros (x & Hx & Hfx). destruct (first_success f l) eqn:E; [by eexists|].
    rewrite first_success_None in E. rewrite (E x Hx) in Hfx. by destruct Hfx.
Qed.

Lemma elem_of_counts g lo n j : j ∈ counts g lo n ↔ lo ≤ j ≤ n.
Proof.
  unfold counts. destruct g; rewrite ?elem_of_reverse, elem_of_seq; lia.
Qed.

Lemma run_spec cs hi l n :
  n ≤ run cs hi l ↔
  ∃ v rest, l = v ++ rest ∧ length v = n ∧ all_in cs v ∧ within n hi.
Proof.
  unfold all_in. revert hi n. induction l as [|c l IH]; intros hi n.
  - assert (run cs hi [] = 0) as -> by (by destruct hi as [[|?]|]).
    split.
    + intros Hn. exists [], []. assert (n = 0) as -> by lia.
      split_and!; [done..|]. destruct hi; simpl; lia.
    + intros (v & rest & Hl & <- & _). symmetry in Hl.
      apply app_eq_nil in Hl as [-> _]. done.
  - destruct n as [|n].
    { split; [|lia]. intros _. exists [], (c :: l).
      split_and!; [done..|]. destruct hi; simpl; lia. }
    split.
    + intros Hn.
      assert (cs c = true ∧ S n ≤ S (run cs (pred <$> hi) l) ∧ hi ≠ Some 0)
        as (Hc & Hr & Hhi).
      { destruct hi as [[|h]|]; simpl in *; try lia;
          destruct (cs c); try lia; done. }
      apply le_S_n, IH in Hr as (v & rest & -> & <- & Hv & Hw).
      exists (c :: v), rest. split_and!; [done|done|by constructor|].
      destruct hi as [[|h]|]; simpl in *; try done; lia.
    + intros (v & rest & Hl & Hlen & Hv & Hw).
      destruct v as [|c' v]; [done|]. simplify_eq/=.
      apply Forall_cons in Hv as [Hc Hv].
      assert (length v ≤ run cs (pred <$> hi) (v ++ rest)) as Hr.
      { apply IH. exists v, rest. split_and!; [done..|].
        destruct hi as [[|h]|]; simpl in *; try done; lia. }
      destruct hi as [[|h]|]; simpl in *; try lia; rewrite Hc; lia.
Qed.

Lemma str_at_spec U ic w l :
  str_at U ic w l = true ↔
  ∃ v rest, l = v ++ rest ∧ Forall2 (λ a c, lit U ic a c = true) w v.
Proof.
  revert l. induction w as [|a w IH]; intros l; simpl.
  - split; [|done]. intros _. exists [], l. split; [done|constructor].
  - destruct l as [|c l].
    + split; [done|]. intros (v & rest & Hl & Hv).
      apply Forall2_cons_inv_l in Hv as (c & v' & _ & _ & ->). done.
    + rewrite andb_true_iff, IH. split.
      * intros (Hc & v & rest & -> & Hv). exists (c :: v), rest.
        split; [done|by constructor].
      * intros (v & rest & Hl & Hv).
        apply Forall2_cons_inv_l in Hv as (c' & v' & Hc & Hv & ->).
        simplify_eq/=. eauto.
Qed.

Lemma length_list_ascii_of_string w :
  length (list_ascii_of_string w) = String.length w.
Proof. induction w; simpl; congruence. Qed.

Lemma lookup_drop_cons {A} (l : list A) i c :
  l !! i = Some c ↔ ∃ rest, drop i l = c :: rest.
Proof.
  split.
  - intros H. exists (drop (S i) l). by apply drop_S.
  - intros [rest H]. rewrite <-(Nat.add_0_r i), <-lookup_drop, H. done.
Qed.

Section MatcherFacts.
Variable U : unicode.
Variable s : list N.

Lemma exec_spec r : ∀ st k,
  (∀ res, exec U s r st k = Some res →
          ∃ st', matches U s r st st' ∧ k st' = Some res) ∧
  (∀ st', matches U s r st st' → is_Some (k st') → is_Some (exec U s r st k)).
Proof.
  induction r as [|cs|ic w|r1 IH1 r2 IH2|r1 IH1 r2 IH2|g lo hi cs| | |r1 IH1|r1 IH1];
    intros st k; simpl.
  - split; [eauto|]. by intros st' ->.
  - split.
    + intros res. destruct (s !! pos st) as [c|] eqn:Hc; [|done].
      destruct (cs c) eqn:Hcs; [|done]. intros Hk.
      apply lookup_drop_cons in Hc. exists (advance st 1). split; [|done].
      exists c. done.
    + intros st' (c & Hcs & Hc & ->). apply lookup_drop_cons in Hc.
      rewrite Hc, Hcs. done.
  - split.
    + intros res. case_match eqn:E; [|done]. intros Hk.
      apply str_at_spec in E as (v & rest & Hd & Hv).
      exists (advance st (String.length w)). split; [|done].
      exists v. split; [done|]. apply Forall2_length in Hv.
      rewrite length_list_ascii_of_string in Hv. rewrite Hv. split; eauto.
    + intros st' (v & Hv & [rest Hd] & ->) Hk.
      pose proof (Forall2_length _ _ _ Hv) as Hlen.
      rewrite length_list_ascii_of_string in Hlen.
      assert (str_at U ic (list_ascii_of_string w) (drop (pos st) s) = true) as ->.
      { apply str_at_spec. eauto. }
      by rewrite Hlen.
  - split.
    + intros res (m & Hm & (st' & Hst' & Hk)%IH2)%IH1. eauto.
    + intros st' (m & Hm & Hst') Hk.
      eapply IH1; [done|]. eapply IH2; done.
  - split.
    + intros res. destruct (exec U s r1 st k) eqn:E1.
      * intros [= ->]. apply IH1 in E1 as (st' & ? & ?). eauto.
      * intros (st' & ? & ?)%IH2. eauto.
    + intros st' [H|H] Hk.
      * eapply IH1 in H as [x Hx]; [|done]. rewrite Hx. by eexists.
      * destruct (exec U s r1 st k); [by eexists|]. eapply IH2; done.
  - split.
    + intros res (l1 & j & l2 & Hl & Hj & _)%first_success_Some.
      exists (advance st j). split; [|done].
      assert (j ∈ counts g lo (run cs hi (drop (pos st) s))) as Hin
        by (rewrite Hl; set_solver).
      apply elem_of_counts in Hin as [Hlo Hhi].
      apply run_spec in Hhi as (v & rest & Hd & <- & Hv & Hw).
      exists v. split_and!; [done..|]. split; eauto.
    + intros st' (v & Hv & Hlo & Hw & [rest Hd] & ->) Hk.
      apply first_success_is_Some.
      exists (length v). split; [|done]. apply elem_of_counts.
      split; [done|]. apply run_spec. eauto 10.
  - split.
    + intros res. case_match eqn:E; [|done]. apply Nat.eqb_eq in E. eauto.
    + intros st' [-> ->] Hk. done.
  - split.
    + intros res. case_match eqn:E; [|done]. eauto.
    + intros st' [-> ->] Hk. done.
  - split.
    + intros res. destruct (exec U s r1 st Some) eqn:E; [done|].
      intros Hk. exists st. split; [|done]. split; [|done].
      intros m Hm. eapply IH1 in Hm as [x Hx]; [|by eexists].
      rewrite E in Hx. done.
    + intros st' [Hno ->] Hk. destruct (exec U s r1 st Some) as [x|] eqn:E; [|done].
      apply IH1 in E as (m & Hm & _). by destruct (Hno m).
  - split.
    + intros res (m & Hm & Hk)%IH1. eauto.
    + intros st' (m & Hm & ->) Hk. eapply IH1; done.
Qed.

Lemma match_at_Some r i m :
  match_at U s r i = Some m →
  m_start m = i ∧ matches U s r (MState i None) (MState (m_end m) (m_grp m)).
Proof.
  unfold match_at. destruct (exec U s r (MState i None) Some) as [st|] eqn:E; [|done].
  intros [= <-]. apply exec_spec in E as (st' & Hm & [= ->]).
  by destruct st.
Qed.

Lemma match_at_is_Some r i st' :
  matches U s r (MState i None) st' → is_Some (match_at U s r i).
Proof.
  intros Hm. unfold match_at. apply fmap_is_Some.
  eapply exec_spec; [done|]. by eexists.
Qed.

Lemma match_at_None r i :
  match_at U s r i = None → ∀ st', ¬ matches U s r (MState i None) st'.
Proof.
  intros E st' [m Hm]%match_at_is_Some. congruence.
Qed.

Lemma search_from_Some r i0 m :
  search_from U s r i0 = Some m →
  i0 ≤ m_start m ≤ length s ∧ match_at U s r (m_start m) = Some m ∧
  ∀ j, i0 ≤ j < m_start m → match_at U s r j = None.
Proof.
  unfold search_from. intros (l1 & i & l2 & Hl & Hi & Hl1)%first_success_Some.
  pose proof (match_at_Some _ _ _ Hi) as [Hs _].
  assert (i0 + length l1 = i ∧ i < i0 + (S (length s) - i0)) as [Hi1 Hi2].
  { assert (seq i0 (S (length s) - i0) !! length l1 = Some i) as Hlk.
    { rewrite Hl. apply list_lookup_middle. done. }
    apply lookup_seq in Hlk. lia. }
  rewrite Hs. split_and!; [lia|lia|done|].
  intros j Hj. apply Hl1.
  assert (seq i0 (S (length s) - i0) !! (j - i0) = Some j) as Hlk.
  { apply lookup_seq. lia. }
  rewrite Hl in Hlk. rewrite lookup_app_l in Hlk by lia.
  by eapply list_elem_of_lookup_2.
Qed.

Lemma search_from_None r i0 :
  search_from U s r i0 = None ↔
  ∀ j, i0 ≤ j ≤ length s → match_at U s r j = None.
Proof.
  unfold search_from. rewrite first_success_None. split.
  - intros H j Hj. apply H. apply elem_of_seq. lia.
  - intros H j Hj%elem_of_seq. apply H. lia.
Qed.

Lemma search_from_is_Some r i0 j :
  i0 ≤ j ≤ length s → is_Some (match_at U s r j) →
  is_Some (search_from U s r i0).
Proof.
  intros Hj Hm. destruct (search_from U s r i0) eqn:E; [by eexists|].
  rewrite search_from_None in E. rewrite E in Hm by done. by destruct Hm.
Qed.
End MatcherFacts.

(** ** Reading strings *)

Lemma advance_0 st : advance st 0 = st.
Proof. destruct st. unfold advance. simpl. by rewrite Nat.add_0_r. Qed.

Lemma advance_advance st a b : advance (advance st a) b = advance st (a + b).
Proof. unfold advance. simpl. by rewrite Nat.add_assoc. Qed.

Lemma reads_app s st v m w st' :
  reads s st v m → reads s m w st' → reads s st (v ++ w) st'.
Proof.
  intros [[r1 H1] ->] [[r2 H2] ->]. simpl in H2.
  split.
  - exists r2. rewrite <-(assoc_L (++)), <-H2, <-drop_drop, H1.
    by rewrite drop_app_length.
  - by rewrite advance_advance, length_app.
Qed.

Lemma reads_app_inv s st v w st' :
  reads s st (v ++ w) st' →
  reads s st v (advance st (length v)) ∧ reads s (advance st (length v)) w st'.
Proof.
  intros [[r H] ->]. split_and!.
  - split; [|done]. exists (w ++ r). by rewrite (assoc_L (++)).
  - split.
    + exists r. simpl. rewrite <-drop_drop, H, <-(assoc_L (++)).
      by rewrite drop_app_length.
    + by rewrite advance_advance, length_app.
Qed.

Lemma reads_occurs s i g v st' :
  i ≤ length s →
  reads s (MState i g) v st' → occurs_at s v i ∧ st' = MState (i + length v) g.
Proof.
  intros Hi [[r H] ->]. split; [|done]. simpl in H.
  exists (take i s), r. rewrite <-H, take_drop. split; [done|].
  rewrite length_take. lia.
Qed.

Lemma occurs_reads s i g v :
  occurs_at s v i → reads s (MState i g) v (MState (i + length v) g).
Proof.
  intros (pre & post & -> & <-). split; [|done]. exists post. simpl.
  by rewrite drop_app_length.
Qed.

Lemma occurs_at_slice s v i :
  occurs_at s v i → slice i (i + length v) s = v.
Proof.
  intros (pre & post & -> & <-). unfold slice.
  rewrite drop_app_length. replace (length pre + length v - length pre) with (length v) by lia.
  by rewrite take_app_length.
Qed.

Lemma occurs_at_le s v i : occurs_at s v i → i + length v ≤ length s.
Proof.
  intros (pre & post & -> & <-). rewrite !length_app. lia.
Qed.

Lemma finditer_from_elem U s r fuel i0 m :
  m ∈ finditer_from U s fuel r i0 →
  match_at U s r (m_start m) = Some m ∧ i0 ≤ m_start m ≤ length s.
Proof.
  revert i0. induction fuel as [|fuel IH]; intros i0; simpl.
  { intros H. inversion H. }
  destruct (search_from U s r i0) as [m0|] eqn:E.
  2:{ intros H. inversion H. }
  apply search_from_Some in E as (Hle & Hm0 & _).
  intros [->|Hin]%elem_of_cons; [done|].
  apply IH in Hin as [? ?]. split; [done|lia].
Qed.

(** The rounds that [finditer] allows are enough: more rounds give the
    same matches. *)
Lemma finditer_from_fuel U s r fuel i0 :
  S (length s) - i0 ≤ fuel →
  finditer_from U s (S fuel) r i0 = finditer_from U s fuel r i0.
Proof.
  revert i0. induction fuel as [|fuel IH]; intros i0 Hfuel.
  - simpl. unfold search_from.
    by replace (S (length s) - i0) with 0 by lia.
  - cbn [finditer_from].
    destruct (search_from U s r i0) as [m|] eqn:E; [|done].
    apply search_from_Some in E as (Hle & _). f_equal.
    apply IH. lia.
Qed.

Lemma finditer_fuel U s r n :
  finditer_from U s (S (length s) + n) r 0 = finditer U s r.
Proof.
  unfold finditer. induction n as [|n IH]; [by rewrite Nat.add_0_r|].
  rewrite Nat.add_succ_r, finditer_from_fuel by lia. done.
Qed.

Lemma finditer_elem U s r m :
  m ∈ finditer U s r →
  m_start m ≤ length s ∧
  matches U s r (MState (m_start m) None) (MState (m_end m) (m_grp m)).
Proof.
  intros [Hm [_ Hle]]%finditer_from_elem. split; [done|].
  by apply match_at_Some in Hm as [_ Hm].
Qed.

(** ** The order on strings *)

Lemma str_le_refl x : str_le x x.
Proof.
  unfold str_le. induction x as [|a x IH]; simpl; [done|].
  rewrite N.eqb_refl, IH. simpl. apply orb_true_r.
Qed.

Global Instance str_le_trans : Transitive str_le.
Proof.
  unfold str_le. intros x. induction x as [|a x IH]; intros [|b y] [|c z]; simpl;
    try done.
  rewrite !orb_true_iff, !andb_true_iff, !N.ltb_lt, !N.eqb_eq.
  intros [?|[-> ?]] [?|[-> ?]]; [left; lia|by left|by left|right].
  split; [done|]. by eapply IH.
Qed.

Global Instance str_le_total : Total str_le.
Proof.
  unfold str_le. intros x. induction x as [|a x IH]; intros [|b y]; simpl; auto.
  rewrite !orb_true_iff, !andb_true_iff, !N.ltb_lt, !N.eqb_eq.
  destruct (N.lt_total a b) as [?|[->|?]]; [by left; left| |by right; left].
  destruct (IH y); [left|right]; by right.
Qed.

Global Instance str_le_antisym : AntiSymm (=) str_le.
Proof.
  unfold str_le. intros x. induction x as [|a x IH]; intros [|b y]; simpl;
    try done.
  rewrite !orb_true_iff, !andb_true_iff, !N.ltb_lt, !N.eqb_eq.
  intros [?|[-> ?]] [?|[? ?]]; try lia. f_equal. by apply IH.
Qed.

Lemma StronglySorted_strict l :
  StronglySorted str_le l → NoDup l → StronglySorted str_lt l.
Proof.
  induction 1 as [|x l Hl IH Hx]; intros Hnd; constructor.
  - apply IH. by apply NoDup_cons in Hnd as [_ ?].
  - apply NoDup_cons in Hnd as [Hnin _].
    apply Forall_forall. intros y Hy. split.
    + by eapply Forall_forall in Hx.
    + intros ->. done.
Qed.

Lemma sorted_spec (X : gset (list N)) :
  StronglySorted str_lt (sorted X) ∧ NoDup (sorted X) ∧
  ∀ x, x ∈ sorted X ↔ x ∈ X.
Proof.
  unfold sorted.
  assert (NoDup (merge_sort str_le (elements X))) as Hnd.
  { rewrite merge_sort_Permutation. apply NoDup_elements. }
  split_and!; [|done|].
  - apply StronglySorted_strict; [|done].
    apply StronglySorted_merge_sort; apply _.
  - intros x. rewrite merge_sort_Permutation. apply elem_of_elements.
Qed.

(** ** Lines *)

Lemma split_on_app sep cur x rest :
  sep ∉ x →
  split_on sep cur (x ++ sep :: rest) = (reverse cur ++ x) :: split_on sep [] rest.
Proof.
  revert cur. induction x as [|c x IH]; intros cur Hx; simpl.
  - by rewrite N.eqb_refl, app_nil_r.
  - apply not_elem_of_cons in Hx as [Hc Hx].
    destruct (N.eqb_spec c sep) as [->|_]; [done|].
    rewrite IH by done. by rewrite reverse_cons, <-(assoc_L (++)).
Qed.

Lemma split_on_last sep cur x :
  sep ∉ x → split_on sep cur x = [reverse cur ++ x].
Proof.
  revert cur. induction x as [|c x IH]; intros cur Hx; simpl.
  - by rewrite app_nil_r.
  - apply not_elem_of_cons in Hx as [Hc Hx].
    destruct (N.eqb_spec c sep) as [->|_]; [done|].
    rewrite IH by done. by rewrite reverse_cons, <-(assoc_L (++)).
Qed.

Lemma split_on_join sep l :
  l ≠ [] → Forall (λ x, sep ∉ x) l → split_on sep [] (join [sep] l) = l.
Proof.
  induction l as [|x l IH]; [done|]. intros _ [Hx Hl]%Forall_cons.
  destruct l as [|y l]; simpl.
  - by rewrite split_on_last.
  - rewrite split_on_app by done. simpl. f_equal. by apply IH.
Qed.

Lemma lines_join l :
  Forall (λ x, (NL ∉ x) ∧ x ≠ []) l → lines (join [NL] l) = l.
Proof.
  intros Hl. unfold lines. destruct l as [|x l]; [done|].
  case_decide as Hj.
  - apply Forall_cons in Hl as [[_ Hx] _].
    destruct l; simpl in Hj; [done|]. by apply app_eq_nil in Hj as [? _].
  - apply split_on_join; [done|]. eapply Forall_impl; [done|]. by intros ? [? _].
Qed.

(** ** Container codes *)

Section Containers.
Variable U : unicode.

Lemma re_container_matches s i g st' :
  matches U s (re_container U) (MState i g) st' →
  ∃ w, is_container_code U w ∧ reads s (MState i g) w st'.
Proof.
  unfold re_container, seqs. simpl.
  intros (m1 & [Hb1 ->] & m2 & (ls & Hls & Hl1 & Hl2 & Hr1) &
          m3 & (ds & Hds & Hd1 & Hd2 & Hr2) & m4 & [Hb2 ->] & ->).
  exists (ls ++ ds). split.
  - exists ls, ds. split_and!; [done|lia|lia|done|done].
  - by eapply reads_app.
Qed.

Lemma find_all_container text w :
  w ∈ find_all U (re_container U) text → is_container_code U w.
Proof.
  unfold find_all. intros (m & -> & [Hle Hm]%finditer_elem)%list_elem_of_fmap.
  apply re_container_matches in Hm as (w & Hw & Hr).
  apply reads_occurs in Hr as [Hocc [= Hend _]]; [|done].
  unfold group0. rewrite Hend. by rewrite occurs_at_slice.
Qed.

Lemma container_code_length w : is_container_code U w → length w = 11.
Proof. intros (ls & ds & -> & ? & ? & _). rewrite length_app. lia. Qed.

Lemma container_code_no_nl w : is_container_code U w → NL ∉ w.
Proof.
  intros (ls & ds & -> & _ & _ & Hls & Hds).
  intros [H|H]%elem_of_app.
  - eapply Forall_forall in Hls; [|done]. done.
  - eapply Forall_forall in Hds; [|done]. done.
Qed.

(** C7. The list of container codes is strictly ascending for the
    lexicographic order, has no duplicates, and each of its elements is
    four upper-case letters followed by seven digits, however often the
    text repeats a code; the lines of the joined field are that list.
    (With no code at all the field is empty; otherwise [split] on line
    breaks gives the list back.) *)
Theorem containers_sorted_distinct_shaped text :
  let codes := parse_containers U text in
  lines (join [NL] codes) = codes ∧
  (codes = [] ∧ join [NL] codes = [] ∨ split_on NL [] (join [NL] codes) = codes) ∧
  StronglySorted str_lt codes ∧ NoDup codes ∧
  Forall (is_container_code U) codes.
Proof.
  intros codes. unfold codes, parse_containers.
  destruct (sorted_spec (list_to_set (find_all U (re_container U) text)))
    as (Hs & Hnd & Hin).
  assert (Forall (is_container_code U)
            (sorted (list_to_set (find_all U (re_container U) text)))) as Hall.
  { apply Forall_forall. intros w Hw%Hin. apply elem_of_list_to_set in Hw.
    by eapply find_all_container. }
  assert (Forall (λ x, NL ∉ x)
            (sorted (list_to_set (find_all U (re_container U) text)))) as Hnl.
  { eapply Forall_impl; [exact Hall|]. intros w Hw.
    by apply container_code_no_nl. }
  split_and!; [| |done..].
  - apply lines_join. eapply Forall_impl; [exact Hall|]. intros w Hw. split.
    + by apply container_code_no_nl.
    + apply container_code_length in Hw. by destruct w.
  - destruct (sorted _) as [|x l] eqn:E; [by left|right].
    by apply split_on_join.
Qed.
End Containers.

(** ** Word boundaries and literal words *)

Lemma is_digit_word U c : is_digit U c = true → is_word U c = true.
Proof.
  unfold is_word, is_digit, digit_val.
  destruct (is_ascii c).
  - destruct (is_09 c); [|done]. intros _. by rewrite orb_true_r.
  - intros ->. apply orb_true_r.
Qed.

Lemma word_at_app U pre post :
  word_at U (pre ++ post) (length pre) = starts_word U post.
Proof.
  unfold word_at, starts_word. rewrite lookup_app_r by lia.
  rewrite Nat.sub_diag. by destruct post.
Qed.

Lemma boundary_app U pre post :
  boundary U (pre ++ post) (length pre) = xorb (ends_word U pre) (starts_word U post).
Proof.
  unfold boundary. rewrite word_at_app. f_equal.
  destruct pre as [|c pre _] using rev_ind; [done|].
  rewrite length_app. simpl. rewrite Nat.add_1_r.
  unfold word_at, ends_word. rewrite last_snoc.
  rewrite lookup_app_l by (rewrite length_app; simpl; lia).
  rewrite lookup_app_r by lia. by rewrite Nat.sub_diag.
Qed.

Lemma starts_word_app U v rest :
  v ≠ [] → starts_word U (v ++ rest) = starts_word U v.
Proof. by destruct v. Qed.

Lemma ends_word_app U pre v :
  v ≠ [] → ends_word U (pre ++ v) = ends_word U v.
Proof.
  intros Hv. unfold ends_word. destruct v as [|c v _] using rev_ind; [done|].
  by rewrite (assoc_L (++)), !last_snoc.
Qed.

Lemma same_word_exact U w v : same_word U false w v ↔ v = str w.
Proof.
  unfold same_word, str. revert v.
  induction (list_ascii_of_string w) as [|a l IH]; intros v.
  - split; [by intros ->%Forall2_nil_inv_l|intros ->; constructor].
  - split.
    + intros (c & v' & Hc & Hv & ->)%Forall2_cons_inv_l.
      apply IH in Hv as ->. unfold lit in Hc. simpl in Hc.
      apply N.eqb_eq in Hc as ->. done.
    + intros ->. simpl. constructor; [|by apply IH].
      unfold lit. simpl. apply N.eqb_refl.
Qed.

Lemma same_word_length U ic w v : same_word U ic w v → length v = String.length w.
Proof.
  intros H%Forall2_length. by rewrite length_list_ascii_of_string in H.
Qed.

(** A string that is delimited by word boundaries, seen from the
    matcher. *)
Lemma delimited_boundary U s w i :
  starts_word U w = true → ends_word U w = true →
  delimited U s w i ↔
  occurs_at s w i ∧ boundary U s i = true ∧ boundary U s (i + length w) = true.
Proof.
  intros Hsw Hew.
  assert (w ≠ []) as Hne by (by intros ->).
  split.
  - intros (pre & post & -> & <- & Hpre & Hpost). split_and!.
    + by exists pre, post.
    + rewrite boundary_app, Hpre, starts_word_app, Hsw by done. done.
    + rewrite (assoc_L (++)), <-length_app, boundary_app.
      rewrite ends_word_app, Hew, Hpost by done. done.
  - intros ((pre & post & -> & <-) & Hb1 & Hb2). exists pre, post.
    rewrite boundary_app, starts_word_app, Hsw in Hb1 by done.
    rewrite (assoc_L (++)), <-length_app, boundary_app in Hb2.
    rewrite ends_word_app, Hew in Hb2 by done.
    split_and!; [done|done|by destruct (ends_word U pre)|
                 by destruct (starts_word U post)].
Qed.

(** ** Order numbers *)

(** A property of the ASCII characters, checked on each of them. *)
Lemma ascii_cases (P : N → bool) :
  forallb P (N.of_nat <$> seq 0 128) = true →
  ∀ c, is_ascii c = true → P c = true.
Proof.
  intros H c Hc. rewrite forallb_forall in H. apply H.
  apply list_elem_of_In, list_elem_of_fmap. exists (N.to_nat c).
  split; [by rewrite N2Nat.id|].
  apply elem_of_seq. unfold is_ascii in Hc. apply N.ltb_lt in Hc. lia.
Qed.

(** On ASCII, [re.IGNORECASE] adds nothing to [[A-Za-z0-9\-\/]]. *)
Lemma icase_order_char_ascii U c :
  is_ascii c = true → icase U order_char c = true → order_char c = true.
Proof.
  intros Hc Hi.
  apply (ascii_cases (λ c, implb (icase U order_char c) (order_char c))) in Hc;
    [|by vm_compute].
  rewrite Hi in Hc. done.
Qed.

Section OrderNumber.
Variable U : unicode.

Lemma order_number_length w : is_order_number U w → length w = 10.
Proof.
  intros (d4 & d2 & -> & H4 & H2 & _). rewrite !length_app, H4, H2. done.
Qed.

Lemma order_number_word w :
  is_order_number U w → starts_word U w = true ∧ ends_word U w = true.
Proof.
  intros (d4 & d2 & -> & H4 & H2 & _ & Hd). split; [done|].
  rewrite !(assoc_L (++)), ends_word_app by (by destruct d2).
  destruct d2 as [|c d2 _] using rev_ind; [done|].
  unfold ends_word. rewrite last_snoc. apply is_digit_word.
  unfold all_in in Hd. apply Forall_app in Hd as [_ Hc].
  by apply (Forall_singleton (λ c, is_digit U c = true)) in Hc.
Qed.

Lemma re_ce_matches s i g st' :
  i ≤ length s →
  matches U s (re_ce U) (MState i g) st' ↔
  ∃ w, is_order_number U w ∧ delimited U s w i ∧ st' = MState (i + 10) g.
Proof.
  intros Hi. unfold re_ce, seqs. simpl. split.
  - intros (m1 & [Hb1 ->] & m2 & (v1 & Hv1 & Hr1) &
            m3 & (d4 & Hd4 & H4 & H4' & Hr2) & m4 & (v2 & Hv2 & Hr3) &
            m5 & (d2 & Hd2 & H2 & H2' & Hr4) & m6 & [Hb2 ->] & ->).
    apply same_word_exact in Hv1 as ->. apply same_word_exact in Hv2 as ->.
    pose proof (reads_app _ _ _ _ _ _ Hr1
                  (reads_app _ _ _ _ _ _ Hr2 (reads_app _ _ _ _ _ _ Hr3 Hr4))) as Hr.
    apply reads_occurs in Hr as [Hocc ->]; [|done].
    assert (is_order_number U (str "CE-" ++ d4 ++ str "-" ++ d2)) as Hw.
    { exists d4, d2. split_and!; [done|lia|lia|done|done]. }
    pose proof (order_number_length _ Hw) as Hlen.
    pose proof (order_number_word _ Hw) as [Hsw Hew].
    exists (str "CE-" ++ d4 ++ str "-" ++ d2). rewrite Hlen in *.
    split_and!; [done| |done].
    apply delimited_boundary; [done..|]. rewrite Hlen. done.
  - intros (w & Hw & Hdel & ->).
    pose proof (order_number_length _ Hw) as Hlen.
    pose proof (order_number_word _ Hw) as [Hsw Hew].
    apply delimited_boundary in Hdel as (Hocc & Hb1 & Hb2); [|done..].
    rewrite Hlen in Hb2.
    destruct Hw as (d4 & d2 & -> & H4 & H2 & Hd4 & Hd2).
    apply (occurs_reads _ _ g) in Hocc.
    apply reads_app_inv in Hocc as [Hr1 Hocc].
    apply reads_app_inv in Hocc as [Hr2 Hocc].
    apply reads_app_inv in Hocc as [Hr3 Hr4]. rewrite Hlen in Hr4.
    eexists. split; [done|].
    eexists. split; [exists (str "CE-"); split; [by apply same_word_exact|done]|].
    eexists. split; [exists d4; split_and!; [done|lia|simpl; lia|done]|].
    eexists. split; [exists (str "-"); split; [by apply same_word_exact|done]|].
    eexists. split; [exists d2; split_and!; [done|lia|simpl; lia|done]|].
    exists (MState (i + 10) g). done.
Qed.

(** The first strategy of [parse_customer_order], by itself. *)
Lemma search_re_ce text :
  match search U text (re_ce U) with
  | Some m =>
      is_order_number U (group0 text m) ∧
      delimited U text (group0 text m) (m_start m) ∧
      ∀ j w, j < m_start m → is_order_number U w → ¬ delimited U text w j
  | None => ∀ j w, is_order_number U w → ¬ delimited U text w j
  end.
Proof.
  destruct (search U text (re_ce U)) as [m|] eqn:E.
  - apply search_from_Some in E as ([_ Hle] & Hm & Hfirst).
    apply match_at_Some in Hm as [_ Hm].
    apply re_ce_matches in Hm as (w & Hw & Hdel & [= Hend _]); [|done].
    assert (group0 text m = w) as ->.
    { unfold group0. rewrite Hend, <-(order_number_length w Hw).
      apply occurs_at_slice. destruct Hdel as (pre & post & ? & ? & _).
      by exists pre, post. }
    split_and!; [done..|]. intros j w' Hj Hw' Hdel'.
    assert (match_at U text (re_ce U) j = None) as Hnone by (apply Hfirst; lia).
    eapply match_at_None in Hnone. apply Hnone.
    apply re_ce_matches; [lia|]. eauto.
  - intros j w Hw Hdel.
    assert (j ≤ length text) as Hj.
    { destruct Hdel as (pre & post & -> & <- & _). rewrite length_app. lia. }
    unfold search in E. rewrite search_from_None in E.
    eapply match_at_None in E; [|split; [lia|done]]. apply E.
    apply re_ce_matches; [done|]. eauto.
Qed.

(** C2, amended. When the text has a string of the canonical shape that
    is delimited by word boundaries, [parse_customer_order] returns the
    first such string of the text. *)
Theorem order_number_first_delimited text i w :
  is_order_number U w → delimited U text w i →
  ∃ i0 w0, i0 ≤ i ∧ is_order_number U w0 ∧ delimited U text w0 i0 ∧
           (∀ j w', j < i0 → is_order_number U w' → ¬ delimited U text w' j) ∧
           parse_customer_order U text = Returns w0.
Proof.
  intros Hw Hdel. unfold parse_customer_order.
  pose proof (search_re_ce text) as H.
  destruct (search U text (re_ce U)) as [m|].
  - destruct H as (Hw0 & Hdel0 & Hfirst).
    exists (m_start m), (group0 text m). split_and!; [|done..].
    destruct (decide (m_start m ≤ i)); [done|].
    destruct (Hfirst i w); [lia|done|done].
  - by destruct (H i w).
Qed.
Lemma re_order_label_capture s i st' :
  matches U s (re_order_label U) (MState i None) st' →
  ∃ a v rest, grp st' = Some (a, a + length v) ∧ drop a s = v ++ rest ∧
              v ≠ [] ∧ all_in (icase U order_char) v.
Proof.
  unfold re_order_label, seqs, plus, star, opt. simpl.
  intros (m1 & _ & m2 & _ & m3 & _ & m4 & _ & m5 & _ & m6 & _ & m7 & _ & m8 & _ &
          m9 & (mg & (v & Hv & Hlen & _ & [[rest Hd] ->]) & ->) & ->).
  exists (pos m8), v, rest. split_and!; [done..| |done].
  intros ->. simpl in Hlen. lia.
Qed.

(** [parse_customer_order] raises only when the value captured after
    the label begins with a character outside ASCII. *)
Lemma parse_customer_order_raises text :
  parse_customer_order U text = AttributeError →
  ∃ c, c ∈ text ∧ is_ascii c = false.
Proof.
  unfold parse_customer_order.
  destruct (search U text (re_ce U)); [done|].
  destruct (search U text (re_order_label U)) as [m|] eqn:E; [|done].
  destruct (search U (group1 text m) (re_ce U)); [done|].
  destruct (rematch U (group1 text m) re_order_run) eqn:E3; [done|]. intros _.
  apply search_from_Some in E as (_ & Hm & _).
  apply match_at_Some in Hm as [_ Hm].
  apply re_order_label_capture in Hm as (a & v & rest & Hg & Hd & Hne & Hv).
  simpl in Hg. unfold group1 in E3. rewrite Hg in E3. unfold slice in E3.
  replace (a + length v - a) with (length v) in E3 by lia.
  rewrite Hd, take_app_length in E3.
  destruct v as [|c v]; [done|]. apply Forall_cons in Hv as [Hc _].
  exists c. split.
  { apply (subseteq_drop a). rewrite Hd. left. }
  destruct (is_ascii c) eqn:Hascii; [|done].
  apply icase_order_char_ascii in Hc; [|done].
  unfold rematch in E3. eapply match_at_None in E3. destruct E3.
  unfold re_order_run, plus. simpl.
  exists [c]. split_and!; [by constructor|simpl; lia|done|].
  split; [by exists v|done].
Qed.
End OrderNumber.

(** ** Invoice numbers *)

Lemma ends_word_digits U pre ds :
  all_in (is_digit U) ds → ds ≠ [] → ends_word U (pre ++ ds) = true.
Proof.
  intros Hds Hne. rewrite ends_word_app by done.
  destruct ds as [|c ds _] using rev_ind; [done|].
  unfold ends_word. rewrite last_snoc. apply is_digit_word.
  unfold all_in in Hds. apply Forall_app in Hds as [_ Hc].
  by apply (Forall_singleton (λ c, is_digit U c = true)) in Hc.
Qed.

Lemma reads_eq s i g v st' :
  reads s (MState i g) v st' →
  (∃ rest, drop i s = v ++ rest) ∧ st' = MState (i + length v) g.
Proof. by intros [? ->]. Qed.

Lemma drop_eq_app {A} (s : list A) i l :
  i ≤ length s → drop i s = l → s = take i s ++ l ∧ length (take i s) = i.
Proof.
  intros Hi <-. rewrite take_drop. split; [done|]. rewrite length_take. lia.
Qed.

Lemma drop_app_rest {A} (s : list A) i v rest :
  drop i s = v ++ rest → drop (i + length v) s = rest.
Proof. intros H. by rewrite <-drop_drop, H, drop_app_length. Qed.

Section Invoice.
Variable U : unicode.

Lemma re_invoice_line_sound s p st' :
  p ≤ length s →
  matches U s (re_invoice_line U) (MState p None) st' →
  ∃ ds a, invoice_line U s (if p =? 0 then 0 else S p) ds ∧
          grp st' = Some (a, a + length ds) ∧ occurs_at s ds a.
Proof.
  intros Hp. unfold re_invoice_line, seqs, bol_or_nl, star, plus. simpl.
  intros (m1 & Halt & m2 & (ws0 & Hws0 & _ & _ & Hr0) &
          m3 & (kw & Hkw & Hr1) & m4 & (ws1 & Hws1 & Hlen1 & _ & Hr2) &
          m5 & (mg & (ds & Hds & Hlen & _ & Hr3) & ->) & m6 & [Hb ->] & ->).
  simpl in Hb.
  assert (ws1 ≠ []) as Hne1 by (intros ->; simpl in Hlen1; lia).
  assert (ds ≠ []) as Hned by (intros ->; simpl in Hlen; lia).
  destruct Halt as [[Hp0 ->]|(c & Hc & Hrn)].
  - simpl in Hp0. subst p. simpl.
    pose proof (reads_app _ _ _ _ _ _ Hr0 (reads_app _ _ _ _ _ _ Hr1 Hr2)) as Hr.
    apply reads_eq in Hr as [_ ->]. apply reads_eq in Hr3 as [[post Hd] ->].
    simpl in *. apply drop_eq_app in Hd as [Hs Hl].
    2:{ destruct (decide (length (ws0 ++ kw ++ ws1) ≤ length s)); [done|].
        rewrite drop_ge in Hd by lia. by destruct ds. }
    pose proof (reads_app _ _ _ _ _ _ Hr0 (reads_app _ _ _ _ _ _ Hr1 Hr2)) as Hr.
    apply reads_eq in Hr as [[rest Hr] _]. simpl in Hr. rewrite drop_0 in Hr.
    assert (take (length (ws0 ++ kw ++ ws1)) s = ws0 ++ kw ++ ws1) as Htk.
    { rewrite Hr. by rewrite take_app_length. }
    rewrite Htk in Hs.
    exists ds, (length (ws0 ++ kw ++ ws1)). split_and!; [|done|].
    + exists [], ws0, kw, ws1, post. rewrite Hs at 1.
      split_and!; [by rewrite <-!(assoc_L (++))|done|by left|done..|].
      rewrite Hs in Hb.
      replace ((ws0 ++ kw ++ ws1) ++ ds ++ post)
        with (((ws0 ++ kw ++ ws1) ++ ds) ++ post) in Hb
        by (by rewrite <-!(assoc_L (++))).
      rewrite <-length_app, boundary_app, ends_word_digits in Hb by done.
      by destruct (starts_word U post).
    + exists (ws0 ++ kw ++ ws1), post. done.
  - apply N.eqb_eq in Hc as ->.
    pose proof (reads_app _ _ _ _ _ _ Hrn
      (reads_app _ _ _ _ _ _ Hr0 (reads_app _ _ _ _ _ _ Hr1 Hr2))) as Hr.
    remember ([NL] ++ ws0 ++ kw ++ ws1) as v eqn:Hv.
    apply reads_eq in Hr as [[rest Hr] ->]. apply reads_eq in Hr3 as [[post Hd] ->].
    cbn [pos grp] in *.
    rewrite (drop_app_rest _ _ _ _ Hr) in Hd. subst rest.
    apply drop_eq_app in Hr as [Hs Hl]; [|done].
    set (pre := take p s) in *.
    assert (s = (pre ++ v) ++ ds ++ post) as Hs'.
    { rewrite Hs at 1. by rewrite <-!(assoc_L (++)). }
    assert (length (pre ++ v) = p + length v) as Hl'.
    { by rewrite length_app, Hl. }
    assert (starts_word U post = false) as Hpost.
    { rewrite Hs' in Hb. rewrite <-Hl' in Hb.
      replace ((pre ++ v) ++ ds ++ post) with (((pre ++ v) ++ ds) ++ post) in Hb
        by (by rewrite <-!(assoc_L (++))).
      rewrite <-length_app, boundary_app, ends_word_digits in Hb by done.
      by destruct (starts_word U post). }
    exists ds, (p + length v). split_and!; [|done|].
    + destruct (Nat.eqb_spec p 0) as [->|Hp0].
      * exists [], (NL :: ws0), kw, ws1, post.
        assert (pre = []) as Hpre by (by apply nil_length_inv).
        rewrite Hpre, Hv in Hs. split_and!; [|done|by left| |done..].
        -- rewrite Hs at 1. simpl. by rewrite <-!(assoc_L (++)).
        -- by constructor.
      * exists (pre ++ [NL]), ws0, kw, ws1, post.
        split_and!; [|
          |right; by rewrite last_snoc|done..].
        -- rewrite Hs at 1. rewrite Hv. by rewrite <-!(assoc_L (++)).
        -- rewrite length_app, Hl. simpl. lia.
    + rewrite <-Hl'. eexists _, post. done.
Qed.

Lemma re_invoice_line_complete s j ds :
  invoice_line U s j ds →
  ∃ st', matches U s (re_invoice_line U) (MState (pred j) None) st'.
Proof.
  intros (pre & ws0 & kw & ws1 & post & -> & <- & Hpre & Hws0 & Hkw & Hws1 &
          Hne1 & Hds & Hlen & Hpost).
  unfold re_invoice_line, seqs, bol_or_nl, star, plus. simpl.
  assert (ds ≠ []) as Hned by (intros ->; simpl in Hlen; lia).
  assert (∃ m1, (pos (MState (pred (length pre)) None) = 0 ∧
                 m1 = MState (pred (length pre)) None
                 ∨ ∃ c, (c =? NL)%N = true ∧
                        reads (pre ++ ws0 ++ kw ++ ws1 ++ ds ++ post)
                          (MState (pred (length pre)) None) [c] m1) ∧
                pos m1 = length pre ∧ grp m1 = None) as (m1 & Halt & Hp1 & Hg1).
  { destruct Hpre as [->|Hlast].
    - exists (MState 0 None). split; [by left|done].
    - destruct pre as [|c pre' _] using rev_ind; [done|].
      rewrite last_snoc in Hlast. injection Hlast as ->.
      exists (MState (length (pre' ++ [NL])) None). split; [|done]. right.
      exists NL. split; [done|]. rewrite length_app. simpl.
      rewrite Nat.add_1_r. simpl. split.
      + simpl. rewrite <-!(assoc_L (++)), drop_app_length. by eexists.
      + unfold advance. simpl. by rewrite Nat.add_1_r. }
  destruct m1 as [p1 g1]. simpl in Hp1, Hg1. subst p1 g1.
  assert (reads (pre ++ ws0 ++ kw ++ ws1 ++ ds ++ post) (MState (length pre) None)
            (ws0 ++ kw ++ ws1 ++ ds)
            (MState (length pre + length (ws0 ++ kw ++ ws1 ++ ds)) None)) as Hr.
  { apply occurs_reads. exists pre, post. by rewrite <-!(assoc_L (++)). }
  apply reads_app_inv in Hr as [Hr0 Hr].
  apply reads_app_inv in Hr as [Hr1 Hr].
  apply reads_app_inv in Hr as [Hr2 Hr3].
  eexists. eexists. split; [exact Halt|].
  eexists. split; [exists ws0; split_and!; [done|lia|done|done]|].
  eexists. split; [exists kw; split; done|].
  eexists. split; [exists ws1; split_and!; [done| |done|done]|].
  { destruct ws1; [done|simpl; lia]. }
  eexists. split.
  { eexists. split; [exists ds; split_and!; [done|done|done|exact Hr3]|done]. }
  eexists. split; [|done]. split; [|done]. simpl.
  replace (pre ++ ws0 ++ kw ++ ws1 ++ ds ++ post)
    with ((pre ++ ws0 ++ kw ++ ws1 ++ ds) ++ post)
    by (by rewrite <-!(assoc_L (++))).
  replace (length pre + length (ws0 ++ kw ++ ws1 ++ ds))
    with (length (pre ++ ws0 ++ kw ++ ws1 ++ ds))
    by (by rewrite length_app).
  rewrite boundary_app, Hpost.
  replace (pre ++ ws0 ++ kw ++ ws1 ++ ds) with ((pre ++ ws0 ++ kw ++ ws1) ++ ds)
    by (by rewrite <-!(assoc_L (++))).
  by rewrite ends_word_digits.
Qed.

Lemma invoice_line_le s j ds : invoice_line U s j ds → j ≤ length s.
Proof.
  intros (pre & ws0 & kw & ws1 & post & -> & <- & _). rewrite length_app. lia.
Qed.

(** The first strategy of [parse_invoice_number], by itself. *)
Lemma search_re_invoice_line text :
  match search U text (re_invoice_line U) with
  | Some m =>
      ∃ i0, invoice_line U text i0 (group1 text m) ∧
            ∀ j ds, invoice_line U text j ds → i0 ≤ j
  | None => ∀ j ds, ¬ invoice_line U text j ds
  end.
Proof.
  destruct (search U text (re_invoice_line U)) as [m|] eqn:E.
  - apply search_from_Some in E as ([_ Hle] & Hm & Hfirst).
    apply match_at_Some in Hm as [_ Hm].
    apply re_invoice_line_sound in Hm as (ds & a & Hline & Hg & Hocc); [|done].
    simpl in Hg. exists (if m_start m =? 0 then 0 else S (m_start m)).
    unfold group1. rewrite Hg. rewrite occurs_at_slice by done.
    split; [done|]. intros j ds' Hj.
    destruct (Nat.eqb_spec (m_start m) 0) as [_|Hne]; [lia|].
    destruct (decide (S (m_start m) ≤ j)); [done|].
    assert (match_at U text (re_invoice_line U) (pred j) = None) as Hnone
      by (apply Hfirst; lia).
    apply re_invoice_line_complete in Hj as [st' Hst'].
    by eapply match_at_None in Hnone.
  - intros j ds Hj. pose proof (invoice_line_le _ _ _ Hj) as Hle.
    apply re_invoice_line_complete in Hj as [st' Hst'].
    unfold search in E. rewrite search_from_None in E.
    eapply match_at_None in E; [by apply E|lia].
Qed.

End Invoice.

(** ** The product *)

(** A lazy quantifier stops at the first count that lets the rest of the
    pattern succeed. *)
Lemma exec_lazy_first U s lo hi cs r st k res :
  exec U s (Seq (Rep false lo hi cs) r) st k = Some res →
  ∃ v, all_in cs v ∧ lo ≤ length v ∧ within (length v) hi ∧
       reads s st v (advance st (length v)) ∧
       exec U s r (advance st (length v)) k = Some res ∧
       ∀ j, lo ≤ j < length v → exec U s r (advance st j) k = None.
Proof.
  simpl. intros (l1 & n & l2 & Hl & Hn & Hl1)%first_success_Some.
  unfold counts in Hl.
  assert (n ∈ seq lo (S (run cs hi (drop (pos st) s)) - lo)) as Hin
    by (rewrite Hl; set_solver).
  apply elem_of_seq in Hin as [Hlo Hhi].
  assert (n ≤ run cs hi (drop (pos st) s)) as Hrun by lia.
  apply run_spec in Hrun as (v & rest & Hd & <- & Hv & Hw).
  exists v. split_and!; [done..|split; eauto|done|].
  intros j Hj. apply Hl1.
  assert (seq lo (S (run cs hi (drop (pos st) s)) - lo) !! (j - lo) = Some j) as Hlk.
  { apply lookup_seq. lia. }
  assert (length l1 = length v - lo) as Hlen.
  { assert (seq lo (S (run cs hi (drop (pos st) s)) - lo) !! length l1
            = Some (length v)) as Hlk'.
    { rewrite Hl. by apply list_lookup_middle. }
    apply lookup_seq in Hlk'. lia. }
  rewrite Hl, lookup_app_l in Hlk by lia.
  by eapply list_elem_of_lookup_2.
Qed.

Lemma exec_Group U s r st k :
  exec U s (Group r) st k
  = exec U s r st (λ st', k (MState (pos st') (Some (pos st, pos st')))).
Proof. done. Qed.

Lemma exec_Seq U s r1 r2 st k :
  exec U s (Seq r1 r2) st k = exec U s r1 st (λ st', exec U s r2 st' k).
Proof. done. Qed.

Section Cleaning.
Variable U : unicode.

Lemma split_ws_nonempty cur s : Forall (λ w, w ≠ []) (split_ws U cur s).
Proof.
  revert cur. induction s as [|c s IH]; intros cur; simpl.
  - case_decide as Hc; [constructor|]. constructor; [|constructor].
    intros Hr. apply Hc. by apply (inj reverse).
  - destruct (is_space U c); [|apply IH].
    case_decide as Hc; [apply IH|]. constructor; [|apply IH].
    intros Hr. apply Hc. by apply (inj reverse).
Qed.

Lemma join_nil_inv sep l : Forall (λ w, w ≠ []) l → join sep l = [] → l = [].
Proof.
  destruct l as [|x l]; [done|]. intros [Hx _]%Forall_cons.
  destruct l; simpl; [done|]. by intros [? _]%app_eq_nil.
Qed.

Lemma join_cons sep x l :
  join sep (x :: l) = x ++ match l with [] => [] | _ => sep ++ join sep l end.
Proof. destruct l; simpl; [by rewrite app_nil_r|done]. Qed.

Lemma collapse_gap s :
  collapse U InGap s
  = match collapse U AtStart s with [] => [] | r => str " " ++ r end.
Proof.
  induction s as [|c s IH]; simpl; [done|]. by destruct (is_space U c).
Qed.

Lemma join_split_ws s :
  join (str " ") (split_ws U [] s) = collapse U AtStart s ∧
  ∀ cur, cur ≠ [] →
         join (str " ") (split_ws U cur s) = reverse cur ++ collapse U InWord s.
Proof.
  induction s as [|c s [IH1 IH2]]; simpl.
  - split; [done|]. intros cur Hcur. rewrite decide_False by done.
    by rewrite app_nil_r.
  - destruct (is_space U c) eqn:Hc.
    + split; [done|]. intros cur Hcur. rewrite decide_False by done.
      rewrite join_cons, collapse_gap, <-IH1. f_equal.
      pose proof (split_ws_nonempty [] s) as Hne.
      destruct (split_ws U [] s) as [|x l] eqn:E; [done|].
      destruct (join (str " ") (x :: l)) eqn:Ej; [|done].
      by apply join_nil_inv in Ej.
    + split.
      * rewrite IH2 by done. done.
      * intros cur Hcur. rewrite IH2 by done.
        by rewrite reverse_cons, <-(assoc_L (++)).
Qed.

Lemma split_ws_lstrip s : split_ws U [] (lstrip U s) = split_ws U [] s.
Proof.
  induction s as [|c s IH]; simpl; [done|].
  destruct (is_space U c) eqn:Hc; [done|]. simpl. by rewrite Hc.
Qed.

Lemma lstrip_spec s : ∃ t, all_in (is_space U) t ∧ s = t ++ lstrip U s.
Proof.
  induction s as [|c s (t & Ht & IH)]; simpl.
  - exists []. split; [constructor|done].
  - destruct (is_space U c) eqn:Hc.
    + exists (c :: t). split; [by constructor|]. simpl. by rewrite <-IH.
    + exists []. split; [constructor|done].
Qed.

Lemma split_ws_trailing cur s t :
  all_in (is_space U) t → split_ws U cur (s ++ t) = split_ws U cur s.
Proof.
  intros Ht. revert cur. induction s as [|c s IH]; intros cur; simpl.
  - induction Ht as [|c t Hc _ IHt] in cur |- *; simpl; [done|].
    rewrite Hc. case_decide; [by rewrite IHt, decide_True|].
    by rewrite IHt, decide_True.
  - destruct (is_space U c); [|apply IH]. by rewrite !IH.
Qed.

Lemma split_strip s : split U (strip U s) = split U s.
Proof.
  unfold split, strip. rewrite <-(split_ws_lstrip s).
  destruct (lstrip_spec (reverse (lstrip U s))) as (t & Ht & Hr).
  apply (f_equal reverse) in Hr. rewrite reverse_involutive, reverse_app in Hr.
  rewrite Hr at 2. rewrite split_ws_trailing; [done|].
  by apply Forall_reverse.
Qed.

(** What [parse_product] does to the matched span is what the
    specification says. *)
Lemma clean_product_spec w :
  clean_product U w = upper U (collapse_spaces U (remove_char TM w)).
Proof.
  unfold clean_product, collapse_spaces. f_equal.
  rewrite split_strip. apply join_split_ws.
Qed.
End Cleaning.

Section Product.
Variable U : unicode.

Lemma product_span_matches s i w :
  is_product_span U w → occurs_at s w i →
  matches U s re_product (MState i None)
    (MState (i + length w) (Some (i, i + length w))).
Proof.
  intros (a & mid & l & -> & Ha & Hl & Hlen & Hmid) Hocc.
  apply (occurs_reads _ _ None) in Hocc.
  pose proof Hocc as Hocc'.
  apply reads_app_inv in Hocc as [Hr1 Hocc].
  apply reads_app_inv in Hocc as [Hr2 Hr3].
  unfold re_product, seqs. simpl.
  exists (MState (i + length (a ++ mid ++ l)) None). split; [|done].
  eexists. split; [exists a; split; done|].
  eexists. split; [exists mid; split_and!; [done|lia|done|done]|].
  eexists. split; [exists l; split; done|done].
Qed.

Lemma match_at_product s i m :
  i ≤ length s →
  match_at U s re_product i = Some m →
  is_product_span U (group1 s m) ∧ occurs_at s (group1 s m) i ∧
  ∀ w', is_product_span U w' → occurs_at s w' i →
        length (group1 s m) ≤ length w'.
Proof.
  intros Hi. unfold match_at, re_product, seqs.
  destruct (exec _ _ _ _ _) as [res|] eqn:E; [|done]. intros [= <-].
  cbn [foldr] in E. rewrite exec_Group, exec_Seq in E.
  apply exec_spec in E as (st1 & (a & Ha & Hr1) & E).
  apply exec_lazy_first in E as (mid & Hmid & _ & Hlen & Hr2 & E & Hmin).
  apply exec_spec in E as (st3 & (st2 & (l & Hl & Hr3) & ->) & [= <-]).
  pose proof (reads_app _ _ _ _ _ _ Hr1 (reads_app _ _ _ _ _ _ Hr2 Hr3)) as Hr.
  apply reads_occurs in Hr as [Hocc ->]; [|done].
  unfold group1. cbn [m_grp pos grp]. rewrite occurs_at_slice by done.
  split_and!; [by exists a, mid, l|done|].
  intros w' (a' & mid' & l' & -> & Ha' & Hl' & Hlen' & Hmid') Hocc'.
  pose proof (same_word_length _ _ _ _ Ha) as Hla.
  pose proof (same_word_length _ _ _ _ Ha') as Hla'.
  pose proof (same_word_length _ _ _ _ Hl) as Hll.
  pose proof (same_word_length _ _ _ _ Hl') as Hll'.
  rewrite !length_app, Hla, Hla', Hll, Hll'.
  destruct (decide (length mid ≤ length mid')); [lia|].
  assert (exec U s (Seq (Str true "LDPE") Eps) (advance st1 (length mid'))
            (λ st', Some (MState (pos st') (Some (i, pos st')))) = None) as Hnone.
  { apply Hmin. lia. }
  apply (occurs_reads _ _ None) in Hocc'.
  apply reads_app_inv in Hocc' as [Hr1' Hocc'].
  apply reads_app_inv in Hocc' as [Hr2' Hr3'].
  assert (st1 = advance (MState i None) (length a')) as Hst1.
  { destruct Hr1 as [_ ->]. by rewrite Hla, Hla'. }
  rewrite Hst1 in Hnone.
  assert (is_Some (exec U s (Seq (Str true "LDPE") Eps)
            (advance (advance (MState i None) (length a')) (length mid'))
            (λ st', Some (MState (pos st') (Some (i, pos st')))))) as [x Hx].
  { eapply exec_spec; [|by eexists].
    exists (MState (i + length (a' ++ mid' ++ l')) None).
    split; [by exists l'|done]. }
  congruence.
Qed.

(** The search of [parse_product], by itself. *)
Lemma search_re_product text :
  match search U text re_product with
  | Some m =>
      is_product_span U (group1 text m) ∧
      occurs_at text (group1 text m) (m_start m) ∧
      ∀ j w', is_product_span U w' → occurs_at text w' j →
              m_start m ≤ j ∧
              (j = m_start m → length (group1 text m) ≤ length w')
  | None => ∀ j w', is_product_span U w' → ¬ occurs_at text w' j
  end.
Proof.
  destruct (search U text re_product) as [m|] eqn:E.
  - apply search_from_Some in E as ([_ Hle] & Hm & Hfirst).
    pose proof (match_at_Some _ _ _ _ _ Hm) as [Hst _].
    apply match_at_product in Hm as (Hspan & Hocc & Hmin); [|done].
    split_and!; [done..|].
    intros j w' Hw' Hocc'.
    assert (m_start m ≤ j) as Hj.
    { destruct (decide (m_start m ≤ j)); [done|].
      assert (match_at U text re_product j = None) as Hnone
        by (apply Hfirst; lia).
      eapply match_at_None in Hnone. destruct Hnone.
      by apply product_span_matches. }
    split; [done|]. intros ->. by apply Hmin.
  - intros j w' Hw' Hocc'.
    unfold search in E. rewrite search_from_None in E.
    pose proof (occurs_at_le _ _ _ Hocc') as Hle.
    eapply match_at_None in E; [|split; [lia|]].
    + apply E. by apply product_span_matches.
    + lia.
Qed.

(** C5, amended. Either the text has a span from AGILITY to LDPE (in any
    case, at most 120 characters in between, none a line break), and
    [parse_product] returns the span that starts first and is the
    shortest among those that start there, without its trade mark
    signs, with its white space collapsed to single spaces, in upper
    case; or the text has no such span and [parse_product] returns the
    empty string. *)
Theorem product_first_shortest_span text :
  (∃ i0 w0,
      is_product_span U w0 ∧ occurs_at text w0 i0 ∧
      (∀ j w', is_product_span U w' → occurs_at text w' j →
               i0 ≤ j ∧ (j = i0 → length w0 ≤ length w')) ∧
      parse_product U text
      = upper U (collapse_spaces U (remove_char TM w0))) ∨
  ((∀ j w', is_product_span U w' → ¬ occurs_at text w' j) ∧
   parse_product U text = []).
Proof.
  unfold parse_product. pose proof (search_re_product text) as H.
  destruct (search U text re_product) as [m|].
  - left. destruct H as (? & ? & ?).
    exists (m_start m), (group1 text m).
    split_and!; [done..|]. apply clean_product_spec.
  - by right.
Qed.

(** The record keeps its seven keys whatever was found. *)
Lemma parse_pdf_spec text :
  match parse_pdf U text with
  | Returns row =>
      row.*1 = COLUMNS ∧
      ((∀ j w, is_product_span U w → ¬ occurs_at text w j) →
       row !! 3 = Some ("Producto"%string, []))
  | AttributeError => parse_customer_order U text = AttributeError
  end.
Proof.
  unfold parse_pdf. destruct (parse_customer_order U text); [|done].
  split; [done|]. intros Hno. simpl. do 2 f_equal.
  unfold parse_product. pose proof (search_re_product text) as H.
  destruct (search U text re_product) as [m|]; [|done].
  destruct H as (Hspan & Hocc & _). by destruct (Hno _ _ Hspan Hocc).
Qed.
End Product.

(** ** Bill of lading numbers *)

Lemma starts_with_spec c l : starts_with c l = true ↔ ∃ rest, l = c ++ rest.
Proof.
  revert l. induction c as [|x c IH]; intros l; simpl.
  - split; [eauto|done].
  - destruct l as [|y l].
    + split; [done|]. by intros [rest ?].
    + rewrite andb_true_iff, N.eqb_eq, IH. split.
      * intros [-> [rest ->]]. eauto.
      * intros [rest [= -> ->]]. eauto.
Qed.

Lemma occurs_at_0 l c : occurs_at l c 0 ↔ ∃ rest, l = c ++ rest.
Proof.
  split.
  - intros (pre & post & -> & Hl). apply nil_length_inv in Hl as ->. eauto.
  - intros [rest ->]. by exists [], rest.
Qed.

Lemma occurs_at_S x l c i : occurs_at (x :: l) c (S i) ↔ occurs_at l c i.
Proof.
  split.
  - intros (pre & post & Hl & Hlen). destruct pre as [|y pre]; [done|].
    simplify_eq/=. by exists pre, post.
  - intros (pre & post & -> & <-). by exists (x :: pre), post.
Qed.

Lemma find_spec c l i : find c l = Some i ↔ first_occurrence l c i.
Proof.
  revert i. induction l as [|x l IH]; intros i.
  - simpl. destruct (starts_with c []) eqn:E.
    + apply starts_with_spec in E as Hc. split.
      * intros [= <-]. split; [by apply occurs_at_0|]. lia.
      * intros [Hocc _]. apply occurs_at_le in Hocc. simpl in Hocc.
        by assert (i = 0) as -> by lia.
    + split; [done|]. intros [Hocc _].
      pose proof (occurs_at_le _ _ _ Hocc) as Hle. simpl in Hle.
      assert (i = 0) as -> by lia. apply occurs_at_0, starts_with_spec in Hocc.
      congruence.
  - cbn [find]. destruct (starts_with c (x :: l)) eqn:E.
    + apply starts_with_spec in E as Hc. split.
      * intros [= <-]. split; [by apply occurs_at_0|]. lia.
      * intros [Hocc Hmin]. destruct i as [|i]; [done|].
        destruct (Hmin 0); [lia|by apply occurs_at_0].
    + split.
      * destruct (find c l) as [k|] eqn:Ek; [|done]. intros [= <-].
        destruct (proj1 (IH k) eq_refl) as [Hocc Hmin].
        split; [by apply occurs_at_S|].
        intros [|j] Hj.
        -- rewrite occurs_at_0, <-starts_with_spec. congruence.
        -- rewrite occurs_at_S. apply Hmin. lia.
      * intros [Hocc Hmin]. destruct i as [|i].
        { apply occurs_at_0, starts_with_spec in Hocc. congruence. }
        assert (find c l = Some i) as ->; [|done].
        apply IH. split; [by apply occurs_at_S in Hocc|].
        intros j Hj Hoccj. apply (Hmin (S j)); [lia|by apply occurs_at_S].
Qed.

Lemma find_occurs c l i : occurs_at l c i → is_Some (find c l).
Proof.
  revert i. induction l as [|x l IH]; intros i Hocc.
  - pose proof (occurs_at_le _ _ _ Hocc) as Hle. simpl in Hle.
    assert (i = 0) as -> by lia. apply occurs_at_0, starts_with_spec in Hocc.
    simpl. rewrite Hocc. by eexists.
  - cbn [find]. destruct (starts_with c (x :: l)) eqn:E; [by eexists|].
    destruct i as [|i].
    { apply occurs_at_0, starts_with_spec in Hocc. congruence. }
    apply occurs_at_S, IH in Hocc as [k ->]. by eexists.
Qed.

Lemma elem_of_insert_by_len x y l : x ∈ insert_by_len y l ↔ x = y ∨ x ∈ l.
Proof.
  induction l as [|z l IH]; simpl.
  - rewrite list_elem_of_singleton, elem_of_nil. tauto.
  - case_match; rewrite !elem_of_cons, ?IH; tauto.
Qed.

Lemma elem_of_sort_by_len_desc x l : x ∈ sort_by_len_desc l ↔ x ∈ l.
Proof.
  unfold sort_by_len_desc. induction l as [|y l IH]; simpl; [done|].
  rewrite elem_of_insert_by_len, IH, elem_of_cons. tauto.
Qed.

Section BillOfLading.
Variable U : unicode.

Lemma near_booking_spec near :
  near_booking U near = true ↔ has_booking_ref U near.
Proof.
  unfold near_booking. split.
  - destruct (search U near (re_booking U)) as [m|] eqn:E; [|done]. intros _.
    apply search_from_Some in E as ([_ Hle] & Hm & _).
    apply match_at_Some in Hm as [_ Hm].
    unfold re_booking, seqs, plus in Hm. simpl in Hm.
    destruct Hm as (m1 & (kw & Hkw & Hr1) & m2 & (ws & Hws & Hlen & _ & Hr2) &
                    m3 & (r & Hr & Hr3) & <-).
    pose proof (reads_app _ _ _ _ _ _ Hr1 (reads_app _ _ _ _ _ _ Hr2 Hr3)) as Hrd.
    apply reads_occurs in Hrd as [Hocc _]; [|done].
    exists (m_start m), kw, ws, r. split_and!; [done..| |done].
    intros ->. simpl in Hlen. lia.
  - intros (i & kw & ws & r & Hocc & Hkw & Hws & Hne & Hr).
    assert (is_Some (search U near (re_booking U))) as [m ->]; [|done].
    pose proof (occurs_at_le _ _ _ Hocc) as Hle.
    apply (search_from_is_Some _ _ _ _ i); [lia|].
    apply (occurs_reads _ _ None) in Hocc.
    apply reads_app_inv in Hocc as [Hr1 Hocc].
    apply reads_app_inv in Hocc as [Hr2 Hr3].
    eapply match_at_is_Some. unfold re_booking, seqs, plus. simpl.
    eexists. split; [by exists kw|].
    eexists. split; [exists ws; split_and!; [done| |done|done]|].
    { destruct ws; [done|simpl; lia]. }
    eexists. split; [by exists r|done].
Qed.

Lemma re_token_matches s i g st' :
  matches U s re_token (MState i g) st' →
  ∃ w, is_bl_token w ∧ ¬ (str "EBKG" `prefix_of` w) ∧
       reads s (MState i g) w st'.
Proof.
  unfold re_token, seqs. simpl.
  intros (m1 & [Hb1 ->] & m2 & [Hno ->] & m3 & (ls & Hls & Hl1 & Hl2 & Hr1) &
          m4 & (rs & Hrs & Hs1 & Hs2 & Hr2) & m5 & [Hb2 ->] & ->).
  pose proof (reads_app _ _ _ _ _ _ Hr1 Hr2) as Hr.
  exists (ls ++ rs). split_and!; [|..|done].
  - exists ls, rs. simpl in *. split_and!; [done|lia..|done|done].
  - intros [w' Hw']. rewrite Hw' in Hr.
    apply reads_app_inv in Hr as [Hr _].
    apply (Hno (advance (MState i g) (length (str "EBKG")))).
    exists (str "EBKG"). split; [by apply same_word_exact|done].
Qed.

Lemma find_all_token s w :
  w ∈ find_all U re_token s →
  ¬ (str "EBKG" `prefix_of` w) ∧ is_bl_token w ∧ ∃ i, occurs_at s w i.
Proof.
  unfold find_all. intros (m & -> & [Hle Hm]%finditer_elem)%list_elem_of_fmap.
  apply re_token_matches in Hm as (w & Htok & Hw & Hr).
  apply reads_occurs in Hr as [Hocc [= Hend _]]; [|done].
  unfold group0. rewrite Hend, occurs_at_slice by done. eauto.
Qed.

Lemma bl_proximity_Some text bl :
  bl_proximity U text = Some bl →
  ¬ (str "EBKG" `prefix_of` bl) ∧ is_bl_token bl ∧
  ∃ kw km i, kw ∈ bl_keywords ∧ km ∈ finditer U text (Str true kw) ∧
             first_occurrence (bl_window text km) bl i ∧
             ¬ has_booking_ref U
                 (slice (i - 40) (i + length bl + 40) (bl_window text km)).
Proof.
  unfold bl_proximity.
  intros (l1 & kw & l2 & Hl & (k1 & km & k2 & Hk & Hhd & _)%first_success_Some & _)
    %first_success_Some.
  assert (kw ∈ bl_keywords) as Hkw.
  { rewrite Hl. apply elem_of_app. right. left. }
  assert (km ∈ finditer U text (Str true kw)) as Hkm.
  { rewrite Hk. apply elem_of_app. right. left. }
  set (window := bl_window text km) in *.
  assert (bl ∈ bl_filtered U window) as Hin.
  { apply elem_of_sort_by_len_desc. destruct (sort_by_len_desc _); [done|].
    injection Hhd as ->. left. }
  unfold bl_filtered in Hin.
  apply list_elem_of_filter in Hin as [Hnear Hin].
  apply list_elem_of_filter in Hin as [_ Hin].
  apply find_all_token in Hin as (Hpre & Htok & j & Hocc). split_and!; [done..|].
  destruct (find_occurs _ _ _ Hocc) as [i Hi].
  unfold bl_near in Hnear. rewrite Hi in Hnear.
  exists kw, km, i. split_and!; [done|done|by apply find_spec|].
  rewrite <-near_booking_spec. simpl in Hnear.
  by destruct (near_booking U _).
Qed.

Lemma bl_global_Some text bl :
  bl_global U text = Some bl →
  ¬ (str "EBKG" `prefix_of` bl) ∧ is_bl_token bl ∧
  ∃ i, occurs_at text bl i ∧
       ¬ has_booking_ref U (slice (i - 40) (i + length bl + 40) text).
Proof.
  unfold bl_global.
  intros (l1 & m & l2 & Hl & Hm & _)%first_success_Some.
  assert (m ∈ finditer U text re_token) as [Hle Hmat]%finditer_elem.
  { rewrite Hl. apply elem_of_app. right. left. }
  destruct (negb (has_digit U (group0 text m))); [done|].
  destruct (near_booking U _) eqn:Hnear; [done|]. injection Hm as <-.
  apply re_token_matches in Hmat as (w & Htok & Hw & Hr).
  apply reads_occurs in Hr as [Hocc [= Hend _]]; [|done].
  unfold group0. rewrite Hend, occurs_at_slice by done.
  split_and!; [done..|]. exists (m_start m). split; [done|].
  rewrite <-near_booking_spec. simpl in Hnear. rewrite Hend in Hnear.
  by rewrite Hnear.
Qed.

End BillOfLading.

(** ** Net weight *)

Section NetWeight.
Variable U : unicode.

(** The loop of the fallback, started in any state: what it adds to
    [total] are the weights [log.*2] found at some of the occurrences
    [log.*1], whose codes are pairwise distinct and were not in [seen]. *)
Lemma weight_loop_invariant text ms total seen :
  ∃ log : list (rmatch * pyfloat),
    log.*1 `sublist_of` ms ∧
    NoDup (group1 text <$> log.*1) ∧
    (∀ cm, cm ∈ log.*1 → group1 text cm ∉ seen) ∧
    Forall (λ e, item_weight U text e.1 = Some e.2) log ∧
    foldl (weight_step U text) (total, seen) ms
    = (foldl fadd total log.*2, list_to_set (group1 text <$> log.*1) ∪ seen).
Proof.
  revert total seen. induction ms as [|cm ms IH]; intros total seen.
  { exists []. simpl. split_and!; [done|constructor|by intros ? ?%elem_of_nil|done|].
    f_equal. by rewrite (left_id_L ∅ (∪)). }
  cbn [foldl]. unfold weight_step at 2.
  destruct (decide (group1 text cm ∈ seen)) as [Hin|Hnin].
  { destruct (IH total seen) as (log & Hsub & Hnd & Hseen & Hw & Heq).
    exists log. split_and!; [by apply sublist_cons|done..]. }
  destruct (item_weight U text cm) as [x|] eqn:Hx.
  2:{ destruct (IH total seen) as (log & Hsub & Hnd & Hseen & Hw & Heq).
      exists log. split_and!; [by apply sublist_cons|done..]. }
  destruct (IH (fadd total x) ({[group1 text cm]} ∪ seen))
    as (log & Hsub & Hnd & Hseen & Hw & Heq).
  exists ((cm, x) :: log). simpl. split_and!.
  - by apply sublist_skip.
  - apply NoDup_cons. split; [|done].
    intros (cm' & Hc & Hcm')%list_elem_of_fmap.
    apply Hseen in Hcm'. rewrite <-Hc in Hcm'. set_solver.
  - intros cm' [->|Hcm']%elem_of_cons; [done|].
    apply Hseen in Hcm'. set_solver.
  - by constructor.
  - rewrite Heq. f_equal. set_solver.
Qed.
End NetWeight.

Section NetWeightClaim.
Variable U : unicode.

(** C4. The total of the fallback is the sum of the weights found at
    some of the occurrences of container codes, in the order of the
    text, and the codes of these occurrences are pairwise distinct: a
    code contributes at most once however often it occurs.  A text with
    ABCU1234567 twice, each time followed by an item net weight of
    500.000 KG, gives 500.000. *)
Theorem net_weight_once_per_code text :
  (∃ log : list (rmatch * pyfloat),
     log.*1 `sublist_of` finditer U text (re_container_g U) ∧
     NoDup (group1 text <$> log.*1) ∧
     Forall (λ e, item_weight U text e.1 = Some e.2) log ∧
     (weight_loop U text).1 = foldl fadd fzero log.*2 ∧
     parse_total_net_weight U text =
       match net_weight_label U text with
       | Some r => r
       | None =>
           if fpos (foldl fadd fzero log.*2)
           then format_f 3 (foldl fadd fzero log.*2) else []
       end) ∧
  parse_total_net_weight U
    (str "ABCU1234567 Item Net Weight: 500.000 KG" ++ [NL] ++
     str "ABCU1234567 Item Net Weight: 500.000 KG")
  = str "500.000".
Proof.
  split; [|by vm_compute].
  destruct (weight_loop_invariant U text (finditer U text (re_container_g U))
              fzero ∅) as (log & Hsub & Hnd & _ & Hw & Heq).
  exists log. unfold parse_total_net_weight, weight_loop. rewrite Heq.
  split_and!; done.
Qed.
End NetWeightClaim.

(** ** The record *)

Lemma COLUMNS_distinct : NoDup COLUMNS.
Proof.
  unfold COLUMNS.
  repeat (apply NoDup_cons; split;
          [intros H; repeat (apply elem_of_cons in H as [H|H]; [discriminate|]);
           by apply elem_of_nil in H|]).
  constructor.
Qed.

(** C6. When [parse_pdf] returns a record, the record has the seven
    keys of [COLUMNS], each once and in that order, whatever was found;
    when the text has no product span, the product is the empty string
    and the seven keys are there all the same.  The only other outcome
    is the [AttributeError] of [parse_customer_order], which needs a
    character outside ASCII in the text. *)
Theorem record_has_seven_keys U text :
  match parse_pdf U text with
  | Returns row =>
      row.*1 = COLUMNS ∧ length row = 7 ∧ NoDup row.*1 ∧
      ((∀ j w, is_product_span U w → ¬ occurs_at text w j) →
       row !! 3 = Some ("Producto"%string, []))
  | AttributeError =>
      parse_customer_order U text = AttributeError ∧
      ∃ c, c ∈ text ∧ is_ascii c = false
  end.
Proof.
  pose proof (parse_pdf_spec U text) as H.
  destruct (parse_pdf U text) as [row|].
  - destruct H as [Hk Hp].
    split_and!; [done| |by rewrite Hk; apply COLUMNS_distinct|done].
    rewrite <-(length_fmap fst), Hk. done.
  - split; [done|]. by apply (parse_customer_order_raises U).
Qed.

(** ** The total amount *)

Section TotalAmount.
Variable U : unicode.


End TotalAmount.

(** ** Tier 2 of the bill of lading parser *)

Lemma occurs_at_starts_with l c i :
  occurs_at l c i ↔ i ≤ length l ∧ starts_with c (drop i l) = true.
Proof.
  rewrite starts_with_spec. split.
  - intros (pre & post & -> & <-). rewrite drop_app_length, length_app.
    split; [lia|eauto].
  - intros [Hi [rest Hd]]. apply drop_eq_app in Hd as [Hl Hlen]; [|done].
    by exists (take i l), rest.
Qed.

(** C10. In tier 2 the neighbourhood that is searched for BOOKING REF is
    taken around the first place where the candidate string occurs in the
    window, whichever occurrence was matched: a string is kept as a
    candidate of a window exactly when it is a token of the window, has a
    digit, and the 40 characters on each side of its first occurrence in
    the window hold no BOOKING REF.  In the first text below the token
    ABCD123456 occurs twice in the window: first inside a longer run of
    letters, where it is not a match and BOOKING REF is far; then as a
    match right after BOOKING REF.  It is kept, and tier 2 returns it.
    In the second text the two places are exchanged: the match is far
    from BOOKING REF, but the first occurrence, which is no match, is
    right after it.  The token is not kept, and tier 2 returns
    nothing. *)
Theorem bl_proximity_tests_first_occurrence U :
  (∀ window c i, first_occurrence window c i →
     bl_near window c = slice (i - 40) (i + length c + 40) window) ∧
  (∀ window c,
     c ∈ bl_filtered U window ↔
     c ∈ find_all U re_token window ∧ has_digit U c = true ∧
     ∃ i, first_occurrence window c i ∧
          ¬ has_booking_ref U (slice (i - 40) (i + length c + 40) window)) ∧
  (let token := str "ABCD123456" in
   let text := str "RIDER PAGE ZZZZZZZZZABCD123456ZZZZZZZZZZ" ++
               replicate 60 (chr ".") ++ str "BOOKING REF ABCD123456" in
   first_occurrence text token 20 ∧ occurs_at text token 112 ∧
   find_all U re_token text = [token] ∧
   ¬ has_booking_ref U (slice (20 - 40) (20 + length token + 40) text) ∧
   has_booking_ref U (slice (112 - 40) (112 + length token + 40) text) ∧
   bl_filtered U text = [token] ∧
   bl_label U text = None ∧
   bl_proximity U text = Some token ∧
   bl_global U text = None ∧
   parse_bl_number U text = token) ∧
  (let token := str "ABCD123456" in
   let text := str "RIDER PAGE BOOKING REF xABCD123456" ++
               replicate 60 (chr ".") ++ str " ABCD123456" in
   first_occurrence text token 24 ∧ occurs_at text token 95 ∧
   find_all U re_token text = [token] ∧
   m_start <$> finditer U text re_token = [95] ∧
   has_booking_ref U (slice (24 - 40) (24 + length token + 40) text) ∧
   ¬ has_booking_ref U (slice (95 - 40) (95 + length token + 40) text) ∧
   bl_filtered U text = [] ∧
   (∀ kw km, kw ∈ bl_keywords → km ∈ finditer U text (Str true kw) →
             bl_window text km = text) ∧
   bl_label U text = None ∧
   bl_proximity U text = None ∧
   bl_global U text = Some token).
Proof.
  assert (∀ window c i, first_occurrence window c i →
            bl_near window c = slice (i - 40) (i + length c + 40) window)
    as Hnear.
  { intros window c i Hi%find_spec. unfold bl_near. by rewrite Hi. }
  split; [exact Hnear|]. split.
  { intros window c. unfold bl_filtered.
    rewrite !list_elem_of_filter. split.
    - intros (Hno & Hdig & Hin).
      split; [done|]. split; [by destruct (has_digit U c)|].
      pose proof (find_all_token U _ _ Hin) as (_ & _ & j & Hocc).
      destruct (find_occurs _ _ _ Hocc) as [i Hi]. apply find_spec in Hi.
      exists i. split; [done|]. rewrite <-(Hnear _ _ _ Hi).
      rewrite <-near_booking_spec. by destruct (near_booking U _).
    - intros (Hin & Hdig & i & Hi & Hno).
      split; [|split; [by rewrite Hdig|done]].
      rewrite (Hnear _ _ _ Hi). rewrite <-near_booking_spec in Hno.
      destruct (near_booking U _); [by destruct Hno|intros []]. }
  split.
  { intros token text.
    split; [apply find_spec; by vm_compute|].
    split; [apply occurs_at_starts_with; split; [vm_compute; lia|by vm_compute]|].
    split; [by vm_compute|].
    split; [rewrite <-near_booking_spec; by vm_compute|].
    split; [rewrite <-near_booking_spec; by vm_compute|].
    split_and!; by vm_compute. }
  intros token text.
  split; [apply find_spec; by vm_compute|].
  split; [apply occurs_at_starts_with; split; [vm_compute; lia|by vm_compute]|].
  split; [by vm_compute|]. split; [by vm_compute|].
  split; [rewrite <-near_booking_spec; by vm_compute|].
  split; [rewrite <-near_booking_spec; by vm_compute|].
  split; [by vm_compute|]. split; [|split_and!; by vm_compute].
  intros kw km Hkw Hkm. unfold bl_keywords in Hkw.
  repeat (apply elem_of_cons in Hkw as [->|Hkw];
          [vm_compute in Hkm;
           repeat (apply elem_of_cons in Hkm as [->|Hkm]; [by vm_compute|]);
           by apply elem_of_nil in Hkm|]).
  by apply elem_of_nil in Hkw.
Qed.

(** ** An input on which [parse_customer_order] raises *)

(** C9. The label Customer Order Number followed by the Kelvin sign: the
    pattern of the label, which is matched with [re.IGNORECASE], captures
    the sign; the pattern that is then matched on the captured value
    without the flag does not accept it, and [.group(0)] is applied to
    [None].  The record is not assembled. *)
Theorem order_number_kelvin_raises :
  let text := str "Customer Order Number: " ++ [KELVIN] in
  parse_customer_order kelvin_sign text = AttributeError ∧
  parse_pdf kelvin_sign text = AttributeError.
Proof. by vm_compute. Qed.

(** A number that [float] rejects is absorbed: the strategy is skipped
    and, when no strategy gives a value, the field is empty. *)
Lemma float_failure_absorbed U :
  parse_total_amount U (str "Total 1.2.3") = [] ∧
  parse_total_net_weight U (str "TOTAL NET WEIGHT: 1.2.3 KG") = [] ∧
  parse_total_net_weight U
    (str "TOTAL NET WEIGHT: 1.2.3 KG ABCU1234567 Item Net Weight: 7 KG")
  = str "7.000".
Proof. split_and!; by vm_compute. Qed.

(** ** Inputs on which statements of the specification fail *)


(** C2. The text contains a string of the canonical shape, but a letter
    precedes it: nothing is returned. *)
Lemma order_number_after_letter :
  is_order_number ascii_only (str "CE-1234-56") ∧
  occurs_at (str "XCE-1234-56") (str "CE-1234-56") 1 ∧
  parse_customer_order ascii_only (str "XCE-1234-56") = Returns [].
Proof.
  split_and!.
  - exists (str "1234"), (str "56"). split_and!; [done..| |]; by_chars.
  - apply occurs_at_starts_with. split; [vm_compute; lia|by vm_compute].
  - by vm_compute.
Qed.


(** C5. AGILITY and LDPE with one character in between, a line break:
    nothing is returned. *)
Lemma product_across_lines :
  let text := str "AGILITY" ++ [NL] ++ str "LDPE" in
  same_word ascii_only true "AGILITY" (str "AGILITY") ∧
  same_word ascii_only true "LDPE" (str "LDPE") ∧
  length [NL] ≤ 120 ∧
  parse_product ascii_only text = [].
Proof.
  split_and!; [by_chars|by_chars|simpl; lia|by vm_compute].
Qed.


(** ** The conditional theorems at concrete inputs *)


(** C2, on a text with one order number. *)
Lemma order_number_first_delimited_witness :
  let text := str "order CE-1234-56." in
  is_order_number ascii_only (str "CE-1234-56") ∧
  delimited ascii_only text (str "CE-1234-56") 6 ∧
  ∃ i0 w0, i0 ≤ 6 ∧ is_order_number ascii_only w0 ∧
           delimited ascii_only text w0 i0 ∧
           (∀ j w', j < i0 → is_order_number ascii_only w' →
                    ¬ delimited ascii_only text w' j) ∧
           parse_customer_order ascii_only text = Returns w0.
Proof.
  intros text.
  assert (is_order_number ascii_only (str "CE-1234-56")) as Hw.
  { exists (str "1234"), (str "56"). split_and!; [done..| |]; by_chars. }
  assert (delimited ascii_only text (str "CE-1234-56") 6) as Hd.
  { by exists (str "order "), (str "."). }
  split_and!; [done..|].
  by apply (order_number_first_delimited ascii_only text 6 (str "CE-1234-56")).
Defined.


(** * Further properties of the program *)

(** ** The matches that [finditer] and [find_all] report *)

Section Reported.
Variable U : unicode.
Variable s : list N.

Lemma finditer_from_disjoint fuel r i0 :
  StronglySorted (λ a b, Nat.max (m_end a) (S (m_start a)) ≤ m_start b)
    (finditer_from U s fuel r i0).
Proof.
  revert i0. induction fuel as [|fuel IH]; intros i0; simpl; [constructor|].
  destruct (search_from U s r i0) as [m|]; [|constructor].
  constructor; [apply IH|].
  apply Forall_forall. intros b Hb. by apply finditer_from_elem in Hb as [_ [? _]].
Qed.

Lemma finditer_from_covers fuel r i0 i :
  i0 ≤ i ≤ length s → S (length s) - i0 ≤ fuel →
  is_Some (match_at U s r i) →
  ∃ m, m ∈ finditer_from U s fuel r i0 ∧
       m_start m ≤ i < Nat.max (m_end m) (S (m_start m)).
Proof.
  revert i0. induction fuel as [|fuel IH]; intros i0 Hi Hfuel Hm; [lia|].
  simpl. destruct (search_from U s r i0) as [m|] eqn:E.
  2:{ rewrite search_from_None in E. rewrite E in Hm by lia. by destruct Hm. }
  apply search_from_Some in E as (Hle & Hm0 & Hfirst).
  assert (m_start m ≤ i) as Hstart.
  { destruct (decide (m_start m ≤ i)); [done|].
    rewrite Hfirst in Hm by lia. by destruct Hm. }
  destruct (decide (i < Nat.max (m_end m) (S (m_start m)))) as [Hin|Hout].
  - exists m. split; [left|done].
  - destruct (IH (Nat.max (m_end m) (S (m_start m)))) as (m' & Hm' & Hcov);
      [lia|lia|done|].
    exists m'. split; [by right|done].
Qed.

(** X1. For a pattern that has no empty match in the text: the matches
    of [finditer], which [find_all] turns into strings, come in the
    order of the text and do not overlap; each is the match that the
    pattern has at its start; and a position at which the pattern has a
    match is never missed unless an earlier reported match covers it. *)
Theorem finditer_reports r :
  (∀ i m, i ≤ length s → match_at U s r i = Some m → m_start m < m_end m) →
  StronglySorted (λ a b, m_end a ≤ m_start b) (finditer U s r) ∧
  (∀ m, m ∈ finditer U s r →
        m_start m ≤ length s ∧ match_at U s r (m_start m) = Some m) ∧
  (∀ i, i ≤ length s → is_Some (match_at U s r i) →
        ∃ m, m ∈ finditer U s r ∧ m_start m ≤ i < m_end m).
Proof.
  intros Hne.
  assert (∀ m, m ∈ finditer U s r →
               m_start m ≤ length s ∧ match_at U s r (m_start m) = Some m)
    as Hel.
  { unfold finditer. intros m [? [_ ?]]%finditer_from_elem. done. }
  assert (∀ m, m ∈ finditer U s r →
               Nat.max (m_end m) (S (m_start m)) = m_end m) as Hmax.
  { intros m [Hle Hm]%Hel. specialize (Hne _ _ Hle Hm). lia. }
  split_and!; [|done|].
  - pose proof (finditer_from_disjoint (S (length s)) r 0) as Hs.
    fold (finditer U s r) in Hs. clear Hel. revert Hmax.
    induction Hs as [|a l Hl IH Ha]; intros Hmax; constructor.
    + apply IH. intros m Hm. apply Hmax. by right.
    + rewrite Forall_forall in Ha |- *. intros b Hb.
      rewrite <-(Hmax a) by left. by apply Ha.
  - intros i Hi Hm.
    destruct (finditer_from_covers (S (length s)) r 0 i) as (m & Hin & Hcov);
      [lia|lia|done|].
    fold (finditer U s r) in Hin. exists m. split; [done|].
    by rewrite <-(Hmax m).
Qed.
End Reported.

(** ** The container codes of a text *)

Lemma is_upper_word U c : is_upper_az c = true → is_word U c = true.
Proof.
  intros Hc. unfold is_word.
  assert (is_ascii c = true) as ->.
  { unfold is_upper_az, in_range, is_ascii in *.
    apply andb_true_iff in Hc as [_ Hc]. apply N.leb_le in Hc.
    apply N.ltb_lt. simpl in Hc. lia. }
  by rewrite Hc.
Qed.

Section ContainersExact.
Variable U : unicode.

Lemma container_code_words w :
  is_container_code U w →
  starts_word U w = true ∧ ends_word U w = true ∧
  Forall (λ c, is_word U c = true) w.
Proof.
  intros (ls & ds & -> & Hl & Hd & Hls & Hds).
  assert (Forall (λ c, is_word U c = true) (ls ++ ds)) as Hall.
  { apply Forall_app. split.
    - eapply Forall_impl; [exact Hls|]. intros c. apply is_upper_word.
    - eapply Forall_impl; [exact Hds|]. intros c. apply is_digit_word. }
  split_and!; [| |done].
  - destruct ls as [|c ls]; [done|]. simpl. unfold starts_word. simpl.
    apply is_upper_word. by apply Forall_cons in Hls as [? _].
  - apply ends_word_digits; [done|]. by destruct ds.
Qed.

Lemma re_container_delimited s i g st' :
  i ≤ length s →
  matches U s (re_container U) (MState i g) st' ↔
  ∃ w, is_container_code U w ∧ delimited U s w i ∧ st' = MState (i + 11) g.
Proof.
  intros Hi. unfold re_container, seqs. simpl. split.
  - intros (m1 & [Hb1 ->] & m2 & (ls & Hls & Hl1 & Hl2 & Hr1) &
            m3 & (ds & Hds & Hd1 & Hd2 & Hr2) & m4 & [Hb2 ->] & ->).
    pose proof (reads_app _ _ _ _ _ _ Hr1 Hr2) as Hr.
    apply reads_occurs in Hr as [Hocc ->]; [|done].
    assert (is_container_code U (ls ++ ds)) as Hw.
    { exists ls, ds. simpl in *. split_and!; [done|lia|lia|done|done]. }
    pose proof (container_code_length _ _ Hw) as Hlen.
    pose proof (container_code_words _ Hw) as (Hsw & Hew & _).
    exists (ls ++ ds). rewrite Hlen in *. split_and!; [done| |done].
    apply delimited_boundary; [done..|]. rewrite Hlen. done.
  - intros (w & Hw & Hdel & ->).
    pose proof (container_code_length _ _ Hw) as Hlen.
    pose proof (container_code_words _ Hw) as (Hsw & Hew & _).
    apply delimited_boundary in Hdel as (Hocc & Hb1 & Hb2); [|done..].
    rewrite Hlen in Hb2.
    destruct Hw as (ls & ds & -> & Hl & Hd & Hls & Hds).
    apply (occurs_reads _ _ g) in Hocc.
    apply reads_app_inv in Hocc as [Hr1 Hr2]. rewrite Hlen in Hr2.
    eexists. split; [done|].
    eexists. split; [exists ls; split_and!; [done|lia|simpl; lia|done]|].
    eexists. split; [exists ds; split_and!; [done|lia|simpl; lia|done]|].
    exists (MState (i + 11) g). done.
Qed.

Lemma delimited_occurs text w i : delimited U text w i → occurs_at text w i.
Proof. intros (pre & post & ? & ? & _). by exists pre, post. Qed.

Lemma occurs_at_lookup text w i j c :
  occurs_at text w i → w !! j = Some c → text !! (i + j) = Some c.
Proof.
  intros (pre & post & -> & <-) Hj.
  rewrite lookup_app_r by lia. replace (length pre + j - length pre) with j by lia.
  by rewrite lookup_app_l by (by eapply lookup_lt_Some).
Qed.

Lemma occurs_at_inj text w w' i :
  occurs_at text w i → occurs_at text w' i → length w = length w' → w = w'.
Proof.
  intros H1%occurs_at_slice H2%occurs_at_slice Hlen.
  rewrite <-H1, <-H2. by rewrite Hlen.
Qed.

Lemma delimited_not_inside text w i c :
  delimited U text w i → 0 < i → text !! (i - 1) = Some c → is_word U c = false.
Proof.
  intros (pre & post & -> & <- & Hpre & _) Hi Hc.
  destruct pre as [|x pre _] using rev_ind; [simpl in Hi; lia|].
  rewrite length_app in Hc. simpl in Hc.
  rewrite <-(assoc_L (++)) in Hc. rewrite lookup_app_r in Hc by lia.
  replace (length pre + 1 - 1 - length pre) with 0 in Hc by lia.
  simpl in Hc. injection Hc as ->.
  unfold ends_word in Hpre. by rewrite last_snoc in Hpre.
Qed.

Lemma find_all_container_iff text w :
  w ∈ find_all U (re_container U) text ↔
  is_container_code U w ∧ ∃ i, delimited U text w i.
Proof.
  unfold find_all. split.
  - intros (m & -> & [Hle Hm]%finditer_elem)%list_elem_of_fmap.
    apply re_container_delimited in Hm as (w & Hw & Hdel & [= Hend _]); [|done].
    unfold group0. rewrite Hend, <-(container_code_length U w Hw).
    rewrite occurs_at_slice by (by apply delimited_occurs). eauto.
  - intros (Hw & i & Hdel).
    pose proof (occurs_at_le _ _ _ (delimited_occurs _ _ _ Hdel)) as Hle.
    destruct (finditer_from_covers U text (S (length text)) (re_container U) 0 i)
      as (m & Hm & Hcover); [lia|lia| |].
    { eapply match_at_is_Some. apply re_container_delimited; [lia|]. eauto. }
    fold (finditer U text (re_container U)) in Hm.
    apply list_elem_of_fmap. exists m. split; [|done].
    destruct (finditer_elem _ _ _ _ Hm) as [Hstart Hmat].
    apply re_container_delimited in Hmat as (w' & Hw' & Hdel' & [= Hend _]);
      [|done].
    pose proof (container_code_length U w Hw) as Hlen.
    pose proof (container_code_length U w' Hw') as Hlen'.
    assert (m_start m = i) as Hi.
    { destruct (decide (m_start m = i)) as [|Hne]; [done|]. exfalso.
      assert (∃ c, w' !! (i - 1 - m_start m) = Some c) as [c Hc].
      { apply lookup_lt_is_Some. lia. }
      pose proof (occurs_at_lookup _ _ _ _ _ (delimited_occurs _ _ _ Hdel') Hc)
        as Htext.
      replace (m_start m + (i - 1 - m_start m)) with (i - 1) in Htext by lia.
      pose proof (delimited_not_inside _ _ _ _ Hdel ltac:(lia) Htext) as Hnw.
      destruct (container_code_words _ Hw') as (_ & _ & Hall).
      eapply Forall_lookup_1 in Hall; [|done]. congruence. }
    unfold group0. rewrite Hend, Hi, <-Hlen.
    rewrite occurs_at_slice by (by apply delimited_occurs). done.
Qed.

Lemma re_container_g_delimited s i st' :
  i ≤ length s →
  matches U s (re_container_g U) (MState i None) st' ↔
  ∃ w, is_container_code U w ∧ delimited U s w i ∧
       st' = MState (i + 11) (Some (i, i + 11)).
Proof.
  intros Hi. unfold re_container_g, seqs. simpl. split.
  - intros (m1 & [Hb1 ->] & m2 &
            (mg & (m3 & (ls & Hls & Hl1 & Hl2 & Hr1) &
                   m4 & (ds & Hds & Hd1 & Hd2 & Hr2) & ->) & ->) &
            m5 & [Hb2 ->] & ->).
    pose proof (reads_app _ _ _ _ _ _ Hr1 Hr2) as Hr.
    apply reads_occurs in Hr as [Hocc ->]; [|done].
    assert (is_container_code U (ls ++ ds)) as Hw.
    { exists ls, ds. simpl in *. split_and!; [done|lia|lia|done|done]. }
    pose proof (container_code_length _ _ Hw) as Hlen.
    pose proof (container_code_words _ Hw) as (Hsw & Hew & _).
    exists (ls ++ ds). rewrite Hlen in *. simpl in *. split_and!; [done| |done].
    apply delimited_boundary; [done..|]. rewrite Hlen. done.
  - intros (w & Hw & Hdel & ->).
    pose proof (container_code_length _ _ Hw) as Hlen.
    pose proof (container_code_words _ Hw) as (Hsw & Hew & _).
    apply delimited_boundary in Hdel as (Hocc & Hb1 & Hb2); [|done..].
    rewrite Hlen in Hb2.
    destruct Hw as (ls & ds & -> & Hl & Hd & Hls & Hds).
    apply (occurs_reads _ _ None) in Hocc.
    apply reads_app_inv in Hocc as [Hr1 Hr2]. rewrite Hlen in Hr2.
    eexists. split; [done|].
    exists (MState (i + 11) (Some (i, i + 11))). split.
    { exists (MState (i + 11) None). split; [|done].
      eexists. split; [exists ls; split_and!; [done|lia|simpl; lia|done]|].
      eexists. split; [exists ds; split_and!; [done|lia|simpl; lia|done]|].
      done. }
    exists (MState (i + 11) (Some (i, i + 11))). done.
Qed.

(** X2. The container list holds exactly the strings of four upper-case
    letters and seven digits that stand in the text between two word
    boundaries: no code of the text is missed, whatever precedes it. *)
Theorem containers_exact text w :
  w ∈ parse_containers U text ↔
  is_container_code U w ∧ ∃ i, delimited U text w i.
Proof.
  unfold parse_containers.
  destruct (sorted_spec (list_to_set (find_all U (re_container U) text)))
    as (_ & _ & Hin).
  rewrite Hin, elem_of_list_to_set. apply find_all_container_iff.
Qed.

(** X13. The loop of the fallback of the net weight goes over the codes
    of the container list, and over no other string: the code of an
    occurrence that the loop visits is in the list of
    [parse_containers], and each code of the list is the code of an
    occurrence that the loop visits. *)
Theorem weight_codes_are_containers text code :
  code ∈ group1 text <$> finditer U text (re_container_g U) ↔
  code ∈ parse_containers U text.
Proof.
  unfold parse_containers.
  destruct (sorted_spec (list_to_set (find_all U (re_container U) text)))
    as (_ & _ & Hin).
  rewrite Hin, elem_of_list_to_set, find_all_container_iff. split.
  - intros (m & -> & [Hle Hm]%finditer_elem)%list_elem_of_fmap.
    apply re_container_g_delimited in Hm as (w & Hw & Hdel & [= Hend Hg]);
      [|done].
    unfold group1. rewrite Hg, <-(container_code_length U w Hw).
    rewrite occurs_at_slice by (by apply delimited_occurs). eauto.
  - intros (Hw & i & Hdel).
    pose proof (occurs_at_le _ _ _ (delimited_occurs _ _ _ Hdel)) as Hle.
    destruct (finditer_from_covers U text (S (length text)) (re_container_g U)
                0 i) as (m & Hm & Hcover); [lia|lia| |].
    { eapply match_at_is_Some. apply re_container_g_delimited; [lia|]. eauto. }
    fold (finditer U text (re_container_g U)) in Hm.
    apply list_elem_of_fmap. exists m. split; [|done].
    destruct (finditer_elem _ _ _ _ Hm) as [Hstart Hmat].
    apply re_container_g_delimited in Hmat
      as (w' & Hw' & Hdel' & [= Hend Hg]); [|done].
    pose proof (container_code_length U code Hw) as Hlen.
    pose proof (container_code_length U w' Hw') as Hlen'.
    assert (m_start m = i) as Hi.
    { destruct (decide (m_start m = i)) as [|Hne]; [done|]. exfalso.
      assert (∃ c, w' !! (i - 1 - m_start m) = Some c) as [c Hc].
      { apply lookup_lt_is_Some. lia. }
      pose proof (occurs_at_lookup _ _ _ _ _ (delimited_occurs _ _ _ Hdel') Hc)
        as Htext.
      replace (m_start m + (i - 1 - m_start m)) with (i - 1) in Htext by lia.
      pose proof (delimited_not_inside _ _ _ _ Hdel ltac:(lia) Htext) as Hnw.
      destruct (container_code_words _ Hw') as (_ & _ & Hall).
      eapply Forall_lookup_1 in Hall; [|done]. congruence. }
    unfold group1. rewrite Hg, Hi, <-Hlen.
    rewrite occurs_at_slice by (by apply delimited_occurs). done.
Qed.
End ContainersExact.

(** ** The text of a document *)

Lemma foldl_add_page acc pages :
  foldl add_page acc pages = acc ++ extract_text pages.
Proof.
  unfold extract_text. revert acc.
  induction pages as [|p pages IH] using rev_ind; intros acc; simpl.
  - by rewrite app_nil_r.
  - rewrite !foldl_app. simpl. rewrite IH.
    destruct p; simpl; by rewrite ?(assoc_L (++)).
Qed.

Lemma extract_text_cons p pages :
  extract_text (p :: pages) = add_page [] p ++ extract_text pages.
Proof. unfold extract_text at 1. simpl. apply foldl_add_page. Qed.

Lemma extract_text_app ps qs :
  extract_text (ps ++ qs) = extract_text ps ++ extract_text qs.
Proof.
  unfold extract_text at 1. rewrite foldl_app. apply foldl_add_page.
Qed.

(** X3. The text of a document is made page by page: the text of two
    runs of pages is the text of the first followed by the text of the
    second; it is empty exactly when every page raised, and otherwise it
    ends with a line break; the text of each page that gave one is in
    it, followed by a line break. *)
Theorem extract_text_pages ps qs :
  extract_text (ps ++ qs) = extract_text ps ++ extract_text qs ∧
  (extract_text ps = [] ↔ Forall (λ p, p = PageRaises) ps) ∧
  (extract_text ps = [] ∨ last (extract_text ps) = Some NL) ∧
  (∀ t, PageText t ∈ ps → ∃ i, occurs_at (extract_text ps) (t ++ [NL]) i).
Proof.
  split_and!.
  - apply extract_text_app.
  - induction ps as [|p ps IH]; [done|]. rewrite extract_text_cons. split.
    + intros [Hp Hps]%app_eq_nil. constructor; [|by apply IH].
      destruct p; simpl in Hp; [by destruct t|done..].
    + intros [-> Hps]%Forall_cons. simpl. by apply IH.
  - induction ps as [|p ps IH] using rev_ind; [by left|].
    unfold extract_text. rewrite foldl_app. simpl.
    fold (extract_text ps). destruct p; simpl.
    + right. by rewrite (assoc_L (++)), last_snoc.
    + right. by rewrite last_snoc.
    + done.
  - intros t (l1 & l2 & ->)%list_elem_of_split.
    rewrite extract_text_app, extract_text_cons. simpl.
    exists (length (extract_text l1)), (extract_text l1), (extract_text l2).
    by rewrite <-!(assoc_L (++)).
Qed.

(** ** The container codes of a document, page by page *)

Section Pages.
Variable U : unicode.

Lemma starts_word_app_l a b :
  a ≠ [] → starts_word U (a ++ b) = starts_word U a.
Proof. by destruct a. Qed.

Lemma ends_word_app_r a b :
  b ≠ [] → ends_word U (a ++ b) = ends_word U b.
Proof.
  intros Hb. destruct b as [|x b _] using rev_ind; [done|].
  unfold ends_word. by rewrite (assoc_L (++)), !last_snoc.
Qed.

(** A word standing between two boundaries in [a], a line break, [b]
    stands between two boundaries in [a] or in [b]. *)
Lemma delimited_app_nl a b w i :
  Forall (λ c, is_word U c = true) w → w ≠ [] →
  delimited U (a ++ NL :: b) w i ↔
  delimited U a w i ∨ ∃ j, i = length a + 1 + j ∧ delimited U b w j.
Proof.
  intros Hw Hne.
  assert (NL ∉ w) as Hnl.
  { intros Hin. eapply Forall_forall in Hw; [|done]. done. }
  split.
  - intros (pre & post & Heq & <- & Hpre & Hpost).
    rewrite (assoc_L (++)) in Heq. symmetry in Heq.
    apply app_eq_inv in Heq as [(k & Hk & Hb)|(k & Hk & Hb)].
    + destruct k as [|c k].
      * rewrite app_nil_r in Hk. simpl in Hb. subst post. left.
        exists pre, []. by rewrite app_nil_r.
      * injection Hb as <- ->. symmetry in Hk.
        apply app_eq_inv in Hk as [(k2 & Hk2 & Hw2)|(k2 & Hk2 & Hw2)].
        -- exfalso. apply Hnl. rewrite Hw2. set_solver.
        -- destruct k2 as [|c k2].
           { exfalso. apply Hnl. simpl in Hw2. rewrite <-Hw2. set_solver. }
           injection Hw2 as <- ->. right. exists (length k2). subst pre.
           split; [rewrite length_app; simpl; lia|].
           exists k2, post. rewrite <-(assoc_L (++)). split_and!; [done..| |done].
           destruct (decide (k2 = [])) as [->|Hk2]; [done|].
           rewrite <-Hpre. symmetry.
           rewrite (ends_word_app_r a (NL :: k2)) by done.
           by apply (ends_word_app_r [NL] k2).
    + left. subst a. exists pre, k. rewrite <-(assoc_L (++)).
      split_and!; [done..|].
      destruct (decide (k = [])) as [->|Hk]; [done|].
      rewrite <-Hpost, Hb. symmetry. by apply starts_word_app_l.
  - intros [(pre & post & -> & <- & Hpre & Hpost)|
            (j & -> & pre & post & -> & <- & Hpre & Hpost)].
    + exists pre, (post ++ NL :: b). rewrite <-!(assoc_L (++)).
      split_and!; [done..|].
      destruct post as [|c post]; [done|]. done.
    + exists (a ++ NL :: pre), post. rewrite <-!(assoc_L (++)).
      split_and!; [done|rewrite length_app; simpl; lia| |done].
      rewrite (ends_word_app_r a (NL :: pre)) by done.
      destruct (decide (pre = [])) as [->|Hk]; [done|].
      rewrite <-Hpre. by apply (ends_word_app_r [NL] pre).
Qed.

Lemma delimited_nil w i : w ≠ [] → ¬ delimited U [] w i.
Proof.
  intros Hne (pre & post & Heq & _). symmetry in Heq.
  apply app_eq_nil in Heq as [_ [Hw _]%app_eq_nil]. done.
Qed.

Lemma delimited_pages pages w :
  Forall (λ c, is_word U c = true) w → w ≠ [] →
  (∃ i, delimited U (extract_text pages) w i) ↔
  ∃ t, PageText t ∈ pages ∧ ∃ i, delimited U t w i.
Proof.
  intros Hw Hne. induction pages as [|p pages IH].
  - split; [intros [i Hd]; by apply delimited_nil in Hd|].
    intros (t & []%elem_of_nil & _).
  - rewrite extract_text_cons. destruct p as [t| |]; simpl.
    + rewrite <-(assoc_L (++)). simpl. split.
      * intros [i Hd].
        apply delimited_app_nl in Hd as [Hd|(j & -> & Hd)]; [| |done..].
        -- exists t. split; [left|eauto].
        -- destruct (proj1 IH (ex_intro _ j Hd)) as (t' & Hin & Hd').
           exists t'. split; [by right|done].
      * intros (t' & [[= ->]|Hin]%elem_of_cons & i & Hd).
        -- exists i. apply delimited_app_nl; [done..|]. by left.
        -- destruct (proj2 IH (ex_intro _ t' (conj Hin (ex_intro _ i Hd))))
             as [j Hj].
           exists (length t + 1 + j). apply delimited_app_nl; [done..|].
           right. eauto.
    + split.
      * intros [i Hd].
        apply (delimited_app_nl []) in Hd as [Hd|(j & -> & Hd)]; [| |done..].
        { by apply delimited_nil in Hd. }
        destruct (proj1 IH (ex_intro _ j Hd)) as (t' & Hin & Hd').
        exists t'. split; [by right|done].
      * intros (t' & [[=]|Hin]%elem_of_cons & i & Hd).
        destruct (proj2 IH (ex_intro _ t' (conj Hin (ex_intro _ i Hd))))
          as [j Hj].
        exists (length (@nil N) + 1 + j). apply (delimited_app_nl []); [done..|].
        right. eauto.
    + rewrite IH. split.
      * intros (t' & Hin & Hd). exists t'. split; [by right|done].
      * intros (t' & [[=]|Hin]%elem_of_cons & Hd). eauto.
Qed.

(** X4. The container codes of a document are the container codes of its
    pages: a code is in the list made from the whole text exactly when
    it is in the list made from the text of one page that gave a text.
    No code is made of the end of one page and the beginning of the
    next, and none is lost where two pages meet. *)
Theorem containers_page_by_page pages w :
  w ∈ parse_containers U (extract_text pages) ↔
  ∃ t, PageText t ∈ pages ∧ w ∈ parse_containers U t.
Proof.
  assert (∀ text, w ∈ parse_containers U text ↔
                  is_container_code U w ∧ ∃ i, delimited U text w i) as Hpc.
  { intros text. unfold parse_containers.
    destruct (sorted_spec (list_to_set (find_all U (re_container U) text)))
      as (_ & _ & Hin).
    rewrite Hin, elem_of_list_to_set. apply find_all_container_iff. }
  rewrite Hpc. split.
  - intros [Hw Hd]. destruct (container_code_words U w Hw) as (Hs & _ & Hall).
    apply delimited_pages in Hd as (t & Hin & Hd); [|done|by intros ->].
    exists t. split; [done|]. by apply Hpc.
  - intros (t & Hin & [Hw Hd]%Hpc). split; [done|].
    destruct (container_code_words U w Hw) as (Hs & _ & Hall).
    apply delimited_pages; [done|by intros ->|]. eauto.
Qed.
End Pages.

(** ** The ledger *)

Lemma col_index_Some c cols i :
  col_index c cols = Some i → cols !! i = Some c.
Proof.
  revert i. induction cols as [|x cols IH]; intros i; simpl; [done|].
  destruct (decide (x = c)) as [->|Hne]; [by intros [= <-]|].
  destruct (col_index c cols) as [j|]; [|done]. intros [= <-]. by apply IH.
Qed.

Lemma col_index_elem c cols : c ∈ cols → is_Some (col_index c cols).
Proof.
  induction cols as [|x cols IH]; [by intros ?%elem_of_nil|]. simpl.
  destruct (decide (x = c)) as [->|Hne]; [done|].
  intros [->|Hin%IH]%elem_of_cons; [done|]. by destruct Hin as [j ->].
Qed.

Lemma col_index_app_l c cols more :
  c ∈ cols → col_index c (cols ++ more) = col_index c cols.
Proof.
  induction cols as [|x cols IH]; [by intros ?%elem_of_nil|]. simpl.
  destruct (decide (x = c)) as [->|Hne]; [done|].
  intros [->|Hin]%elem_of_cons; [done|]. by rewrite IH.
Qed.

Lemma col_index_app_r c cols more :
  c ∉ cols →
  col_index c (cols ++ more) = (λ j, length cols + j) <$> col_index c more.
Proof.
  induction cols as [|x cols IH]; simpl; intros Hc.
  - by destruct (col_index c more).
  - apply not_elem_of_cons in Hc as [Hne Hc].
    destruct (decide (x = c)) as [->|_]; [done|]. rewrite IH by done.
    by destruct (col_index c more).
Qed.

(** The cell of a row made column by column. *)
Lemma cell_at_fmap (f : label → cell) cs c :
  c ∈ cs → cell_at cs (f <$> cs) c = f c.
Proof.
  intros [i Hi]%col_index_elem. unfold cell_at. rewrite Hi.
  apply col_index_Some in Hi. by rewrite list_lookup_fmap, Hi.
Qed.

(** The loop that adds the missing columns. *)
Lemma add_missing_fold cs df :
  ∃ new,
    foldl (λ df c, if decide (Name c ∈ columns df) then df
                   else add_column (Name c) (Text []) df) df cs =
    Frame (columns df ++ new)
          ((λ r, r ++ replicate (length new) (Text [])) <$> rows df) ∧
    ∀ l, l ∈ new ↔ (l ∉ columns df) ∧ ∃ c, l = Name c ∧ c ∈ cs.
Proof.
  revert df. induction cs as [|c cs IH]; intros df; simpl.
  - exists []. split.
    + destruct df as [cols rs]. simpl. rewrite app_nil_r. f_equal.
      induction rs as [|r rs IHr]; [done|]. simpl in *.
      rewrite app_nil_r. by f_equal.
    + intros l. split; [by intros ?%elem_of_nil|].
      by intros (_ & c & _ & ?%elem_of_nil).
  - destruct (decide (Name c ∈ columns df)) as [Hin|Hnin].
    + destruct (IH df) as (new & -> & Hnew). exists new. split; [done|].
      intros l. rewrite Hnew. split.
      * intros (Hl & c' & -> & Hc'). split; [done|]. exists c'.
        split; [done|by right].
      * intros (Hl & c' & -> & [->|Hc']%elem_of_cons); [done|]. eauto.
    + destruct (IH (add_column (Name c) (Text []) df)) as (new & -> & Hnew).
      exists (Name c :: new). simpl. split.
      * rewrite <-(assoc_L (++)). simpl. f_equal.
        rewrite <-list_fmap_compose. apply list_fmap_ext. intros _ r _. simpl.
        by rewrite <-(assoc_L (++)).
      * intros l. rewrite elem_of_cons, Hnew. simpl.
        rewrite not_elem_of_app, list_elem_of_singleton. split.
        -- intros [->|((Hl1 & Hl2) & c' & -> & Hc')].
           ++ split; [done|]. exists c. split; [done|by left].
           ++ split; [done|]. exists c'. split; [done|by right].
        -- intros (Hl & c' & -> & [->|Hc']%elem_of_cons); [by left|].
           destruct (decide (c' = c)) as [->|Hne]; [by left|]. right.
           split; [split; [done|congruence]|eauto].
Qed.

(** The row of a dict seen through its own keys. *)
Lemma dict_row_keys (row_dict : list (string * list N)) :
  NoDup row_dict.*1 →
  dict_row row_dict (Name <$> row_dict.*1) = Text <$> row_dict.*2.
Proof.
  unfold dict_row.
  assert (∀ d pre : list (string * list N),
    (∀ k, k ∈ d.*1 → k ∉ pre.*1) → NoDup d.*1 →
    (λ c, match c with
          | Name k => match dict_get k (pre ++ d) with
                      | Some v => Text v
                      | None => NaN
                      end
          | Number _ => NaN
          end) <$> (Name <$> d.*1) = Text <$> d.*2) as H.
  { induction d as [|[k v] d IH]; intros pre Hpre Hnd; [done|].
    apply NoDup_cons in Hnd as [Hk Hnd]. simpl. f_equal.
    - assert (dict_get k (pre ++ (k, v) :: d) = Some v) as ->; [|done].
      assert (k ∉ pre.*1) as Hkp by (apply Hpre; left).
      clear -Hkp. induction pre as [|[k' v'] pre IHp]; simpl.
      + by rewrite String.eqb_refl.
      + simpl in Hkp. apply not_elem_of_cons in Hkp as [Hne Hkp].
        destruct (String.eqb_spec k' k) as [->|_]; [done|]. by apply IHp.
    - specialize (IH (pre ++ [(k, v)])). rewrite <-(assoc_L (++)) in IH.
      apply IH; [|done]. intros k' Hk'. rewrite fmap_app, not_elem_of_app.
      split; [apply Hpre; by right|]. simpl.
      rewrite list_elem_of_singleton. by intros ->. }
  intros Hnd. apply (H row_dict []); [|done]. intros k _. apply not_elem_of_nil.
Qed.

Section LedgerFacts.
Variable sheet : Type.
Variable read_excel : sheet → frame.
Variable to_excel : frame → sheet.

(** The call raises no [KeyError] on a record with the keys of
    [COLUMNS], and this is the frame that it writes. *)
Lemma append_to_excel_written row_dict master :
  row_dict.*1 = COLUMNS →
  let df := add_missing (read_excel (default (to_excel new_master) master)) in
  append_to_excel sheet read_excel to_excel row_dict master =
    Some (to_excel (Frame (Name <$> COLUMNS)
      (((λ r, cell_at (columns df) r <$> (Name <$> COLUMNS)) <$> rows df)
       ++ [Text <$> row_dict.*2]))).
Proof.
  intros Hkeys df. unfold append_to_excel.
  replace (match master with Some sh => sh | None => to_excel new_master end)
    with (default (to_excel new_master) master) by (by destruct master).
  fold df. unfold select. rewrite decide_True; last first.
  { apply Forall_forall. intros l (c & -> & Hc)%list_elem_of_fmap.
    unfold df, add_missing.
    destruct (add_missing_fold COLUMNS
                (read_excel (default (to_excel new_master) master)))
      as (new & -> & Hnew).
    cbn [columns]. apply elem_of_app.
    destruct (decide (Name c ∈ columns
                (read_excel (default (to_excel new_master) master))));
      [by left|right].
    apply Hnew. eauto. }
  clearbody df. pose proof COLUMNS_distinct as Hnd. revert Hnd Hkeys.
  generalize COLUMNS. intros cs Hnd Hkeys.
  unfold concat_row. cbn [columns rows]. rewrite Hkeys.
  assert (filter (λ k, k ∉ Name <$> cs) (Name <$> cs) = []) as ->.
  { destruct (filter _ _) as [|l ls] eqn:E; [done|].
    assert (l ∈ l :: ls) as Hl by left. rewrite <-E in Hl.
    by apply list_elem_of_filter in Hl as [? ?]. }
  cbn [length replicate]. rewrite app_nil_r, <-Hkeys, dict_row_keys
    by (by rewrite Hkeys).
  do 4 f_equal. rewrite <-list_fmap_compose.
  apply list_fmap_ext. intros _ r _. simpl. by rewrite app_nil_r.
Qed.

(** X5. What the ledger holds after a call.  Take the frame that is read
    from the file (from the file just made, when there was none), well
    formed, and a record with the seven keys of [COLUMNS].  Then the
    call raises no [KeyError], and the frame that it writes has exactly
    the columns of [COLUMNS], in that order; its rows are the rows read,
    one for one and in the same order, followed by the values of the
    record as the last row; in an old row, the cell of a column of
    [COLUMNS] is the cell read, and the empty string when the file did
    not have that column.  Columns that are not in [COLUMNS] are not
    written back. *)
Theorem append_to_excel_ledger row_dict master :
  let df0 := read_excel (default (to_excel new_master) master) in
  well_formed df0 →
  row_dict.*1 = COLUMNS →
  ∃ old,
    append_to_excel sheet read_excel to_excel row_dict master =
      Some (to_excel (Frame (Name <$> COLUMNS) (old ++ [Text <$> row_dict.*2]))) ∧
    length old = length (rows df0) ∧
    ∀ i r r' c,
      rows df0 !! i = Some r → old !! i = Some r' → c ∈ COLUMNS →
      length r' = length COLUMNS ∧
      cell_at (Name <$> COLUMNS) r' (Name c) =
        if decide (Name c ∈ columns df0)
        then cell_at (columns df0) r (Name c) else Text [].
Proof.
  intros df0 [_ Hlen] Hkeys. rewrite append_to_excel_written by done.
  fold df0. clearbody df0. clear Hkeys. unfold add_missing.
  destruct (add_missing_fold COLUMNS df0) as (new & -> & Hnew).
  revert Hnew. generalize COLUMNS. intros cs Hnew.
  cbn [columns rows]. eexists. split; [done|]. split.
  { by rewrite !length_fmap. }
  intros i r r' c Hr Hr' Hc.
  rewrite !list_lookup_fmap, Hr in Hr'. simpl in Hr'. injection Hr' as <-.
  split; [by rewrite !length_fmap|].
  rewrite cell_at_fmap by (apply list_elem_of_fmap; eauto).
  eapply Forall_lookup_1 in Hlen; [|done]. unfold cell_at.
  destruct (decide (Name c ∈ columns df0)) as [Hin|Hnin].
  - rewrite col_index_app_l by done.
    destruct (col_index_elem _ _ Hin) as [j Hj]. rewrite Hj.
    apply col_index_Some, lookup_lt_Some in Hj.
    by rewrite lookup_app_l by lia.
  - rewrite col_index_app_r by done.
    assert (Name c ∈ new) as [j Hj]%col_index_elem by (apply Hnew; eauto).
    rewrite Hj. simpl. apply col_index_Some, lookup_lt_Some in Hj.
    rewrite lookup_app_r by lia.
    replace (length (columns df0) + j - length r) with j by lia.
    by rewrite lookup_replicate_2.
Qed.

Lemma elem_of_extract_text c pages :
  c ∈ extract_text pages → c = NL ∨ ∃ t, PageText t ∈ pages ∧ c ∈ t.
Proof.
  induction pages as [|p pages IH]; [by intros ?%elem_of_nil|].
  rewrite extract_text_cons. intros [Hc|Hc]%elem_of_app.
  - destruct p as [t| |]; simpl in Hc.
    + apply elem_of_app in Hc as [Hc|Hc%list_elem_of_singleton]; [|by left].
      right. exists t. split; [left|done].
    + apply list_elem_of_singleton in Hc. by left.
    + by apply elem_of_nil in Hc.
  - destruct (IH Hc) as [->|(t & Hin & Ht)]; [by left|].
    right. exists t. split; [by right|done].
Qed.

(** X6. How a run ends.  It stops with the message of usage only when
    no path was given, and with the message of the missing file only
    when the path given does not exist.  An exception escapes only when
    the reader raises on the file, or when a page holds a character
    outside ASCII (the [AttributeError] of the order number): on a
    record of [parse_pdf] the ledger raises no [KeyError].  When the run
    ends with the message of success, the file written holds the seven
    columns of [COLUMNS], as many rows as were read, and after them the
    values of the record of the document. *)
Theorem main_ending U argv path_exists pages_of master :
  match main sheet read_excel to_excel U argv path_exists pages_of master with
  | ExitUsage _ => length argv < 2
  | ExitNoFile _ pdf_path =>
      argv !! 1 = Some pdf_path ∧ path_exists pdf_path = false
  | Uncaught _ =>
      ∃ pdf_path, argv !! 1 = Some pdf_path ∧ path_exists pdf_path = true ∧
        (pages_of pdf_path = None ∨
         ∃ pages t c, pages_of pdf_path = Some pages ∧ PageText t ∈ pages ∧
                      c ∈ t ∧ is_ascii c = false)
  | Done _ master' =>
      ∃ pdf_path pages row old,
        argv !! 1 = Some pdf_path ∧ path_exists pdf_path = true ∧
        pages_of pdf_path = Some pages ∧
        parse_pdf U (extract_text pages) = Returns row ∧
        master' = to_excel (Frame (Name <$> COLUMNS)
                                  (old ++ [Text <$> row.*2])) ∧
        length old =
          length (rows (read_excel (default (to_excel new_master) master)))
  end.
Proof.
  unfold main. destruct (argv !! 1) as [pdf_path|] eqn:Harg; last first.
  { apply lookup_ge_None in Harg. lia. }
  destruct (path_exists pdf_path) eqn:Hex; simpl; [|done].
  destruct (pages_of pdf_path) as [pages|] eqn:Hpages; last first.
  { exists pdf_path. eauto. }
  pose proof (parse_pdf_spec U (extract_text pages)) as Hrow.
  destruct (parse_pdf U (extract_text pages)) as [row|] eqn:Hparse.
  - destruct Hrow as [Hkeys _]. rewrite append_to_excel_written by done.
    exists pdf_path, pages, row. eexists. split_and!; [done..|].
    rewrite length_fmap. unfold add_missing.
    destruct (add_missing_fold COLUMNS
                (read_excel (default (to_excel new_master) master)))
      as (new & -> & _).
    cbn [rows]. by rewrite length_fmap.
  - apply parse_customer_order_raises in Hrow as (c & Hc & Hascii).
    exists pdf_path. split_and!; [done..|]. right.
    apply elem_of_extract_text in Hc as [->|(t & Hin & Ht)]; [done|].
    exists pages, t, c. done.
Qed.
End LedgerFacts.

(** ** The candidate that tier 2 picks *)

Lemma head_insert_by_len x l :
  head (insert_by_len x l) =
  Some (match head l with
        | Some y => if length x <? length y then y else x
        | None => x
        end).
Proof. destruct l as [|y l]; simpl; [done|]. by destruct (_ <? _). Qed.

(** The head of the sorted list is the first of the longest elements. *)
Lemma head_sort_by_len_desc l c :
  head (sort_by_len_desc l) = Some c ↔
  ∃ l1 l2, l = l1 ++ c :: l2 ∧ Forall (λ x, length x < length c) l1 ∧
           Forall (λ x, length x ≤ length c) l2.
Proof.
  unfold sort_by_len_desc. split.
  - revert c. induction l as [|x l IH]; intros c; simpl; [done|].
    rewrite head_insert_by_len.
    destruct (head (foldr insert_by_len [] l)) as [y|] eqn:Hhd.
    + destruct (IH y eq_refl) as (l1 & l2 & -> & H1 & H2).
      destruct (Nat.ltb_spec (length x) (length y)); intros [= <-].
      * exists (x :: l1), l2. split_and!; [done| |done]. by constructor.
      * exists [], (l1 ++ y :: l2). split_and!; [done..|].
        apply Forall_app. split.
        -- eapply Forall_impl; [exact H1|]. simpl. lia.
        -- constructor; [done|]. eapply Forall_impl; [exact H2|]. simpl. lia.
    + intros [= <-]. exists [], l. split_and!; [done..|].
      destruct l as [|z l]; [done|]. simpl in Hhd.
      by rewrite head_insert_by_len in Hhd.
  - intros (l1 & l2 & -> & H1 & H2).
    assert (head (foldr insert_by_len [] (c :: l2)) = Some c) as Hc.
    { simpl. rewrite head_insert_by_len.
      destruct (head (foldr insert_by_len [] l2)) as [y|] eqn:Hhd; [|done].
      assert (y ∈ l2) as Hy.
      { apply elem_of_sort_by_len_desc. unfold sort_by_len_desc.
        destruct (foldr insert_by_len [] l2); [done|].
        injection Hhd as ->. left. }
      eapply Forall_forall in H2; [|done].
      destruct (Nat.ltb_spec (length c) (length y)); [lia|done]. }
    induction H1 as [|x l1 Hx _ IH]; [done|]. simpl.
    rewrite head_insert_by_len, IH.
    destruct (Nat.ltb_spec (length x) (length c)); [done|lia].
Qed.

Lemma first_success_intro {A B} (f : A → option B) l1 x l2 y :
  (∀ z, z ∈ l1 → f z = None) → f x = Some y →
  first_success f (l1 ++ x :: l2) = Some y.
Proof.
  intros Hl1 Hx. induction l1 as [|a l1 IH]; simpl; [by rewrite Hx|].
  rewrite (Hl1 a) by left. apply IH. intros z Hz. apply Hl1. by right.
Qed.

Lemma sort_by_len_desc_nil l : head (sort_by_len_desc l) = None ↔ l = [].
Proof.
  split; [|by intros ->]. destruct l as [|x l]; [done|].
  unfold sort_by_len_desc. simpl. by rewrite head_insert_by_len.
Qed.

(** X7. The value of tier 2.  Tier 2 returns [bl] exactly in this case:
    going through the keywords in their order, and through the
    occurrences of a keyword in the order of the text, there is a first
    occurrence whose window leaves candidates after the two filters, and
    [bl] is the longest of them; when several are as long, it is the one
    that comes first in the window. *)
Theorem bl_proximity_longest U text bl :
  bl_proximity U text = Some bl ↔
  ∃ kws1 kw kws2 kms1 km kms2 l1 l2,
    bl_keywords = kws1 ++ kw :: kws2 ∧
    finditer U text (Str true kw) = kms1 ++ km :: kms2 ∧
    (∀ kw' km', kw' ∈ kws1 → km' ∈ finditer U text (Str true kw') →
                bl_filtered U (bl_window text km') = []) ∧
    (∀ km', km' ∈ kms1 → bl_filtered U (bl_window text km') = []) ∧
    bl_filtered U (bl_window text km) = l1 ++ bl :: l2 ∧
    Forall (λ c, length c < length bl) l1 ∧
    Forall (λ c, length c ≤ length bl) l2.
Proof.
  unfold bl_proximity. split.
  - intros (kws1 & kw & kws2 & Hkws &
            (kms1 & km & kms2 & Hkms & Hhd & Hkms1)%first_success_Some &
            Hkws1)%first_success_Some.
    apply head_sort_by_len_desc in Hhd as (l1 & l2 & Hl & H1 & H2).
    exists kws1, kw, kws2, kms1, km, kms2, l1, l2.
    split_and!; [done..| | |done|done|done].
    + intros kw' km' Hkw' Hkm'. apply Hkws1 in Hkw'.
      apply sort_by_len_desc_nil. by eapply first_success_None in Hkw'.
    + intros km' Hkm'. by apply sort_by_len_desc_nil, Hkms1.
  - intros (kws1 & kw & kws2 & kms1 & km & kms2 & l1 & l2 &
            -> & Hkms & Hkws1 & Hkms1 & Hl & H1 & H2).
    apply first_success_intro.
    + intros kw' Hkw'. apply first_success_None. intros km' Hkm'.
      apply sort_by_len_desc_nil. by eapply Hkws1.
    + rewrite Hkms. apply first_success_intro.
      * intros km' Hkm'. by apply sort_by_len_desc_nil, Hkms1.
      * apply head_sort_by_len_desc. eauto.
Qed.

(** ** The shape of the two numbers *)

Lemma uint_digits_09 d : Forall (λ c, is_09 c = true) (uint_digits d).
Proof. induction d; simpl; constructor; done. Qed.

Lemma format_f_fixed_point p m e : fixed_point p (format_f p (Finite m e)).
Proof.
  unfold format_f. destruct (scaled _ _ _) as [num den].
  set (ds0 := uint_digits (N.to_uint (round_half_even num den))).
  set (ds := replicate (S p - length ds0) 48%N ++ ds0).
  assert (S p ≤ length ds) as Hlen.
  { unfold ds. rewrite length_app, length_replicate. lia. }
  assert (Forall (λ c, is_09 c = true) ds) as Hds.
  { unfold ds. apply Forall_app. split; [|apply uint_digits_09].
    apply Forall_replicate. done. }
  exists (take (length ds - p) ds), (drop (length ds - p) ds).
  split_and!; [done| | |].
  - intros Hnil. apply (f_equal length) in Hnil.
    rewrite length_take in Hnil. simpl in Hnil. lia.
  - rewrite length_drop. lia.
  - unfold all_in. by rewrite take_drop.
Qed.

Lemma format_f_cases p x :
  format_f p x = str "inf" ∨ fixed_point p (format_f p x).
Proof. destruct x; [right; apply format_f_fixed_point|by left]. Qed.

(** X8. The two numbers of the record are written in one shape.  The
    total amount is the empty string, or [inf], or ASCII digits with a
    full stop and exactly two decimals; the net weight is the empty
    string, or [inf], or ASCII digits with a full stop and exactly three
    decimals.  No sign, no exponent and no separator of thousands is
    ever written, whatever the text holds. *)
Theorem numbers_fixed_point U text :
  (parse_total_amount U text = [] ∨
   parse_total_amount U text = str "inf" ∨
   fixed_point 2 (parse_total_amount U text)) ∧
  (parse_total_net_weight U text = [] ∨
   parse_total_net_weight U text = str "inf" ∨
   fixed_point 3 (parse_total_net_weight U text)).
Proof.
  split.
  - unfold parse_total_amount, total_by.
    destruct (search U text (re_total_line U)) as [m|].
    + destruct (captured_float U text m) as [x|]; simpl.
      { right. apply format_f_cases. }
      destruct (search U text (re_total_any U)) as [m'|]; [|by left].
      destruct (captured_float U text m') as [x|]; simpl; [|by left].
      right. apply format_f_cases.
    + simpl. destruct (search U text (re_total_any U)) as [m'|]; [|by left].
      destruct (captured_float U text m') as [x|]; simpl; [|by left].
      right. apply format_f_cases.
  - unfold parse_total_net_weight, net_weight_label.
    assert (∀ t, (if fpos t then format_f 3 t else []) = [] ∨
                 (if fpos t then format_f 3 t else []) = str "inf" ∨
                 fixed_point 3 (if fpos t then format_f 3 t else [])) as Hfall.
    { intros t. destruct (fpos t); [right; apply format_f_cases|by left]. }
    destruct (search U text (re_total_net U)) as [m|]; [|apply Hfall].
    destruct (captured_float U text m) as [x|]; simpl; [|apply Hfall].
    right. apply format_f_cases.
Qed.

(** ** The values that are read from the text *)

Lemma drop_occurs {A} (s : list A) a v rest :
  drop a s = v ++ rest → a ≤ length s → ∃ pre, s = pre ++ v ++ rest ∧ length pre = a.
Proof.
  intros Hd Ha. apply drop_eq_app in Hd as [Hs Hl]; [|done]. eauto.
Qed.

Lemma capture_occurs s a v rest :
  drop a s = v ++ rest → v ≠ [] → occurs_at s v a.
Proof.
  intros Hd Hne. destruct (decide (a ≤ length s)) as [Ha|Ha].
  - destruct (drop_occurs _ _ _ _ Hd Ha) as (pre & Hs & Hl). by exists pre, rest.
  - rewrite drop_ge in Hd by lia. by destruct v.
Qed.

Lemma capture_group1 s m a v rest :
  m_grp m = Some (a, a + length v) → drop a s = v ++ rest → group1 s m = v.
Proof.
  intros Hg Hd. unfold group1, slice. rewrite Hg, Hd.
  replace (a + length v - a) with (length v) by lia. apply take_app_length.
Qed.

Lemma occurs_at_trans s w v i j :
  occurs_at s w i → occurs_at w v j → occurs_at s v (i + j).
Proof.
  intros (pre & post & -> & <-) (pre' & post' & -> & <-).
  exists (pre ++ pre'), (post' ++ post).
  rewrite <-!(assoc_L (++)), length_app. done.
Qed.

Lemma slice_occurs (s : list N) a b : ∃ k, occurs_at s (slice a b s) k.
Proof.
  exists (length (take a s)), (take a s), (drop (b - a) (drop a s)).
  unfold slice. by rewrite !take_drop.
Qed.

Section FromText.
Variable U : unicode.

Lemma re_invoice_any_capture s i st' :
  matches U s (re_invoice_any U) (MState i None) st' →
  ∃ a v rest, grp st' = Some (a, a + length v) ∧ drop a s = v ++ rest ∧
              all_in (is_digit U) v ∧ 6 ≤ length v.
Proof.
  unfold re_invoice_any, seqs, plus, star, opt. simpl.
  intros (m1 & _ & m2 & _ & m3 & _ & m4 & _ &
          m5 & (mg & (v & Hv & Hlen & _ & [[rest Hd] ->]) & ->) &
          m6 & [_ ->] & ->).
  exists (pos m4), v, rest. done.
Qed.

Lemma re_bl_label_capture s i st' :
  matches U s (re_bl_label U) (MState i None) st' →
  ∃ a v rest, grp st' = Some (a, a + length v) ∧ drop a s = v ++ rest ∧
              all_in (icase U upper_or_digit) v ∧ 8 ≤ length v ≤ 20.
Proof.
  unfold re_bl_label, seqs, plus, star, opt. simpl.
  intros (m1 & _ & m2 & _ & m3 & _ & m4 & _ & m5 & _ & m6 & _ &
          m7 & (mg & (v & Hv & Hlo & Hhi & [[rest Hd] ->]) & ->) & ->).
  exists (pos m6), v, rest. simpl in Hhi. split_and!; [done..|lia|lia].
Qed.

Lemma has_digit_spec c :
  has_digit U c = true → ∃ x, x ∈ c ∧ is_digit U x = true.
Proof.
  unfold has_digit.
  destruct (search U c (re_digit U)) as [m|] eqn:E; [|done]. intros _.
  apply search_from_Some in E as (_ & Hm & _).
  apply match_at_Some in Hm as [_ Hm]. simpl in Hm.
  destruct Hm as (x & Hx & [[rest Hd] _]). simpl in Hd.
  exists x. split; [|done].
  apply (subseteq_drop (m_start m) c). rewrite Hd. left.
Qed.

Lemma upper_or_digit_icase c :
  upper_or_digit c = true → icase U upper_or_digit c = true.
Proof.
  intros Hc.
  assert (is_ascii c = true) as Ha.
  { unfold upper_or_digit, is_upper_az, is_09, in_range, is_ascii in *.
    apply N.ltb_lt. simpl in Hc.
    apply orb_true_iff in Hc as [[_ Hc]%andb_true_iff|[_ Hc]%andb_true_iff];
      apply N.leb_le in Hc; lia. }
  apply (ascii_cases (λ c, implb (upper_or_digit c)
                             (icase U upper_or_digit c))) in Ha;
    [|by vm_compute].
  by rewrite Hc in Ha.
Qed.

Lemma bl_token_shape w :
  is_bl_token w → 8 ≤ length w ≤ 20 ∧ all_in (icase U upper_or_digit) w.
Proof.
  intros (ls & rs & -> & Hl & Hr & Hls & Hrs). rewrite length_app.
  split; [lia|]. apply Forall_app. split.
  - eapply Forall_impl; [exact Hls|]. intros c Hc. apply upper_or_digit_icase.
    unfold upper_or_digit. by rewrite Hc.
  - eapply Forall_impl; [exact Hrs|]. intros c. apply upper_or_digit_icase.
Qed.

(** X9. The identifiers of the record are read from the text, never
    made up.  The invoice number, unless empty, is a run of at least six
    decimal digits that stands in the text.  The B/L number, unless
    empty, stands in the text, has 8 to 20 characters, each of them
    one that the set A to Z, 0 to 9 accepts when case is ignored, and at
    least one of them a decimal digit.  The order number, when [parse_customer_order] returns and
    unless empty, stands in the text, and it has the shape CE-dddd-dd or
    is made of ASCII letters, digits, hyphens and slashes.  Every
    container code of the list stands in the text. *)
Theorem fields_read_from_text text :
  (parse_invoice_number U text = [] ∨
   ∃ i, occurs_at text (parse_invoice_number U text) i ∧
        all_in (is_digit U) (parse_invoice_number U text) ∧
        6 ≤ length (parse_invoice_number U text)) ∧
  (parse_bl_number U text = [] ∨
   ∃ i, occurs_at text (parse_bl_number U text) i ∧
        8 ≤ length (parse_bl_number U text) ≤ 20 ∧
        all_in (icase U upper_or_digit) (parse_bl_number U text) ∧
        ∃ c, c ∈ parse_bl_number U text ∧ is_digit U c = true) ∧
  (∀ v, parse_customer_order U text = Returns v →
        v = [] ∨ ∃ i, occurs_at text v i ∧
                      (is_order_number U v ∨ all_in order_char v)) ∧
  (∀ v, v ∈ parse_containers U text → ∃ i, occurs_at text v i).
Proof.
  split_and!.
  - unfold parse_invoice_number.
    pose proof (search_re_invoice_line U text) as H1.
    destruct (search U text (re_invoice_line U)) as [m|].
    + destruct H1 as (i0 & (pre & ws0 & kw & ws1 & post & Ht & _ & _ & _ & _ &
                             _ & _ & Hds & Hlen & _) & _).
      right. exists (length (pre ++ ws0 ++ kw ++ ws1)). split_and!; [|done..].
      exists (pre ++ ws0 ++ kw ++ ws1), post.
      by rewrite <-!(assoc_L (++)).
    + destruct (search U text (re_invoice_any U)) as [m|] eqn:E; [|by left].
      apply search_from_Some in E as (_ & Hm & _).
      apply match_at_Some in Hm as [_ Hm].
      apply re_invoice_any_capture in Hm as (a & v & rest & Hg & Hd & Hv & Hlen).
      simpl in Hg. rewrite (capture_group1 _ _ _ _ _ Hg Hd).
      right. exists a. split_and!; [|done..].
      eapply capture_occurs; [done|]. intros ->. simpl in Hlen. lia.
  - unfold parse_bl_number.
    destruct (bl_label U text) as [bl|] eqn:E1.
    { unfold bl_label in E1.
      destruct (search U text (re_bl_label U)) as [m|] eqn:E; [|done].
      destruct (has_digit U (group1 text m)) eqn:Hdig; [|done].
      injection E1 as <-.
      apply search_from_Some in E as (_ & Hm & _).
      apply match_at_Some in Hm as [_ Hm].
      apply re_bl_label_capture in Hm as (a & v & rest & Hg & Hd & Hv & Hlen).
      simpl in Hg. rewrite (capture_group1 _ _ _ _ _ Hg Hd) in *.
      right. exists a. split_and!; [|lia|lia|done|by apply has_digit_spec].
      eapply capture_occurs; [done|]. intros ->. simpl in Hlen. lia. }
    destruct (bl_proximity U text) as [bl|] eqn:E2.
    { right.
      pose proof (bl_proximity_Some U text bl E2)
        as (_ & Htok & kw & km & i & _ & _ & [Hocc _] & _).
      destruct (bl_token_shape _ Htok) as [Hlen Hall].
      destruct (slice_occurs text (Nat.max 0 (m_start km - 300))
                  (Nat.min (length text) (m_end km + 300))) as [k Hk].
      exists (k + i). split_and!; [|lia|lia|done|].
      { eapply occurs_at_trans; [exact Hk|exact Hocc]. }
      unfold bl_proximity in E2.
      apply first_success_Some in E2
        as (_ & kw' & _ & _ & (_ & km' & _ & _ & Hhd & _)%first_success_Some & _).
      assert (bl ∈ bl_filtered U (bl_window text km')) as Hin.
      { apply elem_of_sort_by_len_desc. destruct (sort_by_len_desc _); [done|].
        injection Hhd as ->. left. }
      unfold bl_filtered in Hin.
      apply list_elem_of_filter in Hin as [_ Hin].
      apply list_elem_of_filter in Hin as [Hdig _].
      apply has_digit_spec. by destruct (has_digit U bl). }
    destruct (bl_global U text) as [bl|] eqn:E3; [|by left].
    right.
    pose proof (bl_global_Some U text bl E3) as (_ & Htok & i & Hocc & _).
    destruct (bl_token_shape _ Htok) as [Hlen Hall].
    exists i. split_and!; [done|lia|lia|done|].
    unfold bl_global in E3.
    apply first_success_Some in E3 as (_ & m & _ & _ & Hm & _).
    destruct (has_digit U (group0 text m)) eqn:Hdig; [|done]. simpl in Hm.
    destruct (near_booking U _); [done|]. injection Hm as <-.
    by apply has_digit_spec.
  - intros v. unfold parse_customer_order.
    pose proof (search_re_ce U text) as H1.
    destruct (search U text (re_ce U)) as [m|].
    { intros [= <-]. destruct H1 as (Hw & Hdel & _). right.
      exists (m_start m). split; [|by left].
      destruct Hdel as (pre & post & ? & ? & _). by exists pre, post. }
    destruct (search U text (re_order_label U)) as [m|] eqn:E;
      [|intros [= <-]; by left].
    apply search_from_Some in E as (_ & Hm & _).
    apply match_at_Some in Hm as [_ Hm].
    apply re_order_label_capture in Hm as (a & val & rest & Hg & Hd & Hne & _).
    simpl in Hg. rewrite (capture_group1 _ _ _ _ _ Hg Hd).
    pose proof (capture_occurs _ _ _ _ Hd Hne) as Hval.
    pose proof (search_re_ce U val) as H2.
    destruct (search U val (re_ce U)) as [m2|].
    { intros [= <-]. destruct H2 as (Hw & Hdel & _). right.
      exists (a + m_start m2). split; [|by left].
      eapply occurs_at_trans; [done|].
      destruct Hdel as (pre & post & ? & ? & _). by exists pre, post. }
    destruct (rematch U val re_order_run) as [m3|] eqn:E3; [|done].
    intros [= <-]. apply match_at_Some in E3 as [Hs Hm3].
    unfold re_order_run, plus in Hm3. simpl in Hm3.
    destruct Hm3 as (w & Hw & Hlen & _ & [[rest' Hd'] [= Hend _]]).
    simpl in Hd'. rewrite drop_0 in Hd'.
    assert (group0 val m3 = w) as ->.
    { unfold group0, slice. rewrite Hs, Hend, drop_0, Hd'. simpl.
      rewrite Nat.sub_0_r. apply take_app_length. }
    right. exists (a + 0). split; [|by right].
    eapply occurs_at_trans; [done|]. exists [], rest'. done.
  - intros v Hv. unfold parse_containers in Hv.
    destruct (sorted_spec (list_to_set (find_all U (re_container U) text)))
      as (_ & _ & Hin).
    apply Hin, elem_of_list_to_set, find_all_container_iff in Hv
      as (_ & i & pre & post & ? & ? & _).
    exists i, pre, post. done.
Qed.
End FromText.

(** ** The helper [find_first] *)

Section Span.
Variable U : unicode.
Variable s : list N.

Lemma reads_span st v st' :
  reads s st v st' → pos st ≤ length s →
  pos st ≤ pos st' ≤ length s ∧ grp st' = grp st.
Proof.
  intros [[rest Hd] ->] Hle. simpl. split; [|done].
  apply (f_equal length) in Hd. rewrite length_drop, length_app in Hd. lia.
Qed.

(** A match goes forward in the subject, and a group that it closes
    lies inside it. *)
Lemma matches_span r : ∀ st st',
  matches U s r st st' → pos st ≤ length s →
  pos st ≤ pos st' ≤ length s ∧
  (grp st' = grp st ∨
   ∃ a b, grp st' = Some (a, b) ∧ pos st ≤ a ∧ a ≤ b ∧ b ≤ pos st').
Proof.
  induction r as [|cs|ic w|r1 IH1 r2 IH2|r1 IH1 r2 IH2|g lo hi cs| | |r1 IH1|r1 IH1];
    intros st st'; simpl.
  - intros -> Hle. split; [lia|by left].
  - intros (c & _ & Hr) Hle.
    destruct (reads_span _ _ _ Hr Hle) as [? ?]. split; [done|by left].
  - intros (v & _ & Hr) Hle.
    destruct (reads_span _ _ _ Hr Hle) as [? ?]. split; [done|by left].
  - intros (m & H1 & H2) Hle.
    destruct (IH1 _ _ H1 Hle) as [Hp1 Hg1].
    destruct (IH2 _ _ H2 ltac:(lia)) as [Hp2 Hg2]. split; [lia|].
    destruct Hg2 as [Hg2|(a & b & Hg2 & ?)].
    + rewrite Hg2. destruct Hg1 as [Hg1|(a & b & Hg1 & ?)]; [by left|].
      right. exists a, b. split; [done|lia].
    + right. exists a, b. split; [done|lia].
  - intros [H|H] Hle; [by apply IH1|by apply IH2].
  - intros (v & _ & _ & _ & Hr) Hle.
    destruct (reads_span _ _ _ Hr Hle) as [? ?]. split; [done|by left].
  - intros [_ ->] Hle. split; [lia|by left].
  - intros [_ ->] Hle. split; [lia|by left].
  - intros [_ ->] Hle. split; [lia|by left].
  - intros (m & H1 & ->) Hle. destruct (IH1 _ _ H1 Hle) as [Hp1 _]. simpl.
    split; [done|]. right. exists (pos st), (pos m). split; [done|lia].
Qed.

Lemma lstrip_head t c : head (lstrip U t) = Some c → is_space U c = false.
Proof.
  induction t as [|x t IH]; simpl; [done|].
  destruct (is_space U x) eqn:Hx; [done|]. by intros [= <-].
Qed.

(** What [strip] removes and what it leaves. *)
Lemma strip_spec t :
  ∃ l r, t = l ++ strip U t ++ r ∧
         all_in (is_space U) l ∧ all_in (is_space U) r ∧
         (∀ c, head (strip U t) = Some c → is_space U c = false) ∧
         (∀ c, last (strip U t) = Some c → is_space U c = false).
Proof.
  unfold strip.
  destruct (lstrip_spec U t) as (l & Hl & Ht).
  destruct (lstrip_spec U (reverse (lstrip U t))) as (r & Hr & Ht').
  apply (f_equal reverse) in Ht'. rewrite reverse_involutive, reverse_app in Ht'.
  exists l, (reverse r). split_and!.
  - by rewrite <-Ht'.
  - done.
  - by apply Forall_reverse.
  - intros c Hc. apply (lstrip_head t).
    rewrite Ht'. destruct (reverse (lstrip U (reverse (lstrip U t)))); done.
  - intros c Hc. rewrite last_reverse in Hc. by apply lstrip_head in Hc.
Qed.
End Span.

(** X10. What [find_first] gives.  Without a match it returns the empty
    string.  With a match it returns the text of the group, which lies
    inside the match and inside the text, without the white space at
    its two ends: what is removed on either side is white space only,
    and what is left neither begins nor ends with white space.  It
    raises on a match whose pattern has no group, and on a match in
    which the group took no part. *)
Theorem find_first_value U r text :
  match find_first U r text with
  | Found v =>
      search U text r = None ∧ v = [] ∨
      ∃ m a b l t,
        search U text r = Some m ∧ m_grp m = Some (a, b) ∧
        m_start m ≤ a ∧ a ≤ b ∧ b ≤ m_end m ∧ m_end m ≤ length text ∧
        occurs_at text (l ++ v ++ t) a ∧ a + length (l ++ v ++ t) = b ∧
        all_in (is_space U) l ∧ all_in (is_space U) t ∧
        (∀ c, head v = Some c → is_space U c = false) ∧
        (∀ c, last v = Some c → is_space U c = false)
  | NoSuchGroup => has_group r = false ∧ is_Some (search U text r)
  | GroupIsNone =>
      has_group r = true ∧ ∃ m, search U text r = Some m ∧ m_grp m = None
  end.
Proof.
  unfold find_first. destruct (search U text r) as [m|] eqn:E; [|by left].
  destruct (has_group r) eqn:Hg; [|done].
  destruct (m_grp m) as [[a b]|] eqn:Hgrp; [|eauto].
  right. apply search_from_Some in E as ([_ Hle] & Hm & _).
  apply match_at_Some in Hm as [_ Hm].
  apply matches_span in Hm as [Hpos Hspan]; [|done]. simpl in Hpos, Hspan.
  destruct Hspan as [Hspan|(a' & b' & Hspan & Ha & Hab & Hb)]; [congruence|].
  rewrite Hgrp in Hspan. injection Hspan as <- <-.
  destruct (strip_spec U (slice a b text)) as (l & t & Hs & Hl & Ht & Hh & Hla).
  exists m, a, b, l, t. rewrite <-Hs.
  assert (length (slice a b text) = b - a) as Hlen.
  { unfold slice. rewrite length_take, length_drop. lia. }
  split_and!; [done..|lia| | |done|done|done|done].
  - exists (take a text), (drop (b - a) (drop a text)). unfold slice.
    rewrite !take_drop. split; [done|]. rewrite length_take. lia.
  - lia.
Qed.

(** ** Figures that are written back unchanged *)

Section Rounding.
Local Open Scope N_scope.

Lemma round_half_even_bound num den :
  0 < den →
  2 * (round_half_even num den * den) ≤ 2 * num + den ∧
  2 * num ≤ 2 * (round_half_even num den * den) + den.
Proof.
  intros Hden. unfold round_half_even.
  pose proof (N.div_mod num den ltac:(lia)) as Hdm.
  pose proof (N.mod_lt num den ltac:(lia)) as Hlt.
  set (q := num / den) in *. set (r := num mod den) in *.
  destruct ((den <? 2 * r) || ((2 * r =? den) && N.odd q)) eqn:E.
  - assert (den ≤ 2 * r) as Hr.
    { apply orb_true_iff in E as [E%N.ltb_lt|[E%N.eqb_eq _]%andb_true_iff]; lia. }
    nia.
  - apply orb_false_iff in E as [E%N.ltb_ge _]. nia.
Qed.

Lemma round_half_even_near num den q :
  2 * num < 2 * (q * den) + den → 2 * (q * den) < 2 * num + den →
  round_half_even num den = q.
Proof.
  intros H1 H2. assert (0 < den) as Hden by lia.
  unfold round_half_even.
  pose proof (N.div_mod num den ltac:(lia)) as Hdm.
  pose proof (N.mod_lt num den ltac:(lia)) as Hlt.
  set (q' := num / den) in *. set (r := num mod den) in *.
  destruct ((den <? 2 * r) || ((2 * r =? den) && N.odd q')) eqn:E.
  - assert (den ≤ 2 * r) as Hr.
    { apply orb_true_iff in E as [E%N.ltb_lt|[E%N.eqb_eq _]%andb_true_iff]; lia. }
    nia.
  - apply orb_false_iff in E as [E%N.ltb_ge _]. nia.
Qed.
End Rounding.

Section Exact.
Local Open Scope N_scope.

(** The exponent that [round64] finds for [n / d]. *)
Lemma floor_log2_spec n d :
  0 < n → 0 < d →
  let lb := (Z.of_N (N.log2 n) - Z.of_N (N.log2 d))%Z in
  let fl := let '(num, den) := scaled n d lb in
            if den <=? num then lb else (lb - 1)%Z in
  (fl ≤ Z.of_N (N.log2 n))%Z ∧ (- Z.of_N (N.log2 d) - 1 ≤ fl)%Z ∧
  d * 2 ^ Z.to_N fl ≤ n * 2 ^ Z.to_N (- fl).
Proof.
  intros Hn Hd lb fl.
  destruct (N.log2_spec n Hn) as [Ha1 Ha2].
  destruct (N.log2_spec d Hd) as [Hb1 Hb2].
  set (a := N.log2 n) in *. set (b := N.log2 d) in *.
  rewrite N.pow_succ_r' in Ha2, Hb2.
  unfold fl, scaled. destruct (Z.leb_spec 0 lb) as [Hlb|Hlb].
  - assert (a = b + Z.to_N lb) as Hab by lia.
    destruct (N.leb_spec (d * 2 ^ Z.to_N lb) n) as [Hle|Hgt].
    + split; [lia|]. split; [lia|].
      replace (Z.to_N (- lb)) with 0 by lia. rewrite N.pow_0_r. lia.
    + split; [lia|]. split; [lia|].
      destruct (decide (lb = 0%Z)) as [Hz|Hz].
      * rewrite Hz. simpl. rewrite Hz in Hab. simpl in Hab.
        rewrite N.add_0_r in Hab. rewrite Hab in Ha1.
        rewrite N.pow_0_r, N.pow_1_r. lia.
      * replace (Z.to_N (- (lb - 1))) with 0 by lia. rewrite N.pow_0_r.
        assert (Z.to_N lb = N.succ (Z.to_N (lb - 1))) as Hs by lia.
        rewrite Hab, Hs, N.pow_add_r, N.pow_succ_r' in Ha1.
        set (P := 2 ^ Z.to_N (lb - 1)) in *. set (B := 2 ^ b) in *.
        assert (d * P ≤ 2 * B * P) by (apply N.mul_le_mono_r; lia). lia.
  - assert (b = a + Z.to_N (- lb)) as Hab by lia.
    destruct (N.leb_spec d (n * 2 ^ Z.to_N (- lb))) as [Hle|Hgt].
    + split; [lia|]. split; [lia|].
      replace (Z.to_N lb) with 0 by lia. rewrite N.pow_0_r. lia.
    + split; [lia|]. split; [lia|].
      replace (Z.to_N (lb - 1)) with 0 by lia. rewrite N.pow_0_r.
      assert (Z.to_N (- (lb - 1)) = N.succ (Z.to_N (- lb))) as Hs by lia.
      rewrite Hs, N.pow_succ_r'.
      rewrite Hab, N.pow_add_r in Hb2.
      set (P := 2 ^ Z.to_N (- lb)) in *. set (A := 2 ^ a) in *.
        assert (A * P * 2 ≤ n * P * 2) by (do 2 apply N.mul_le_mono_r; lia). lia.
Qed.

(** A quotient of two numbers below [2^52] loses nothing when it is
    rounded to a float, multiplied by the divisor again and rounded to
    an integer. *)
Lemma round64_exact n d :
  0 < d → d < 2 ^ 52 → n < 2 ^ 52 →
  ∃ m e, round64 n d = Finite m e ∧
         (let '(num, den) := scaled (m * d) 1 (- e) in
          round_half_even num den) = n.
Proof.
  intros Hd Hd52 Hn52. unfold round64.
  destruct (N.eqb_spec n 0) as [->|Hn0].
  { exists 0, 0%Z. done. }
  assert (0 < n) as Hn by lia.
  pose proof (floor_log2_spec n d Hn Hd) as Hfl. cbv zeta in Hfl |- *.
  set (fl := let '(num, den) := scaled n d _ in if den <=? num then _ else _)
    in *.
  destruct Hfl as (Hfl1 & Hfl2 & Hfl3).
  assert (N.log2 n < 52) as Ha by (by apply N.log2_lt_pow2).
  assert (N.log2 d < 52) as Hb by (by apply N.log2_lt_pow2).
  rewrite Z.max_l by lia. unfold scaled at 1.
  destruct (Z.leb_spec 0 (fl - 52)) as [?|_]; [lia|].
  destruct (Z.ltb_spec 971 (fl - 52)) as [?|_]; [lia|].
  destruct (Z.eqb_spec (fl - 52) 971) as [?|_]; [lia|]. simpl.
  set (K := 2 ^ Z.to_N (- (fl - 52))).
  eexists _, _. split; [done|]. unfold scaled.
  destruct (Z.leb_spec 0 (- (fl - 52))) as [_|?]; [|lia].
  fold K. rewrite N.mul_1_l.
  assert (d < K) as HdK.
  { unfold K. destruct (Z.le_gt_cases 0 fl) as [Hpos|Hneg].
    - replace (Z.to_N (- fl)) with 0 in Hfl3 by lia.
      rewrite N.pow_0_r, N.mul_1_r in Hfl3.
      assert (2 ^ 52 = 2 ^ Z.to_N (- (fl - 52)) * 2 ^ Z.to_N fl) as Hp.
      { rewrite <-N.pow_add_r. f_equal. lia. }
      rewrite Hp in Hn52.
      set (P := 2 ^ Z.to_N fl) in *. set (Q := 2 ^ Z.to_N (- (fl - 52))) in *.
      nia.
    - replace (Z.to_N fl) with 0 in Hfl3 by lia.
      rewrite N.pow_0_r, N.mul_1_r in Hfl3.
      assert (2 ^ Z.to_N (- (fl - 52)) = 2 ^ 52 * 2 ^ Z.to_N (- fl)) as ->.
      { rewrite <-N.pow_add_r. f_equal. lia. }
      set (P := 2 ^ Z.to_N (- fl)) in *.
      assert (0 < P) by (apply N.neq_0_lt_0, N.pow_nonzero; lia).
      assert (n * P < 2 ^ 52 * P) by (apply N.mul_lt_mono_pos_r; lia).
      lia. }
  pose proof (round_half_even_bound (n * K) d Hd) as [Hb1 Hb2].
  apply round_half_even_near; lia.
Qed.
End Exact.

Section Digits.
Variable U : unicode.

Lemma uint_digits_exists l :
  all_in is_09 l → ∃ d, uint_digits d = l.
Proof.
  induction l as [|c l IH]; intros Hl; [by exists Decimal.Nil|].
  apply Forall_cons in Hl as [Hc Hl]. destruct (IH Hl) as [d <-].
  unfold is_09, in_range in Hc. apply andb_true_iff in Hc as [H1 H2].
  apply N.leb_le in H1, H2. simpl in H1, H2.
  assert (c = 48 ∨ c = 49 ∨ c = 50 ∨ c = 51 ∨ c = 52 ∨ c = 53 ∨ c = 54 ∨
          c = 55 ∨ c = 56 ∨ c = 57)%N as Hcases by lia.
  destruct Hcases as [->|[->|[->|[->|[->|[->|[->|[->|[->| ->]]]]]]]]].
  - by exists (Decimal.D0 d).
  - by exists (Decimal.D1 d).
  - by exists (Decimal.D2 d).
  - by exists (Decimal.D3 d).
  - by exists (Decimal.D4 d).
  - by exists (Decimal.D5 d).
  - by exists (Decimal.D6 d).
  - by exists (Decimal.D7 d).
  - by exists (Decimal.D8 d).
  - by exists (Decimal.D9 d).
Qed.

Lemma digits_val_acc d acc :
  digits_val U (Npos acc) (uint_digits d) = Some (Npos (Pos.of_uint_acc d acc)).
Proof.
  revert acc. induction d; intros acc; simpl; [done|..];
    rewrite <-IHd; f_equal; lia.
Qed.

Lemma digits_val_of_uint d :
  digits_val U 0 (uint_digits d) = Some (N.of_uint d).
Proof.
  induction d; simpl; [done|done|..]; exact (digits_val_acc d _).
Qed.

Lemma nzhead_digits d :
  ∃ k, uint_digits d = replicate k 48%N ++ uint_digits (Decimal.nzhead d).
Proof.
  induction d; try (by exists 0).
  destruct IHd as [k Hk]. exists (S k). simpl. by rewrite Hk.
Qed.

Lemma unorm_digits d :
  uint_digits d ≠ [] →
  ∃ k, uint_digits d = replicate k 48%N ++ uint_digits (Decimal.unorm d).
Proof.
  intros Hne. destruct (nzhead_digits d) as [k Hk]. unfold Decimal.unorm.
  destruct (Decimal.nzhead d) eqn:E; try (by exists k).
  simpl in Hk. rewrite app_nil_r in Hk. destruct k as [|k]; [done|].
  exists k. rewrite Hk. simpl.
  change (48%N :: replicate k 48%N) with (replicate (S k) 48%N).
  by rewrite replicate_S_end.
Qed.

(** A string of ASCII digits is the decimal numeral of its value, after
    some zeros. *)
Lemma digits_to_uint l n :
  all_in is_09 l → l ≠ [] → digits_val U 0 l = Some n →
  ∃ k, l = replicate k 48%N ++ uint_digits (N.to_uint n).
Proof.
  intros [d <-]%uint_digits_exists Hne Hn.
  rewrite digits_val_of_uint in Hn. injection Hn as <-.
  rewrite DecimalN.Unsigned.to_of. by apply unorm_digits.
Qed.

Lemma uint_digits_canonical n :
  uint_digits (N.to_uint n) ≠ [] ∧
  (head (uint_digits (N.to_uint n)) = Some 48%N →
   uint_digits (N.to_uint n) = [48%N]).
Proof.
  assert (N.to_uint n = Decimal.unorm (N.to_uint n)) as Heq.
  { by rewrite <-DecimalN.Unsigned.to_of, DecimalN.Unsigned.of_to. }
  rewrite Heq. unfold Decimal.unorm.
  generalize (N.to_uint n). intros d.
  assert (∀ d', Decimal.nzhead d = d' →
    match d' with Decimal.D0 _ => False | _ => True end) as Hnz.
  { intros d' <-. induction d; done. }
  specialize (Hnz _ eq_refl).
  destruct (Decimal.nzhead d); done.
Qed.

Lemma digits_val_bound l : ∀ acc,
  all_in is_09 l →
  ∃ n, digits_val U acc l = Some n ∧
       (acc * 10 ^ N.of_nat (length l) ≤ n < (acc + 1) * 10 ^ N.of_nat (length l))%N.
Proof.
  induction l as [|c l IH]; intros acc Hl.
  - exists acc. simpl. split; [done|]. lia.
  - apply Forall_cons in Hl as [Hc Hl]. simpl digits_val.
    assert (∃ v, digit_val U c = Some v ∧ (v ≤ 9)%N) as (v & -> & Hv).
    { pose proof Hc as Hc'. unfold is_09, in_range in Hc'.
      apply andb_true_iff in Hc' as [H1 H2].
      apply N.leb_le in H1, H2. simpl in H1, H2.
      unfold digit_val, is_ascii.
      destruct (N.ltb_spec c 128) as [_|?]; [|lia].
      rewrite Hc. eexists. split; [done|]. lia. }
    destruct (IH (10 * acc + v)%N Hl) as (n & Hn & Hlo & Hhi).
    exists n. split; [done|].
    replace (N.of_nat (length (c :: l))) with (N.succ (N.of_nat (length l)))
      by (simpl; lia).
    rewrite N.pow_succ_r'. set (P := (10 ^ N.of_nat (length l))%N) in *. nia.
Qed.

Lemma before_dot_digits ip rest :
  all_in is_09 ip → before_dot (ip ++ chr "." :: rest) = ip.
Proof.
  induction ip as [|c ip IH]; intros Hip; [done|].
  apply Forall_cons in Hip as [Hc Hip].
  change ((c :: ip) ++ chr "." :: rest) with (c :: (ip ++ chr "." :: rest)).
  cbn [before_dot].
  destruct (N.eqb_spec c (chr ".")) as [->|_]; [done|]. by rewrite IH.
Qed.
End Digits.

(** A figure of at most fifteen ASCII digits, with a full stop among
    them and no needless zero in front, is written back as it was
    read. *)
Lemma figure_exact U ip fp :
  all_in is_09 ip → all_in is_09 fp → ip ≠ [] →
  (head ip = Some 48%N → ip = [48%N]) → length (ip ++ fp) ≤ 15 →
  format_f (length fp) <$> float_of U (ip ++ str "." ++ fp)
  = Some (ip ++ str "." ++ fp).
Proof.
  intros Hip Hfp Hne Hcanon Hlen. unfold float_of.
  change (str "." ++ fp) with (chr "." :: fp).
  rewrite before_dot_digits by done.
  replace (S (length ip)) with (length ip + 1) by lia.
  rewrite <-drop_drop, drop_app_length. simpl drop. rewrite !drop_0.
  rewrite decide_False by (by destruct ip).
  destruct (digits_val_bound U (ip ++ fp) 0%N) as (n & Hn & _ & Hhi).
  { by apply Forall_app. }
  rewrite Hn. simpl. f_equal.
  assert (∀ k, k ≤ 15 → (10 ^ N.of_nat k < 2 ^ 52)%N) as Hpow.
  { intros k Hk. apply N.le_lt_trans with (10 ^ 15)%N; [|by vm_compute].
    apply N.pow_le_mono_r; lia. }
  destruct (round64_exact n (10 ^ N.of_nat (length fp))) as (m & e & -> & Hq).
  { apply N.neq_0_lt_0, N.pow_nonzero. lia. }
  { apply Hpow. rewrite length_app in Hlen. lia. }
  { specialize (Hpow _ Hlen). lia. }
  unfold format_f. destruct (scaled _ _ _) as [num den]. rewrite Hq.
  destruct (digits_to_uint U (ip ++ fp) n) as [k Hk];
    [by apply Forall_app|by destruct ip|done|].
  destruct (uint_digits_canonical n) as [HD1 HD2].
  set (D := uint_digits (N.to_uint n)) in *.
  assert (k = S (length fp) - length D) as <-.
  { pose proof (f_equal length Hk) as Hl.
    rewrite !length_app, length_replicate in Hl.
    destruct ip as [|c ip]; [done|]. destruct (decide (c = 48%N)) as [->|Hc].
    - specialize (Hcanon eq_refl). injection Hcanon as ->. simpl in Hl. lia.
    - destruct k as [|k]; [simpl in Hl; lia|]. simpl in Hk. congruence. }
  rewrite <-Hk, length_app.
  replace (length ip + length fp - length fp) with (length ip) by lia.
  by rewrite take_app_length, drop_app_length.
Qed.

(** X11. Figures are written back exactly.  Take the figure that a
    strategy captures, with its commas removed: when it is a numeral of
    at most fifteen ASCII digits with a full stop among them, with no
    needless zero in front, and with two decimals for the amount (three
    for the net weight), the field of the record is that numeral.  The
    passage through [float] changes nothing. *)
Theorem figures_written_back U text m ip fp :
  all_in is_09 ip → all_in is_09 fp → ip ≠ [] →
  (head ip = Some 48%N → ip = [48%N]) → length (ip ++ fp) ≤ 15 →
  remove_char (chr ",") (group1 text m) = ip ++ str "." ++ fp →
  (length fp = 2 → search U text (re_total_line U) = Some m →
   parse_total_amount U text = ip ++ str "." ++ fp) ∧
  (length fp = 2 → total_by U (re_total_line U) text = None →
   search U text (re_total_any U) = Some m →
   parse_total_amount U text = ip ++ str "." ++ fp) ∧
  (length fp = 3 → search U text (re_total_net U) = Some m →
   parse_total_net_weight U text = ip ++ str "." ++ fp).
Proof.
  intros Hip Hfp Hne Hcanon Hlen Hval.
  pose proof (figure_exact U ip fp Hip Hfp Hne Hcanon Hlen) as Hfig.
  rewrite <-Hval in Hfig at 1. fold (captured_float U text m) in Hfig.
  split_and!.
  - intros Hp Hs. unfold parse_total_amount, total_by.
    rewrite Hs. rewrite Hp in Hfig. by rewrite Hfig.
  - intros Hp Hnone Hs. unfold parse_total_amount. rewrite Hnone.
    unfold total_by. rewrite Hs. rewrite Hp in Hfig. by rewrite Hfig.
  - intros Hp Hs. unfold parse_total_net_weight, net_weight_label.
    rewrite Hs. rewrite Hp in Hfig. by rewrite Hfig.
Qed.

(** ** When the amount is [inf] *)

Section Overflow.
Local Open Scope N_scope.

Lemma round64_finite n d :
  0 < d → n < 10 ^ 308 → round64 n d ≠ Infinity.
Proof.
  intros Hd Hn308. unfold round64.
  destruct (N.eqb_spec n 0) as [->|Hn0]; [done|].
  assert (0 < n) as Hn by lia.
  pose proof (floor_log2_spec n d Hn Hd) as Hfl. cbv zeta in Hfl |- *.
  set (fl := let '(num, den) := scaled n d _ in if den <=? num then _ else _)
    in *.
  destruct Hfl as (Hfl1 & _ & _).
  assert (N.log2 n < 1024) as Ha.
  { apply N.log2_lt_pow2; [done|].
    apply N.lt_trans with (10 ^ 308); [done|by vm_compute]. }
  set (e := Z.max (fl - 52) (-1074)).
  assert (e ≤ 971)%Z as He by lia.
  destruct (scaled n d e) as [num den] eqn:Hsc.
  destruct (Z.ltb_spec 971 e) as [?|_]; [lia|]. simpl.
  destruct (Z.eqb_spec e 971) as [He971|_]; [|done]. simpl.
  destruct (N.eqb_spec (round_half_even num den) (2 ^ 53)) as [Hm|_]; [|done].
  exfalso. rewrite He971 in Hsc. unfold scaled in Hsc. simpl in Hsc.
  injection Hsc as <- <-.
  assert (2 * 10 ^ 308 < 2 ^ 971 * (2 ^ 54 - 1)) as Hbig by (by vm_compute).
  pose proof (round_half_even_bound n (d * 2 ^ 971)) as [Hb _].
  { apply N.mul_pos_pos; [done|]. by vm_compute. }
  rewrite Hm in Hb.
  change (2 ^ 53) with 9007199254740992 in Hb.
  change (2 ^ 54 - 1) with 18014398509481983 in Hbig.
  set (P := 2 ^ 971) in *. set (T := 10 ^ 308) in *.
  assert (P ≤ d * P) by nia. lia.
Qed.
End Overflow.

Section Inf.
Variable U : unicode.
Hypothesis decimal_values : ∀ c v, u_decimal U c = Some v → (v ≤ 9)%N.

Lemma digit_val_le c v : digit_val U c = Some v → (v ≤ 9)%N.
Proof.
  unfold digit_val. destruct (is_ascii c); [|apply decimal_values].
  destruct (is_09 c) eqn:Hc; [|done]. intros [= <-].
  unfold is_09, in_range in Hc. apply andb_true_iff in Hc as [_ H2].
  apply N.leb_le in H2. simpl in H2. lia.
Qed.

Lemma digits_val_lt l : ∀ acc n,
  digits_val U acc l = Some n →
  (n < (acc + 1) * 10 ^ N.of_nat (length l))%N.
Proof.
  induction l as [|c l IH]; intros acc n; simpl digits_val.
  - intros [= <-]. change (N.of_nat (length (@nil N))) with 0%N.
    rewrite N.pow_0_r. lia.
  - destruct (digit_val U c) as [v|] eqn:Hv; [|done].
    apply digit_val_le in Hv. intros Hn%IH.
    replace (N.of_nat (length (c :: l))) with (N.succ (N.of_nat (length l)))
      by (simpl; lia).
    rewrite N.pow_succ_r'. set (P := (10 ^ N.of_nat (length l))%N) in *. nia.
Qed.

Lemma length_before_dot val : length (before_dot val) ≤ length val.
Proof.
  induction val as [|c val IH]; [done|]. cbn [before_dot].
  destruct (c =? chr ".")%N; simpl; lia.
Qed.

(** [float] gives infinity only on more than 308 characters. *)
Lemma float_of_inf val :
  float_of U val = Some Infinity → 309 ≤ length val.
Proof.
  unfold float_of.
  set (ip := before_dot val). set (fp := drop (S (length ip)) val).
  destruct (decide (ip ++ fp = [])) as [|_]; [done|].
  destruct (digits_val U 0 (ip ++ fp)) as [k|] eqn:Hn; [|done]. simpl.
  intros [= Hinf]. apply digits_val_lt in Hn.
  destruct (decide (309 ≤ length val)) as [|Hshort]; [done|]. exfalso.
  apply (round64_finite k (10 ^ N.of_nat (length fp))); [| |done].
  { apply N.neq_0_lt_0, N.pow_nonzero. lia. }
  assert (length (ip ++ fp) ≤ 308) as Hlen.
  { pose proof (length_before_dot val) as Hb. fold ip in Hb.
    rewrite length_app. unfold fp. rewrite length_drop. lia. }
  apply N.lt_le_trans with (10 ^ N.of_nat (length (ip ++ fp)))%N; [lia|].
  apply N.pow_le_mono_r; lia.
Qed.

Lemma re_total_line_capture s i st' :
  matches U s (re_total_line U) (MState i None) st' →
  ∃ a v rest, grp st' = Some (a, a + length v) ∧ drop a s = v ++ rest ∧
              all_in (num_char U) v ∧ 2 ≤ length v.
Proof.
  unfold re_total_line, seqs, plus, star. simpl.
  intros (m1 & _ & m2 & _ & m3 & _ & m4 & _ &
          m5 & (mg & (v & Hv & Hlen & _ & [[rest Hd] ->]) & ->) &
          m6 & [_ ->] & m7 & [_ ->] & ->).
  exists (pos m4), v, rest. done.
Qed.

Lemma re_total_any_capture s i st' :
  matches U s (re_total_any U) (MState i None) st' →
  ∃ a v rest, grp st' = Some (a, a + length v) ∧ drop a s = v ++ rest ∧
              all_in (num_char U) v ∧ 2 ≤ length v.
Proof.
  unfold re_total_any, seqs, plus, star. simpl.
  intros (m1 & _ & m2 & _ &
          m3 & (mg & (v & Hv & Hlen & _ & [[rest Hd] ->]) & ->) & ->).
  exists (pos m2), v, rest. done.
Qed.

Lemma format_f_inf p x : format_f p x = str "inf" → x = Infinity.
Proof.
  destruct x as [m e|]; [|done]. intros Heq.
  destruct (format_f_fixed_point p m e) as (w & f & Hw & _).
  rewrite Heq in Hw.
  assert (chr "." ∈ str "inf") as Hin.
  { rewrite Hw. apply elem_of_app. right. left. }
  apply list_elem_of_In in Hin. simpl in Hin.
  destruct Hin as [?|[?|[?|[]]]]; discriminate.
Qed.

Lemma total_by_inf r text :
  (∀ i st', matches U text r (MState i None) st' →
     ∃ a v rest, grp st' = Some (a, a + length v) ∧ drop a text = v ++ rest ∧
                 all_in (num_char U) v ∧ 2 ≤ length v) →
  total_by U r text = Some (str "inf") →
  ∃ i run, occurs_at text run i ∧ all_in (num_char U) run ∧ 309 ≤ length run.
Proof.
  intros Hcap. unfold total_by.
  destruct (search U text r) as [m|] eqn:E; [|done].
  destruct (captured_float U text m) as [x|] eqn:Hx; [|done]. simpl.
  intros [= ->%format_f_inf].
  apply search_from_Some in E as (_ & Hm & _).
  apply match_at_Some in Hm as [_ Hm].
  apply Hcap in Hm as (a & v & rest & Hg & Hd & Hv & Hlen).
  simpl in Hg. unfold captured_float in Hx.
  rewrite (capture_group1 _ _ _ _ _ Hg Hd) in Hx.
  apply float_of_inf in Hx.
  pose proof (length_filter (λ x, x ≠ chr ",") v) as Hle.
  unfold remove_char in Hx.
  exists a, v. split_and!; [|done|lia].
  eapply capture_occurs; [done|]. intros ->. simpl in Hlen. lia.
Qed.

(** X12. When every decimal digit of the character tables has a value
    from 0 to 9: the amount is [inf] only when the text holds a run of
    at least 309 characters that are digits, commas or full stops.  A
    figure of fewer characters never overflows the float. *)
Theorem amount_inf_needs_long_run text :
  parse_total_amount U text = str "inf" →
  ∃ i run, occurs_at text run i ∧ all_in (num_char U) run ∧ 309 ≤ length run.
Proof.
  unfold parse_total_amount.
  destruct (total_by U (re_total_line U) text) as [r1|] eqn:E1.
  { intros ->. revert E1. apply total_by_inf. apply re_total_line_capture. }
  destruct (total_by U (re_total_any U) text) as [r2|] eqn:E2; [|done].
  intros ->. revert E2. apply total_by_inf. apply re_total_any_capture.
Qed.
End Inf.

(** ** The conditional theorems of this part at concrete inputs *)

(** X5, on a ledger with one row, without the column of the invoice and
    with a column that is not in [COLUMNS]; the sheet is the frame
    itself. *)
Lemma append_to_excel_ledger_witness :
  let df0 := Frame [Name "Producto"; Number 7] [[Text (str "LDPE"); Value 3]] in
  let row_dict := (λ k, (k, str "x")) <$> COLUMNS in
  well_formed df0 ∧ row_dict.*1 = COLUMNS ∧
  ∃ old,
    append_to_excel frame id id row_dict (Some df0) =
      Some (Frame (Name <$> COLUMNS) (old ++ [Text <$> row_dict.*2])) ∧
    length old = 1.
Proof.
  intros df0 row_dict.
  assert (well_formed df0) as Hwf.
  { split.
    - apply NoDup_cons. split.
      + intros H. apply list_elem_of_singleton in H. discriminate H.
      + apply NoDup_singleton.
    - repeat constructor. }
  assert (row_dict.*1 = COLUMNS) as Hkeys by reflexivity.
  split; [exact Hwf|]. split; [exact Hkeys|].
  destruct (append_to_excel_ledger frame id id row_dict (Some df0) Hwf Hkeys)
    as (old & Heq & Hlen & _).
  exists old. split; [exact Heq|exact Hlen].
Defined.

(** X11, on a total with a comma between the thousands. *)
Lemma figures_written_back_witness :
  let text := str "Total 18,500.00" in
  let m := RMatch 0 15 (Some (6, 15)) in
  search ascii_only text (re_total_line ascii_only) = Some m ∧
  remove_char (chr ",") (group1 text m) = str "18500" ++ str "." ++ str "00" ∧
  parse_total_amount ascii_only text = str "18500" ++ str "." ++ str "00".
Proof.
  intros text m.
  assert (search ascii_only text (re_total_line ascii_only) = Some m) as Hs
    by (by vm_compute).
  assert (remove_char (chr ",") (group1 text m)
          = str "18500" ++ str "." ++ str "00") as Hval by (by vm_compute).
  split; [exact Hs|]. split; [exact Hval|].
  refine (proj1 (figures_written_back ascii_only text m (str "18500") (str "00")
                   _ _ _ _ _ Hval) eq_refl Hs).
  - unfold all_in. simpl. repeat constructor.
  - unfold all_in. simpl. repeat constructor.
  - discriminate.
  - intros H. discriminate H.
  - simpl. lia.
Defined.

(** X12, on a total of 309 nines. *)
Lemma amount_inf_needs_long_run_witness :
  let text := str "Total " ++ replicate 309 (chr "9") in
  (∀ c v, u_decimal ascii_only c = Some v → (v ≤ 9)%N) ∧
  parse_total_amount ascii_only text = str "inf" ∧
  ∃ i run, occurs_at text run i ∧ all_in (num_char ascii_only) run ∧
           309 ≤ length run.
Proof.
  intros text.
  assert (∀ c v, u_decimal ascii_only c = Some v → (v ≤ 9)%N) as Hdec.
  { intros c v Hc. discriminate Hc. }
  assert (parse_total_amount ascii_only text = str "inf") as Hinf
    by (by vm_compute).
  split; [exact Hdec|]. split; [exact Hinf|].
  exact (amount_inf_needs_long_run ascii_only Hdec text Hinf).
Defined.

(** X1, on a text with two container codes and their pattern. *)
Lemma finditer_reports_witness :
  let s := str "ABCU1234567 XYZU7654321" in
  let r := re_container ascii_only in
  (∀ i m, i ≤ length s → match_at ascii_only s r i = Some m →
          m_start m < m_end m) ∧
  StronglySorted (λ a b, m_end a ≤ m_start b) (finditer ascii_only s r) ∧
  length (finditer ascii_only s r) = 2.
Proof.
  intros s r.
  assert (∀ i m, i ≤ length s → match_at ascii_only s r i = Some m →
                 m_start m < m_end m) as Hne.
  { intros i m Hi Hm. apply match_at_Some in Hm as [Hs Hm].
    apply re_container_delimited in Hm as (w & _ & _ & Hend); [|exact Hi].
    injection Hend as Hend. lia. }
  split; [exact Hne|]. split; [|reflexivity].
  exact (proj1 (finditer_reports ascii_only s r Hne)).
Defined.
